(** * Hyperhyperspace core: state gossip, terminal-ops sync and undo ops

    A shallow embedding of the parts of the TypeScript sources that the
    synchronisation protocol rests on:

    - [StateGossipAgent] (gossip of per-agent state hashes),
    - [TerminalOpsSyncAgent] (fetching of missing ops and their dependencies),
    - [Context] (bundles of literals travelling in one message),
    - [UndoOp] (the constructor guard).

    JavaScript [Map]s are finite maps ([gmap]) where iteration order is
    irrelevant to the result and association lists where it is not;
    arrays are lists; exceptions are an explicit [Completion] type; the
    clock, the random generator and the behaviour of foreign agents are
    passed in explicitly. *)

From Stdlib Require Import ZArith QArith Qround Lia.
From stdpp Require Import base option list gmap strings fin_maps fin_sets.

Local Open Scope Z_scope.

(** Hashes, agent ids and endpoints are JavaScript strings. *)
Abbreviation Hash := string (only parsing).
Abbreviation AgentId := string (only parsing).
Abbreviation Endpoint := string (only parsing).

(** ** Abrupt completion of a JavaScript call *)

Inductive Completion (A : Type) : Type :=
| Normal (a : A)
| Thrown (reason : string).
Arguments Normal {A} a.
Arguments Thrown {A} reason.

(** ** The array primitives the sources rely on *)

Module JSArray.

Section Ops.
Context {A : Type} `{EqDecision A}.

(** [Array.prototype.indexOf]: first position of [x], or -1. *)
Fixpoint indexOf (l : list A) (x : A) : Z :=
  match l with
  | [] => -1
  | y :: l' =>
      if decide (y = x) then 0
      else let i := indexOf l' x in if i <? 0 then -1 else i + 1
  end.

(** [Array.prototype.splice(start, deleteCount)] as far as the array left
    behind is concerned.  A negative [start] counts from the end, and both
    arguments are clamped to the array. *)
Definition splice (l : list A) (start deleteCount : Z) : list A :=
  let len := Z.of_nat (length l) in
  let actualStart :=
    if start <? 0 then Z.max (len + start) 0 else Z.min start len in
  let actualDeleteCount := Z.min (Z.max deleteCount 0) (len - actualStart) in
  take (Z.to_nat actualStart) l
    ++ drop (Z.to_nat (actualStart + actualDeleteCount)) l.

(** [Array.prototype.unshift] with one argument. *)
Definition unshift (l : list A) (x : A) : list A := x :: l.

Lemma indexOf_ge_m1 (l : list A) x : -1 <= indexOf l x.
Proof.
  induction l as [|y l IH]; simpl; [lia|].
  destruct (decide (y = x)); [lia|].
  destruct (indexOf l x <? 0) eqn:E; lia.
Qed.

Lemma indexOf_lt_length (l : list A) x : indexOf l x < Z.of_nat (length l).
Proof.
  induction l as [|y l IH]; simpl; [lia|].
  destruct (decide (y = x)); [lia|].
  destruct (indexOf l x <? 0) eqn:E; lia.
Qed.

Lemma indexOf_neg_iff (l : list A) x : indexOf l x < 0 <-> (x ∉ l).
Proof.
  induction l as [|y l IH]; simpl.
  - split; [intros _; apply not_elem_of_nil | lia].
  - destruct (decide (y = x)) as [->|Hne].
    + split; [lia | intros H; exfalso; apply H; left].
    + destruct (indexOf l x <? 0) eqn:E.
      * apply Z.ltb_lt in E. split; [|lia].
        intros _ Hin. apply elem_of_cons in Hin as [->|Hin]; [done|].
        by apply IH in E.
      * apply Z.ltb_ge in E. split; [lia|].
        intros Hnin. exfalso. apply not_elem_of_cons in Hnin as [_ Hnin].
        apply IH in Hnin. lia.
Qed.

Lemma splice_in_range (l : list A) (s d : Z) :
  0 <= s -> 0 <= d -> s + d <= Z.of_nat (length l) ->
  splice l s d = take (Z.to_nat s) l ++ drop (Z.to_nat (s + d)) l.
Proof.
  intros Hs Hd Hsd. unfold splice.
  destruct (Z.ltb_spec s 0) as [?|_]; [lia|].
  rewrite (Z.min_l s) by lia. rewrite (Z.max_l d) by lia.
  by rewrite (Z.min_l d) by lia.
Qed.

(** Removing the element found by [indexOf] removes the first occurrence. *)
Lemma splice_indexOf (l : list A) x :
  0 <= indexOf l x ->
  exists l1 l2, l = l1 ++ x :: l2 /\ (x ∉ l1) /\
                splice l (indexOf l x) 1 = l1 ++ l2.
Proof.
  intros Hidx. pose proof (indexOf_lt_length l x) as Hlt.
  rewrite splice_in_range by lia. clear Hlt.
  induction l as [|y l IH]; simpl in *; [lia|].
  destruct (decide (y = x)) as [->|Hne].
  - exists [], l. split; [done|]. split; [apply not_elem_of_nil|done].
  - destruct (Z.ltb_spec (indexOf l x) 0) as [?|Hge]; [lia|].
    destruct (IH Hge) as (l1 & l2 & Hl & Hnin & Hs).
    exists (y :: l1), l2. split; [by rewrite Hl|].
    split; [by apply not_elem_of_cons|].
    replace (Z.to_nat (indexOf l x + 1)) with (S (Z.to_nat (indexOf l x))) by lia.
    replace (Z.to_nat (indexOf l x + 1 + 1)) with (S (Z.to_nat (indexOf l x + 1))) by lia.
    simpl. by rewrite Hs.
Qed.

(** Truncation, as used to make room in a bounded array. *)
Lemma splice_truncate (l : list A) (n : Z) :
  0 <= n <= Z.of_nat (length l) ->
  splice l n (Z.of_nat (length l) - n) = take (Z.to_nat n) l.
Proof.
  intros Hn. rewrite splice_in_range by lia.
  rewrite drop_ge; [by rewrite app_nil_r | lia].
Qed.

End Ops.

End JSArray.

(** ** JavaScript numbers

    A finite double is the rational it denotes.  [toDouble] rounds a
    rational to the nearest double, ties to even, with a 53-bit
    significand; overflow, subnormals and NaN are outside the range the
    gossip parameters live in and are not modelled. *)

Module JSNumber.

Definition pow2 (e : Z) : Q :=
  if 0 <=? e then inject_Z (2 ^ e) else Qinv (inject_Z (2 ^ (- e))).

Definition roundHalfEven (q : Q) : Z :=
  let f := Qfloor q in
  match Qcompare (Qminus q (inject_Z f)) (1 # 2) with
  | Lt => f
  | Gt => f + 1
  | Eq => if Z.even f then f else f + 1
  end.

(** For [q > 0], the exponent [e] with [2^52 <= q / 2^e < 2^53]. *)
Definition exponent (q : Q) : Z :=
  let e0 := Z.log2 (Qnum q) - Z.log2 (Zpos (Qden q)) - 52 in
  match Qcompare (Qdiv q (pow2 e0)) (inject_Z (2 ^ 52)) with
  | Lt => e0 - 1
  | _ => e0
  end.

Definition toDoublePos (q : Q) : Q :=
  let e := exponent q in
  Qred (Qmult (inject_Z (roundHalfEven (Qdiv q (pow2 e)))) (pow2 e)).

Definition toDouble (q : Q) : Q :=
  match Qnum q with
  | Z0 => 0%Q
  | Zpos _ => toDoublePos q
  | Zneg _ => Qopp (toDoublePos (Qopp q))
  end.

(** The [*] operator on two doubles. *)
Definition mul (a b : Q) : Q := toDouble (Qmult a b).

(** [Math.ceil]. *)
Definition ceil (q : Q) : Z := Qceiling q.

Example double_one_fifth :
  toDouble (2 # 10) = (3602879701896397 # 18014398509481984)%Q.
Proof. vm_compute. reflexivity. Qed.

Example ten_times_one_fifth : mul (inject_Z 10) (toDouble (2 # 10)) = 2%Q.
Proof. vm_compute. reflexivity. Qed.

(** The familiar [3 * 0.2 = 0.6000000000000001]. *)
Example three_times_one_fifth :
  mul (inject_Z 3) (toDouble (2 # 10)) = (1351079888211149 # 2251799813685248)%Q.
Proof. vm_compute. reflexivity. Qed.

End JSNumber.

(** ** StateGossipAgent *)

Module StateGossipAgent.

Record GossipParams := {
  peerGossipFraction   : Q;
  peerGossipProb       : Q;
  minGossipPeers       : Z;
  maxCachedPrevStates  : Z;
  newStateErrorRetries : Z;
  newStateErrorDelay   : Z;
  maxGossipDelay       : Z
}.

(** The values the class initialises [params] with. *)
Definition defaultParams : GossipParams := {|
  peerGossipFraction   := JSNumber.toDouble (2 # 10);
  peerGossipProb       := JSNumber.toDouble (5 # 10);
  minGossipPeers       := 4;
  maxCachedPrevStates  := 50;
  newStateErrorRetries := 3;
  newStateErrorDelay   := 1500;
  maxGossipDelay       := 5000
|}.

Record Peer := { endpoint : Endpoint; identityHash : Hash }.

(** What the agent reads from its [PeerGroupAgent]. *)
Record PeerControl := {
  getPeers : list Peer;
  maxPeers : Z
}.

(** One call of a tracked agent's [receiveRemoteState] either returns
    [isNew] or throws. *)
Inductive Outcome := Returns (isNew : bool) | Throws.

(** A tracked agent, seen from the gossip agent: the outcome of the
    n-th call of [receiveRemoteState] made while one state object is being
    delivered. *)
Definition StateSyncAgent := nat -> Outcome.

Section Agent.

(** State objects are [HashedObject]s; the gossip agent only hashes,
    validates and literalizes them. *)
Variable HashedObject : Type.
Variable Literal : Type.
Variable hash : HashedObject -> Hash.
Variable validate : HashedObject -> bool.
Variable toLiteral : HashedObject -> Literal.

(** The outcome of [Shuffle.array], which permutes the array in place. *)
Variable shuffle : list Peer -> list Peer.

Variable params : GossipParams.
Variable peerControl : PeerControl.

Inductive GossipMessage :=
| SendFullState (entries : list (AgentId * Hash))
| SendStateObject (agentId : AgentId) (state : Literal) (timestamp : Z)
| RequestFullState
| RequestStateObject (agentId : AgentId).

(** Observable effects, in the order they happen. *)
Inductive Event :=
| EvSend (destination : Endpoint) (msg : GossipMessage)
| EvReceiveRemoteState (agentId : AgentId) (sender : Endpoint)
                       (stateHash : Hash) (attempt : nat)
| EvDelay (ms : Z)
| EvWarning (text : string).

Record State := {
  trackedAgentIds     : gset AgentId;
  localState          : gmap AgentId Hash;
  remoteState         : gmap Endpoint (gmap AgentId Hash);
  localStateObjects   : gmap AgentId HashedObject;
  remoteStateObjects  : gmap Endpoint (gmap AgentId HashedObject);
  previousStatesCache : gmap AgentId (list Hash)
}.

Definition initialState : State := {|
  trackedAgentIds := ∅; localState := ∅; remoteState := ∅;
  localStateObjects := ∅; remoteStateObjects := ∅; previousStatesCache := ∅
|}.

Definition trackAgentState (st : State) (agentId : AgentId) : State :=
  {| trackedAgentIds := {[agentId]} ∪ trackedAgentIds st;
     localState := localState st; remoteState := remoteState st;
     localStateObjects := localStateObjects st;
     remoteStateObjects := remoteStateObjects st;
     previousStatesCache := previousStatesCache st |}.

Definition untrackAgentState (st : State) (agentId : AgentId) : State :=
  {| trackedAgentIds := trackedAgentIds st ∖ {[agentId]};
     localState := delete agentId (localState st);
     remoteState := remoteState st;
     localStateObjects := delete agentId (localStateObjects st);
     remoteStateObjects := remoteStateObjects st;
     previousStatesCache := delete agentId (previousStatesCache st) |}.

Definition clearAgentState (st : State) (agentId : AgentId) : State :=
  {| trackedAgentIds := trackedAgentIds st;
     localState := delete agentId (localState st);
     remoteState := remoteState st;
     localStateObjects := delete agentId (localStateObjects st);
     remoteStateObjects := remoteStateObjects st;
     previousStatesCache := delete agentId (previousStatesCache st) |}.

Definition clearPeerState (st : State) (ep : Endpoint) : State :=
  {| trackedAgentIds := trackedAgentIds st;
     localState := localState st;
     remoteState := delete ep (remoteState st);
     localStateObjects := localStateObjects st;
     remoteStateObjects := delete ep (remoteStateObjects st);
     previousStatesCache := previousStatesCache st |}.

(** [cachePreviousStateHash], on the cache map.  The array stored under
    [agentId] is edited in place, so the map ends up holding the edited
    array. *)
Definition cachePreviousStateHash
    (cache : gmap AgentId (list Hash)) (agentId : AgentId) (state : Hash)
  : gmap AgentId (list Hash) :=
  let prevStates := default [] (cache !! agentId) in
  (* remove if already cached *)
  let idx := JSArray.indexOf prevStates state in
  let prevStates :=
    if 0 <=? idx then JSArray.splice prevStates idx 1 else prevStates in
  (* truncate array to make room for new state *)
  let maxLength := maxCachedPrevStates params - 1 in
  let prevStates :=
    if Z.of_nat (length prevStates) >? maxLength
    then JSArray.splice prevStates maxLength
                        (Z.of_nat (length prevStates) - maxLength)
    else prevStates in
  (* put state at the start of the cached states array *)
  <[agentId := JSArray.unshift prevStates state]> cache.

Definition stateHashIsInPreviousCache
    (st : State) (agentId : AgentId) (state : Hash) : bool :=
  match previousStatesCache st !! agentId with
  | None => false
  | Some cache => 0 <=? JSArray.indexOf cache state
  end.

Definition sendStateObject
    (st : State) (peerEndpoint : Endpoint) (agentId : AgentId) (now : Z)
  : list Event :=
  match localStateObjects st !! agentId with
  | Some state =>
      [EvSend peerEndpoint (SendStateObject agentId (toLiteral state) now)]
  | None => [EvWarning "no state object found"]
  end.

(** The number of peers [gossipNewState] addresses. *)
Definition gossipCount (peerCount : Z) : Z :=
  let count :=
    JSNumber.ceil (JSNumber.mul (inject_Z (maxPeers peerControl))
                                (peerGossipFraction params)) in
  let count :=
    if count <? minGossipPeers params then minGossipPeers params else count in
  let count := if count >? peerCount then peerCount else count in
  count.

Definition gossipNewState
    (st : State) (agentId : AgentId) (sender : option Endpoint) (now : Z)
  : list Event :=
  let peers := shuffle (getPeers peerControl) in
  let count := gossipCount (Z.of_nat (length (getPeers peerControl))) in
  flat_map
    (fun p : Peer =>
       if decide (sender = Some (endpoint p)) then []
       else sendStateObject st (endpoint p) agentId now)
    (take (Z.to_nat count) peers).

Definition localAgentStateUpdate
    (st : State) (agentId : AgentId) (state : HashedObject) (now : Z)
  : State * list Event :=
  if decide (agentId ∈ trackedAgentIds st) then
    let h := hash state in
    let cache :=
      match localState st !! agentId with
      | Some currentState =>
          if decide (h = currentState) then previousStatesCache st
          else cachePreviousStateHash (previousStatesCache st) agentId
                                      currentState
      | None => previousStatesCache st
      end in
    let st' :=
      {| trackedAgentIds := trackedAgentIds st;
         localState := <[agentId := h]> (localState st);
         remoteState := remoteState st;
         localStateObjects := <[agentId := state]> (localStateObjects st);
         remoteStateObjects := remoteStateObjects st;
         previousStatesCache := cache |} in
    (st', gossipNewState st' agentId None now)
  else (st, []).

Definition setRemoteState
    (st : State) (ep : Endpoint) (agentId : AgentId) (state : Hash)
    (stateObject : HashedObject) : State :=
  {| trackedAgentIds := trackedAgentIds st;
     localState := localState st;
     remoteState :=
       <[ep := <[agentId := state]> (default ∅ (remoteState st !! ep))]>
         (remoteState st);
     localStateObjects := localStateObjects st;
     remoteStateObjects :=
       <[ep := <[agentId := stateObject]>
                 (default ∅ (remoteStateObjects st !! ep))]>
         (remoteStateObjects st);
     previousStatesCache := previousStatesCache st |}.

(** The [while] loop inside the [catch] block of
    [notifyAgentOfStateArrival].  The loop variables are [valueReady],
    [retries] and [isNew]; [attempt] counts the calls made so far.  A throw
    inside the loop body is not caught there. *)
Fixpoint retryLoop (fuel : nat) (agent : StateSyncAgent)
    (sender : Endpoint) (agentId : AgentId) (stateHash : Hash)
    (attempt : nat) (valueReady : bool) (retries : Z) (isNew : bool)
  : option (Completion (bool * bool) * list Event) :=
  match fuel with
  | O => None
  | S fuel' =>
      if negb valueReady && (retries <? newStateErrorRetries params) then
        let evs := [EvDelay (newStateErrorDelay params);
                    EvReceiveRemoteState agentId sender stateHash attempt] in
        match agent attempt with
        | Throws => Some (Thrown "receiveRemoteState", evs)
        | Returns b =>
            match retryLoop fuel' agent sender agentId stateHash
                            (S attempt) true retries b with
            | Some (r, evs') => Some (r, evs ++ evs')
            | None => None
            end
        end
      else Some (Normal (valueReady, isNew), [])
  end.

Definition notifyAgentOfStateArrival (fuel : nat)
    (agent : option StateSyncAgent)
    (sender : Endpoint) (agentId : AgentId) (stateHash : Hash)
  : option (Completion bool * list Event) :=
  match agent with
  | Some stateAgent =>
      let first := EvReceiveRemoteState agentId sender stateHash 0 in
      match stateAgent 0%nat with
      | Returns isNew => Some (Normal isNew, [first])
      | Throws =>
          match retryLoop fuel stateAgent sender agentId stateHash
                          1%nat false 0 false with
          | None => None
          | Some (Thrown e, evs) => Some (Thrown e, first :: evs)
          | Some (Normal (valueReady, isNew), evs) =>
              if valueReady then Some (Normal isNew, first :: evs)
              else Some (Thrown "Error processing remote state.", first :: evs)
          end
      end
  | None => Some (Thrown "Cannot find receiving agent.", [])
  end.

Definition receiveStateObject (fuel : nat)
    (st : State) (agent : option StateSyncAgent)
    (sender : Endpoint) (agentId : AgentId) (stateObj : HashedObject)
    (now : Z)
  : option (State * list Event) :=
  if validate stateObj then
    let state := hash stateObj in
    let st := setRemoteState st sender agentId state stateObj in
    let cacheHit := stateHashIsInPreviousCache st agentId state in
    let notified :=
      if cacheHit then Some (true, [])
      else
        match notifyAgentOfStateArrival fuel agent sender agentId state with
        | None => None
        | Some (Normal isNew, evs) => Some (negb isNew, evs)
        | Some (Thrown _, evs) =>
            Some (false, evs ++ [EvWarning "Received erroneous state"])
        end in
    match notified with
    | None => None
    | Some (receivedOldState, evs) =>
        if receivedOldState
           && negb (bool_decide (localState st !! agentId = Some state))
        then Some (st, evs ++ sendStateObject st sender agentId now)
        else Some (st, evs)
    end
  else Some (st, [EvWarning "Received invalid state"]).

(** The state objects sent out in a trace. *)
Definition sentStateObjects (evs : list Event) : list (Endpoint * Literal) :=
  flat_map (fun e => match e with
                     | EvSend ep (SendStateObject _ l _) => [(ep, l)]
                     | _ => []
                     end) evs.

(** The calls of [receiveRemoteState] made in a trace. *)
Definition receiveRemoteStateCalls (evs : list Event) : nat :=
  length (List.filter (fun e => match e with
                                | EvReceiveRemoteState _ _ _ _ => true
                                | _ => false
                                end) evs).

(** *** The previous-states cache *)

(** The cache after a sequence of [cachePreviousStateHash] calls on a fresh
    agent. *)
Definition cacheAfter (calls : list (AgentId * Hash))
  : gmap AgentId (list Hash) :=
  foldl (fun cache c => cachePreviousStateHash cache c.1 c.2) ∅ calls.

(** What one call leaves under [agentId], spelled out on lists. *)
Definition withoutFirst (l : list Hash) (state : Hash) : list Hash :=
  if 0 <=? JSArray.indexOf l state
  then JSArray.splice l (JSArray.indexOf l state) 1 else l.

Lemma cachePreviousStateHash_lookup cache agentId state :
  1 <= maxCachedPrevStates params ->
  cachePreviousStateHash cache agentId state !! agentId =
  Some (state :: take (Z.to_nat (maxCachedPrevStates params - 1))
                      (withoutFirst (default [] (cache !! agentId)) state)).
Proof.
  intros Hmax. unfold cachePreviousStateHash. rewrite lookup_insert_eq.
  fold (withoutFirst (default [] (cache !! agentId)) state).
  set (l := withoutFirst _ _). unfold JSArray.unshift. do 2 f_equal.
  destruct (Z.gtb_spec (Z.of_nat (length l)) (maxCachedPrevStates params - 1)).
  - apply JSArray.splice_truncate. lia.
  - rewrite take_ge; [done | lia].
Qed.

Lemma cachePreviousStateHash_lookup_ne cache agentId state other :
  agentId <> other ->
  cachePreviousStateHash cache agentId state !! other = cache !! other.
Proof. intros Hne. unfold cachePreviousStateHash. by rewrite lookup_insert_ne. Qed.

Lemma withoutFirst_absent l state : state ∉ l -> withoutFirst l state = l.
Proof.
  intros Hnin. unfold withoutFirst.
  apply JSArray.indexOf_neg_iff in Hnin.
  destruct (Z.leb_spec 0 (JSArray.indexOf l state)); [lia | done].
Qed.

Lemma withoutFirst_present l state :
  state ∈ l ->
  exists l1 l2, l = l1 ++ state :: l2 /\ (state ∉ l1) /\
                withoutFirst l state = l1 ++ l2.
Proof.
  intros Hin. unfold withoutFirst.
  destruct (Z.leb_spec 0 (JSArray.indexOf l state)) as [Hge|Hlt].
  - by apply JSArray.splice_indexOf.
  - apply JSArray.indexOf_neg_iff in Hlt. done.
Qed.

Lemma withoutFirst_NoDup l state :
  NoDup l -> NoDup (withoutFirst l state) /\ (state ∉ withoutFirst l state).
Proof.
  intros Hnd. destruct (decide (state ∈ l)) as [Hin|Hnin].
  - destruct (withoutFirst_present l state Hin) as (l1 & l2 & -> & _ & ->).
    apply NoDup_app in Hnd as (Hnd1 & Hdisj & Hnd2).
    apply NoDup_cons in Hnd2 as [Hn2 Hnd2].
    split.
    + apply NoDup_app. split; [done|]. split; [|done].
      intros x Hx Hx2. apply (Hdisj x Hx). by right.
    + intros Hin'. apply elem_of_app in Hin' as [Hin'|Hin']; [|done].
      apply (Hdisj state Hin'). left.
  - by rewrite withoutFirst_absent.
Qed.

Lemma withoutFirst_length l state :
  (length (withoutFirst l state) <= length l)%nat.
Proof.
  destruct (decide (state ∈ l)) as [Hin|Hnin].
  - destruct (withoutFirst_present l state Hin) as (l1 & l2 & -> & _ & ->).
    rewrite !length_app. simpl. lia.
  - by rewrite withoutFirst_absent.
Qed.

(** The invariant of one cached array. *)
Definition boundedDeque (l : list Hash) : Prop :=
  Z.of_nat (length l) <= maxCachedPrevStates params /\ NoDup l.

Lemma cachePreviousStateHash_invariant cache agentId state :
  1 <= maxCachedPrevStates params ->
  (forall a l, cache !! a = Some l -> boundedDeque l) ->
  forall a l, cachePreviousStateHash cache agentId state !! a = Some l ->
              boundedDeque l.
Proof.
  intros Hmax Hinv a l. destruct (decide (agentId = a)) as [<-|Hne].
  - rewrite cachePreviousStateHash_lookup by done. intros [= <-].
    assert (NoDup (default [] (cache !! agentId))) as Hnd.
    { destruct (cache !! agentId) as [old|] eqn:E; simpl.
      - by destruct (Hinv _ _ E). - apply NoDup_nil_2. }
    destruct (withoutFirst_NoDup _ state Hnd) as [Hnd' Hnin].
    split.
    + simpl length. rewrite length_take. lia.
    + apply NoDup_cons. split.
      * intros Hin. apply Hnin. exact (subseteq_take _ _ _ Hin).
      * eapply sublist_NoDup; [exact Hnd' | apply sublist_take].
  - rewrite cachePreviousStateHash_lookup_ne by done. apply Hinv.
Qed.

Lemma cacheAfter_snoc calls agentId state :
  cacheAfter (calls ++ [(agentId, state)]) =
  cachePreviousStateHash (cacheAfter calls) agentId state.
Proof. unfold cacheAfter. by rewrite foldl_app. Qed.

Lemma cacheAfter_invariant calls :
  1 <= maxCachedPrevStates params ->
  forall a l, cacheAfter calls !! a = Some l -> boundedDeque l.
Proof.
  intros Hmax. induction calls as [|[a0 h0] calls IH] using rev_ind.
  - intros a l. unfold cacheAfter. simpl. by rewrite lookup_empty.
  - rewrite cacheAfter_snoc. by apply cachePreviousStateHash_invariant.
Qed.

(** C8.  After any sequence of [cachePreviousStateHash] calls, the array
    cached for an agent holds at most [maxCachedPrevStates] hashes and no
    hash twice; the hash cached last is at the front; and caching a hash
    that is already there moves it to the front, the other hashes keeping
    their order, instead of adding a second copy. *)
Theorem previous_states_cache_bounded_deque
    (calls : list (AgentId * Hash)) (agentId : AgentId) :
  1 <= maxCachedPrevStates params ->
  (forall l, cacheAfter calls !! agentId = Some l ->
             Z.of_nat (length l) <= maxCachedPrevStates params /\ NoDup l) /\
  (forall state, exists rest,
      cacheAfter (calls ++ [(agentId, state)]) !! agentId
      = Some (state :: rest)) /\
  (forall state old,
      cacheAfter calls !! agentId = Some old -> state ∈ old ->
      exists l1 l2, old = l1 ++ state :: l2 /\
        cacheAfter (calls ++ [(agentId, state)]) !! agentId
        = Some (state :: l1 ++ l2)).
Proof.
  intros Hmax. split; [|split].
  - intros l Hl. exact (cacheAfter_invariant calls Hmax _ _ Hl).
  - intros state. rewrite cacheAfter_snoc.
    rewrite cachePreviousStateHash_lookup by done. eauto.
  - intros state old Hold Hin. rewrite cacheAfter_snoc.
    rewrite cachePreviousStateHash_lookup by done. rewrite Hold. simpl.
    destruct (withoutFirst_present old state Hin) as (l1 & l2 & Heq & _ & Hw).
    exists l1, l2. split; [done|]. rewrite Hw. do 2 f_equal.
    apply take_ge.
    destruct (cacheAfter_invariant calls Hmax _ _ Hold) as [Hlen _].
    rewrite Heq in Hlen. rewrite length_app in *. simpl in Hlen. lia.
Qed.

(** *** The gossip budget *)

Lemma gossipCount_formula (peerCount : Z) :
  gossipCount peerCount =
  Z.min peerCount
        (Z.max (minGossipPeers params)
               (JSNumber.ceil (JSNumber.mul (inject_Z (maxPeers peerControl))
                                            (peerGossipFraction params)))).
Proof.
  unfold gossipCount.
  set (raw := JSNumber.ceil _).
  destruct (Z.ltb_spec raw (minGossipPeers params));
    [rewrite Z.max_l by lia | rewrite Z.max_r by lia].
  - destruct (Z.gtb_spec (minGossipPeers params) peerCount); lia.
  - destruct (Z.gtb_spec raw peerCount); lia.
Qed.

Lemma sentStateObjects_app evs1 evs2 :
  sentStateObjects (evs1 ++ evs2)
  = sentStateObjects evs1 ++ sentStateObjects evs2.
Proof. unfold sentStateObjects. apply flat_map_app. Qed.

Lemma sentStateObjects_sendStateObject st ep agentId now own :
  localStateObjects st !! agentId = Some own ->
  sentStateObjects (sendStateObject st ep agentId now) = [(ep, toLiteral own)].
Proof. intros H. unfold sendStateObject. by rewrite H. Qed.

Lemma gossipNewState_events st agentId now own :
  localStateObjects st !! agentId = Some own ->
  gossipNewState st agentId None now
  = (fun p => EvSend (endpoint p)
                     (SendStateObject agentId (toLiteral own) now))
      <$> take (Z.to_nat
                  (gossipCount (Z.of_nat (length (getPeers peerControl)))))
               (shuffle (getPeers peerControl)).
Proof.
  intros Hown. unfold gossipNewState.
  induction (take _ (shuffle (getPeers peerControl))) as [|p ps IH];
    [done|].
  cbn [flat_map fmap list_fmap]. rewrite IH.
  destruct (decide (None = Some (endpoint p))) as [?|_]; [done|].
  unfold sendStateObject. by rewrite Hown.
Qed.

Lemma sentStateObjects_sends (ps : list Peer) agentId literal now :
  sentStateObjects
    ((fun p => EvSend (endpoint p) (SendStateObject agentId literal now))
       <$> ps)
  = (fun p => (endpoint p, literal)) <$> ps.
Proof. induction ps as [|p ps IH]; [done|]. cbn. by rewrite <- IH. Qed.

(** C5.  A local state update of a tracked agent sends the new state
    object to exactly
    [min(peerCount, max(minGossipPeers, ceil(maxPeers * peerGossipFraction)))]
    peers, all different and all taken from the current peer list; with ten
    peers, [maxPeers = 10], [peerGossipFraction = 0.2] and
    [minGossipPeers = 4] that is four messages. *)
Theorem gossip_budget
    (st : State) (agentId : AgentId) (state : HashedObject) (now : Z) :
  (forall l, shuffle l ≡ₚ l) ->
  agentId ∈ trackedAgentIds st ->
  NoDup (endpoint <$> getPeers peerControl) ->
  0 <= minGossipPeers params ->
  let peerCount := Z.of_nat (length (getPeers peerControl)) in
  let budget :=
    Z.min peerCount
      (Z.max (minGossipPeers params)
         (JSNumber.ceil (JSNumber.mul (inject_Z (maxPeers peerControl))
                                      (peerGossipFraction params)))) in
  let events := (localAgentStateUpdate st agentId state now).2 in
  let sent := sentStateObjects events in
  events = (fun p => EvSend (endpoint p)
                            (SendStateObject agentId (toLiteral state) now))
             <$> take (Z.to_nat budget) (shuffle (getPeers peerControl)) /\
  Z.of_nat (length sent) = budget /\
  NoDup sent.*1 /\
  sent.*1 ⊆ endpoint <$> getPeers peerControl /\
  Forall (fun m => m.2 = toLiteral state) sent /\
  (peerCount = 10 -> maxPeers peerControl = 10 ->
   peerGossipFraction params = JSNumber.toDouble (2 # 10) ->
   minGossipPeers params = 4 -> length sent = 4%nat).
Proof.
  intros Hperm Htracked Hnd Hmin peerCount budget events sent.
  assert (Hbudget : gossipCount peerCount = budget)
    by apply gossipCount_formula.
  assert (Hevents : events
                    = (fun p => EvSend (endpoint p)
                                  (SendStateObject agentId (toLiteral state) now))
                        <$> take (Z.to_nat budget)
                                 (shuffle (getPeers peerControl))).
  { subst events. unfold localAgentStateUpdate.
    rewrite decide_True by done. cbn [snd].
    erewrite gossipNewState_events;
      [|cbn [localStateObjects]; apply lookup_insert_eq].
    fold peerCount. by rewrite Hbudget. }
  assert (Hsent : sent = (fun p => (endpoint p, toLiteral state))
                           <$> take (Z.to_nat budget)
                                    (shuffle (getPeers peerControl))).
  { subst sent. rewrite Hevents. apply sentStateObjects_sends. }
  split; [exact Hevents|].
  assert (Hdests : sent.*1 = endpoint <$> take (Z.to_nat budget)
                                (shuffle (getPeers peerControl))).
  { rewrite Hsent, <- list_fmap_compose. by apply list_fmap_ext. }
  assert (Hlen : Z.of_nat (length sent) = budget).
  { rewrite Hsent, length_fmap, length_take, (Permutation_length (Hperm _)).
    fold peerCount. subst budget peerCount. lia. }
  split; [done|]. split; [|split; [|split]].
  - rewrite Hdests, fmap_take.
    eapply sublist_NoDup; [|apply sublist_take]. by rewrite (Hperm _).
  - rewrite Hdests. intros ep Hep.
    apply list_elem_of_fmap in Hep as (p & -> & Hp).
    apply list_elem_of_fmap. exists p. split; [done|].
    apply (subseteq_take _ _) in Hp. by rewrite (Hperm _) in Hp.
  - rewrite Hsent. apply Forall_fmap, Forall_forall. by intros p _.
  - intros Hpc Hmp Hfrac Hmg. apply Nat2Z.inj. rewrite Hlen.
    subst budget. rewrite Hpc, Hmp, Hfrac, Hmg. vm_compute. reflexivity.
Qed.

(** *** Delivery of a received state to the tracked agent *)

(** The loop in the [catch] block runs its body at most once: the body
    either throws or sets [valueReady]. *)
Lemma retryLoop_first fuel agent sender agentId stateHash :
  (2 <= fuel)%nat ->
  retryLoop fuel agent sender agentId stateHash 1%nat false 0 false =
  Some (if 0 <? newStateErrorRetries params then
          match agent 1%nat with
          | Throws =>
              (Thrown "receiveRemoteState",
               [EvDelay (newStateErrorDelay params);
                EvReceiveRemoteState agentId sender stateHash 1])
          | Returns b =>
              (Normal (true, b),
               [EvDelay (newStateErrorDelay params);
                EvReceiveRemoteState agentId sender stateHash 1])
          end
        else (Normal (false, false), [])).
Proof.
  intros Hfuel. destruct fuel as [|[|fuel]]; [lia | lia |].
  cbn [retryLoop negb andb].
  destruct (0 <? newStateErrorRetries params); [|done].
  destruct (agent 1%nat); done.
Qed.

(** Whatever [newStateErrorRetries] is, a delivery calls
    [receiveRemoteState] at most twice. *)
Lemma notifyAgentOfStateArrival_calls fuel agent sender agentId stateHash :
  (2 <= fuel)%nat ->
  exists r evs,
    notifyAgentOfStateArrival fuel agent sender agentId stateHash
    = Some (r, evs) /\
    (receiveRemoteStateCalls evs <= 2)%nat /\
    sentStateObjects evs = [].
Proof.
  intros Hfuel. unfold notifyAgentOfStateArrival.
  assert (Hcase : forall (r : Completion bool) (evs : list Event),
             (receiveRemoteStateCalls evs <= 2)%nat ->
             sentStateObjects evs = [] ->
             exists r' evs', Some (r, evs) = Some (r', evs') /\
               (receiveRemoteStateCalls evs' <= 2)%nat /\
               sentStateObjects evs' = []) by (intros; eauto).
  destruct agent as [stateAgent|]; [|apply Hcase; [cbn; lia | done]].
  destruct (stateAgent 0%nat); [apply Hcase; [cbn; lia | done]|].
  rewrite retryLoop_first by done.
  destruct (0 <? newStateErrorRetries params);
    [destruct (stateAgent 1%nat)|];
    (apply Hcase; [cbn; lia | done]).
Qed.

(** A retry that throws ends the delivery: the exception leaves the
    [catch] block. *)
Lemma notifyAgentOfStateArrival_retry_throws
    fuel stateAgent sender agentId stateHash :
  (2 <= fuel)%nat ->
  0 < newStateErrorRetries params ->
  stateAgent 0%nat = Throws -> stateAgent 1%nat = Throws ->
  notifyAgentOfStateArrival fuel (Some stateAgent) sender agentId stateHash
  = Some (Thrown "receiveRemoteState",
          [EvReceiveRemoteState agentId sender stateHash 0;
           EvDelay (newStateErrorDelay params);
           EvReceiveRemoteState agentId sender stateHash 1]).
Proof.
  intros Hfuel Hretries H0 H1. unfold notifyAgentOfStateArrival.
  rewrite H0, retryLoop_first by done.
  destruct (Z.ltb_spec 0 (newStateErrorRetries params)); [|lia].
  by rewrite H1.
Qed.

Lemma notifyAgentOfStateArrival_no_sends
    fuel agent sender agentId stateHash r evs :
  notifyAgentOfStateArrival fuel agent sender agentId stateHash
  = Some (r, evs) ->
  sentStateObjects evs = [].
Proof.
  assert (Hloop : forall fuel attempt valueReady retries isNew stateAgent r evs,
             retryLoop fuel stateAgent sender agentId stateHash
                       attempt valueReady retries isNew = Some (r, evs) ->
             sentStateObjects evs = []).
  { clear. induction fuel as [|fuel IH]; intros ?????? evs; [done|].
    cbn [retryLoop].
    destruct (negb valueReady && (retries <? newStateErrorRetries params));
      [|by intros [= <- <-]].
    destruct (stateAgent attempt); [|by intros [= <- <-]].
    destruct (retryLoop fuel _ _ _ _ _ _ _ _) as [[r' evs']|] eqn:E; [|done].
    intros [= <- <-]. apply IH in E. exact E. }
  unfold notifyAgentOfStateArrival.
  destruct agent as [stateAgent|]; [|by intros [= <- <-]].
  destruct (stateAgent 0%nat); [by intros [= <- <-]|].
  destruct (retryLoop _ _ _ _ _ _ _ _ _) as [[[[v n]|e] evs']|] eqn:E;
    [| |done].
  - apply Hloop in E. destruct v; intros [= <- <-]; simpl; done.
  - apply Hloop in E. intros [= <- <-]. simpl. done.
Qed.

Lemma receiveStateObject_old_state
    (fuel : nat) (st : State) (agent : option StateSyncAgent)
    (sender : Endpoint) (agentId : AgentId) (stateObj : HashedObject)
    (now : Z) :
  validate stateObj = true ->
  (stateHashIsInPreviousCache st agentId (hash stateObj) = true \/
   exists evs0,
     notifyAgentOfStateArrival fuel agent sender agentId (hash stateObj)
     = Some (Normal false, evs0)) ->
  exists st' evs,
    receiveStateObject fuel st agent sender agentId stateObj now
    = Some (st', evs) /\
    (localState st !! agentId <> Some (hash stateObj) ->
     forall own, localStateObjects st !! agentId = Some own ->
                 sentStateObjects evs = [(sender, toLiteral own)]) /\
    (localState st !! agentId = Some (hash stateObj) ->
     sentStateObjects evs = []).
Proof.
  intros Hvalid Hold. unfold receiveStateObject. rewrite Hvalid.
  set (st1 := setRemoteState st sender agentId (hash stateObj) stateObj).
  change (stateHashIsInPreviousCache st1 agentId (hash stateObj))
    with (stateHashIsInPreviousCache st agentId (hash stateObj)).
  change (localState st1) with (localState st).
  assert (exists evs0,
    (if stateHashIsInPreviousCache st agentId (hash stateObj)
     then Some (true, [])
     else match notifyAgentOfStateArrival fuel agent sender agentId
                                          (hash stateObj) with
          | None => None
          | Some (Normal isNew, evs) => Some (negb isNew, evs)
          | Some (Thrown _, evs) =>
              Some (false, evs ++ [EvWarning "Received erroneous state"])
          end) = Some (true, evs0) /\ sentStateObjects evs0 = [])
    as (evs0 & -> & Hnone).
  { destruct (stateHashIsInPreviousCache st agentId (hash stateObj)) eqn:Hc.
    - by exists [].
    - destruct Hold as [?|[evs0 Hn]]; [done|]. rewrite Hn. exists evs0.
      split; [done|]. by eapply notifyAgentOfStateArrival_no_sends. }
  cbn [andb].
  destruct (bool_decide (localState st !! agentId = Some (hash stateObj)))
    eqn:Hb; cbn [negb].
  - apply bool_decide_eq_true in Hb. eexists _, _. split; [done|].
    split; [done|]. by intros _.
  - apply bool_decide_eq_false in Hb. eexists _, _. split; [done|].
    split; [|done]. intros _ own Hown.
    rewrite sentStateObjects_app, Hnone.
    by rewrite (sentStateObjects_sendStateObject _ _ _ _ own).
Qed.

(** When [receiveRemoteState] returns false, at the first call or at the
    retry after a first call that threw, so does the delivery. *)
Lemma notifyAgentOfStateArrival_not_new
    fuel stateAgent sender agentId stateHash :
  (2 <= fuel)%nat ->
  stateAgent 0%nat = Returns false \/
  (stateAgent 0%nat = Throws /\ 0 < newStateErrorRetries params /\
   stateAgent 1%nat = Returns false) ->
  exists evs,
    notifyAgentOfStateArrival fuel (Some stateAgent) sender agentId stateHash
    = Some (Normal false, evs).
Proof.
  intros Hfuel [H0|(H0 & Hretries & H1)]; unfold notifyAgentOfStateArrival;
    rewrite H0; [by eexists|].
  rewrite retryLoop_first by done.
  destruct (Z.ltb_spec 0 (newStateErrorRetries params)); [|lia].
  rewrite H1. by eexists.
Qed.

(** C7.  A state object that validates arrives for an agent; its hash is
    in the previous-states cache of that agent, or the agent's
    [receiveRemoteState] returns false.  If the hash differs from the local
    state hash, the one state object sent out is the local one, to the
    sender; if it equals the local state hash, nothing is sent. *)
Theorem stale_state_is_answered_with_local_state
    (fuel : nat) (st : State) (agent : option StateSyncAgent)
    (sender : Endpoint) (agentId : AgentId) (stateObj : HashedObject)
    (now : Z) :
  (2 <= fuel)%nat ->
  validate stateObj = true ->
  (stateHashIsInPreviousCache st agentId (hash stateObj) = true \/
   exists stateAgent,
     agent = Some stateAgent /\
     (stateAgent 0%nat = Returns false \/
      (stateAgent 0%nat = Throws /\ 0 < newStateErrorRetries params /\
       stateAgent 1%nat = Returns false))) ->
  exists st' evs,
    receiveStateObject fuel st agent sender agentId stateObj now
    = Some (st', evs) /\
    (localState st !! agentId <> Some (hash stateObj) ->
     forall own, localStateObjects st !! agentId = Some own ->
                 sentStateObjects evs = [(sender, toLiteral own)]) /\
    (localState st !! agentId = Some (hash stateObj) ->
     sentStateObjects evs = []).
Proof.
  intros Hfuel Hvalid Hold. apply receiveStateObject_old_state; [done|].
  destruct Hold as [?|(stateAgent & -> & Hfalse)]; [by left|]. right.
  by apply notifyAgentOfStateArrival_not_new.
Qed.

(** The local hash and the local state object are recorded and dropped
    together. *)
Definition localStateConsistent (st : State) : Prop :=
  forall agentId,
    is_Some (localState st !! agentId) <->
    is_Some (localStateObjects st !! agentId).

Lemma localAgentStateUpdate_consistent st agentId state now :
  localStateConsistent st ->
  localStateConsistent (localAgentStateUpdate st agentId state now).1.
Proof.
  intros Hc a. unfold localAgentStateUpdate.
  destruct (decide (agentId ∈ trackedAgentIds st)); [|apply Hc].
  cbn [fst localState localStateObjects].
  destruct (decide (agentId = a)) as [->|Hne].
  - rewrite !lookup_insert_eq. split; eauto.
  - rewrite !lookup_insert_ne by done. apply Hc.
Qed.

Lemma clearAgentState_consistent st agentId :
  localStateConsistent st -> localStateConsistent (clearAgentState st agentId).
Proof.
  intros Hc a. cbn [clearAgentState localState localStateObjects].
  destruct (decide (agentId = a)) as [->|Hne].
  - rewrite !lookup_delete_eq. split; intros [? ?]; done.
  - rewrite !lookup_delete_ne by done. apply Hc.
Qed.

(** *** Remote states heard through gossip *)

Definition getRemoteState (st : State) (ep : Endpoint) (agentId : AgentId)
  : option Hash :=
  remoteState st !! ep ≫= (.!! agentId).

Definition getRemoteStateObject
    (st : State) (ep : Endpoint) (agentId : AgentId) : option HashedObject :=
  remoteStateObjects st !! ep ≫= (.!! agentId).

(** [lookupStateObject]; [entries] is [this.remoteState.entries()], the
    entries of the Map in the order the Map gives them. *)
Fixpoint lookupStateObject (st : State)
    (entries : list (Endpoint * gmap AgentId Hash))
    (agentId : AgentId) (state : Hash) : option HashedObject :=
  match entries with
  | [] => None
  | (ep, peerState) :: rest =>
      if bool_decide (peerState !! agentId = Some state) then
        match getRemoteStateObject st ep agentId with
        | Some stateObj => Some stateObj
        | None => lookupStateObject st rest agentId state
        end
      else lookupStateObject st rest agentId state
  end.

(** Every remote hash on record is the hash of the remote state object on
    record, and the two are on record together. *)
Definition RemoteConsistent (st : State) : Prop :=
  forall ep agentId,
    hash <$> getRemoteStateObject st ep agentId = getRemoteState st ep agentId.

Lemma getRemoteState_setRemoteState st ep agentId state stateObject ep' a' :
  getRemoteState (setRemoteState st ep agentId state stateObject) ep' a'
  = if decide (ep = ep' /\ agentId = a') then Some state
    else getRemoteState st ep' a'.
Proof.
  unfold getRemoteState. cbn [setRemoteState remoteState].
  destruct (decide (ep = ep')) as [<-|Hep].
  - rewrite lookup_insert_eq. cbn.
    destruct (decide (agentId = a')) as [<-|Ha].
    + rewrite lookup_insert_eq. by rewrite decide_True.
    + rewrite lookup_insert_ne by done.
      rewrite decide_False by (intros [? ?]; done).
      by destruct (remoteState st !! ep).
  - rewrite lookup_insert_ne by done.
    by rewrite decide_False by (intros [? ?]; done).
Qed.

Lemma getRemoteStateObject_setRemoteState
    st ep agentId state stateObject ep' a' :
  getRemoteStateObject (setRemoteState st ep agentId state stateObject) ep' a'
  = if decide (ep = ep' /\ agentId = a') then Some stateObject
    else getRemoteStateObject st ep' a'.
Proof.
  unfold getRemoteStateObject. cbn [setRemoteState remoteStateObjects].
  destruct (decide (ep = ep')) as [<-|Hep].
  - rewrite lookup_insert_eq. cbn.
    destruct (decide (agentId = a')) as [<-|Ha].
    + rewrite lookup_insert_eq. by rewrite decide_True.
    + rewrite lookup_insert_ne by done.
      rewrite decide_False by (intros [? ?]; done).
      by destruct (remoteStateObjects st !! ep).
  - rewrite lookup_insert_ne by done.
    by rewrite decide_False by (intros [? ?]; done).
Qed.

(** X1.  What [setRemoteState] records for an endpoint and an agent is
    what [getRemoteState] and [getRemoteStateObject] give back for them;
    every other endpoint and agent keeps what it had; and after
    [clearPeerState] nothing is on record for the endpoint, the other
    endpoints keeping theirs. *)
Theorem remote_state_is_recorded_and_cleared_per_endpoint
    (st : State) (ep : Endpoint) (agentId : AgentId) (state : Hash)
    (stateObject : HashedObject) :
  let st' := setRemoteState st ep agentId state stateObject in
  getRemoteState st' ep agentId = Some state /\
  getRemoteStateObject st' ep agentId = Some stateObject /\
  (forall ep' a', (ep', a') <> (ep, agentId) ->
     getRemoteState st' ep' a' = getRemoteState st ep' a' /\
     getRemoteStateObject st' ep' a' = getRemoteStateObject st ep' a') /\
  (forall a', getRemoteState (clearPeerState st' ep) ep a' = None /\
              getRemoteStateObject (clearPeerState st' ep) ep a' = None) /\
  (forall ep' a', ep' <> ep ->
     getRemoteState (clearPeerState st' ep) ep' a' = getRemoteState st ep' a' /\
     getRemoteStateObject (clearPeerState st' ep) ep' a'
     = getRemoteStateObject st ep' a').
Proof.
  intros st'. subst st'. repeat split.
  - rewrite getRemoteState_setRemoteState. by rewrite decide_True.
  - rewrite getRemoteStateObject_setRemoteState. by rewrite decide_True.
  - rewrite getRemoteState_setRemoteState.
    rewrite decide_False; [done|]. intros [-> ->]. done.
  - rewrite getRemoteStateObject_setRemoteState.
    rewrite decide_False; [done|]. intros [-> ->]. done.
  - unfold getRemoteState. cbn [clearPeerState remoteState].
    by rewrite lookup_delete_eq.
  - unfold getRemoteStateObject. cbn [clearPeerState remoteStateObjects].
    by rewrite lookup_delete_eq.
  - unfold getRemoteState. cbn [clearPeerState setRemoteState remoteState].
    rewrite lookup_delete_ne by done. by rewrite lookup_insert_ne.
  - unfold getRemoteStateObject.
    cbn [clearPeerState setRemoteState remoteStateObjects].
    rewrite lookup_delete_ne by done. by rewrite lookup_insert_ne.
Qed.

Lemma lookupStateObject_Some st entries agentId state stateObj :
  lookupStateObject st entries agentId state = Some stateObj ->
  exists ep peerState,
    (ep, peerState) ∈ entries /\ peerState !! agentId = Some state /\
    getRemoteStateObject st ep agentId = Some stateObj.
Proof.
  induction entries as [|[ep peerState] rest IH]; cbn [lookupStateObject];
    [done|].
  destruct (bool_decide (peerState !! agentId = Some state)) eqn:Hb.
  - apply bool_decide_eq_true in Hb.
    destruct (getRemoteStateObject st ep agentId) as [obj|] eqn:Hobj.
    + intros [= <-]. exists ep, peerState. split; [left | done].
    + intros H. destruct (IH H) as (ep' & ps' & Hin & ?).
      exists ep', ps'. split; [by right | done].
  - intros H. destruct (IH H) as (ep' & ps' & Hin & ?).
    exists ep', ps'. split; [by right | done].
Qed.

Lemma lookupStateObject_None st entries agentId state :
  lookupStateObject st entries agentId state = None <->
  forall ep peerState,
    (ep, peerState) ∈ entries -> peerState !! agentId = Some state ->
    getRemoteStateObject st ep agentId = None.
Proof.
  induction entries as [|[ep peerState] rest IH]; cbn [lookupStateObject].
  - split; [|done]. intros _ ep ps Hin. by apply not_elem_of_nil in Hin.
  - destruct (bool_decide (peerState !! agentId = Some state)) eqn:Hb.
    + apply bool_decide_eq_true in Hb.
      destruct (getRemoteStateObject st ep agentId) as [obj|] eqn:Hobj.
      * split; [done|]. intros H.
        specialize (H ep peerState (list_elem_of_here _ _) Hb). congruence.
      * rewrite IH. split.
        -- intros H ep' ps' Hin Hps.
           apply elem_of_cons in Hin as [[= -> ->]|Hin]; [done | eauto].
        -- intros H ep' ps' Hin. apply H. by right.
    + apply bool_decide_eq_false in Hb. rewrite IH. split.
      * intros H ep' ps' Hin Hps.
        apply elem_of_cons in Hin as [[= -> ->]|Hin]; [done | eauto].
      * intros H ep' ps' Hin. apply H. by right.
Qed.

Lemma lookupStateObject_recorded
    (st : State) (entries : list (Endpoint * gmap AgentId Hash))
    (agentId : AgentId) (state : Hash) :
  entries ≡ₚ map_to_list (remoteState st) ->
  (forall stateObj,
      lookupStateObject st entries agentId state = Some stateObj ->
      exists ep, getRemoteState st ep agentId = Some state /\
                 getRemoteStateObject st ep agentId = Some stateObj) /\
  (lookupStateObject st entries agentId state = None <->
   forall ep, getRemoteState st ep agentId = Some state ->
              getRemoteStateObject st ep agentId = None).
Proof.
  intros Hperm.
  assert (Hentries : forall ep peerState,
             (ep, peerState) ∈ entries <-> remoteState st !! ep = Some peerState).
  { intros ep ps. rewrite Hperm. apply elem_of_map_to_list. }
  split.
  - intros stateObj Hfound.
    apply lookupStateObject_Some in Hfound as (ep & ps & Hin & Hps & Hobj).
    apply Hentries in Hin.
    assert (Hstate : getRemoteState st ep agentId = Some state)
      by (unfold getRemoteState; by rewrite Hin).
    by exists ep.
  - rewrite lookupStateObject_None. split.
    + intros H ep Hstate. unfold getRemoteState in Hstate.
      destruct (remoteState st !! ep) as [ps|] eqn:Hps; [|done].
      apply (H ep ps); [by apply Hentries | done].
    + intros H ep ps Hin Hps. apply H. apply Hentries in Hin.
      unfold getRemoteState. by rewrite Hin.
Qed.

(** X2.  Whatever the order in which the Map of remote states is walked,
    [lookupStateObject] finds an object exactly if some endpoint is on
    record with the state hash asked for and with a state object, and what
    it finds is the object on record for such an endpoint; when the records
    are consistent, that object hashes to the state hash asked for. *)
Theorem lookupStateObject_finds_a_recorded_object
    (st : State) (entries : list (Endpoint * gmap AgentId Hash))
    (agentId : AgentId) (state : Hash) :
  entries ≡ₚ map_to_list (remoteState st) ->
  (forall stateObj,
      lookupStateObject st entries agentId state = Some stateObj ->
      (exists ep, getRemoteState st ep agentId = Some state /\
                  getRemoteStateObject st ep agentId = Some stateObj) /\
      (RemoteConsistent st -> hash stateObj = state)) /\
  (lookupStateObject st entries agentId state = None <->
   forall ep, getRemoteState st ep agentId = Some state ->
              getRemoteStateObject st ep agentId = None).
Proof.
  intros Hperm.
  destruct (lookupStateObject_recorded st entries agentId state Hperm)
    as [Hsome Hnone].
  split; [|exact Hnone]. intros stateObj Hfound.
  destruct (Hsome stateObj Hfound) as (ep & Hstate & Hobj).
  split; [by exists ep|].
  intros Hcons. specialize (Hcons ep agentId).
  rewrite Hobj, Hstate in Hcons. by injection Hcons.
Qed.

Lemma retryLoop_sends_nothing fuel stateAgent sender agentId stateHash :
  forall attempt valueReady retries isNew r evs,
    retryLoop fuel stateAgent sender agentId stateHash
              attempt valueReady retries isNew = Some (r, evs) ->
    forall destination msg, EvSend destination msg ∉ evs.
Proof.
  induction fuel as [|fuel IH]; intros attempt valueReady retries isNew r evs;
    [done|].
  cbn [retryLoop].
  destruct (negb valueReady && (retries <? newStateErrorRetries params)).
  - destruct (stateAgent attempt).
    + destruct (retryLoop fuel _ _ _ _ _ _ _ _) as [[r' evs']|] eqn:E; [|done].
      intros [= <- <-] destination msg Hin.
      apply elem_of_cons in Hin as [?|Hin]; [done|].
      apply elem_of_cons in Hin as [?|Hin]; [done|].
      by eapply IH.
    + intros [= <- <-] destination msg Hin.
      apply elem_of_cons in Hin as [?|Hin]; [done|].
      by apply list_elem_of_singleton in Hin.
  - intros [= <- <-] destination msg Hin. by apply not_elem_of_nil in Hin.
Qed.

Lemma notifyAgentOfStateArrival_sends_nothing
    fuel agent sender agentId stateHash r evs :
  notifyAgentOfStateArrival fuel agent sender agentId stateHash
  = Some (r, evs) ->
  forall destination msg, EvSend destination msg ∉ evs.
Proof.
  unfold notifyAgentOfStateArrival.
  destruct agent as [stateAgent|];
    [|intros [= <- <-] ? ? Hin; by apply not_elem_of_nil in Hin].
  destruct (stateAgent 0%nat).
  { intros [= <- <-] ? ? Hin. by apply list_elem_of_singleton in Hin. }
  destruct (retryLoop _ _ _ _ _ _ _ _ _) as [[[[v n]|e] evs']|] eqn:E;
    [| |done].
  - pose proof (retryLoop_sends_nothing _ _ _ _ _ _ _ _ _ _ _ E) as Hnone.
    destruct v; intros [= <- <-] ? ? Hin;
      (apply elem_of_cons in Hin as [?|Hin]; [done | by eapply Hnone]).
  - pose proof (retryLoop_sends_nothing _ _ _ _ _ _ _ _ _ _ _ E) as Hnone.
    intros [= <- <-] ? ? Hin.
    apply elem_of_cons in Hin as [?|Hin]; [done | by eapply Hnone].
Qed.

Lemma RemoteConsistent_setRemoteState st ep agentId stateObject :
  RemoteConsistent st ->
  RemoteConsistent (setRemoteState st ep agentId (hash stateObject) stateObject).
Proof.
  intros Hc ep' a'.
  rewrite getRemoteState_setRemoteState, getRemoteStateObject_setRemoteState.
  destruct (decide (ep = ep' /\ agentId = a')); [done | apply Hc].
Qed.

(** What [receiveStateObject] does once the agent has been asked. *)
Lemma receiveStateObject_notified
    (fuel : nat) (st : State) (agent : option StateSyncAgent)
    (sender : Endpoint) (agentId : AgentId) (state : Hash) old evs0 :
  (if stateHashIsInPreviousCache st agentId state
   then Some (true, [])
   else match notifyAgentOfStateArrival fuel agent sender agentId state with
        | None => None
        | Some (Normal isNew, evs) => Some (negb isNew, evs)
        | Some (Thrown _, evs) =>
            Some (false, evs ++ [EvWarning "Received erroneous state"])
        end) = Some (old, evs0) ->
  (forall destination msg, EvSend destination msg ∉ evs0) /\
  sentStateObjects evs0 = [].
Proof.
  destruct (stateHashIsInPreviousCache st agentId state).
  - intros [= <- <-]. split; [|done]. intros ? ?. apply not_elem_of_nil.
  - destruct (notifyAgentOfStateArrival _ _ _ _ _) as [[[isNew|e] evs1]|]
      eqn:En; [| |done].
    + intros [= <- <-]. split.
      * by eapply notifyAgentOfStateArrival_sends_nothing.
      * by eapply notifyAgentOfStateArrival_no_sends.
    + intros [= <- <-]. split.
      * intros ? ? Hin. apply elem_of_app in Hin as [Hin|Hin].
        -- by eapply notifyAgentOfStateArrival_sends_nothing.
        -- by apply list_elem_of_singleton in Hin.
      * rewrite sentStateObjects_app.
        by rewrite (notifyAgentOfStateArrival_no_sends _ _ _ _ _ _ _ En).
Qed.

(** X3.  Whatever the tracked agent does, [receiveStateObject] leaves the
    local state, the local state objects and the previous-states cache as
    they are; for an object that validates it records hash and object for
    the sender and keeps the remote records consistent, and an object that
    does not validate changes nothing; the only message it may send is one
    [send-state-object] with the local state object, to the sender. *)
Theorem receiveStateObject_records_and_answers_the_sender_only
    (fuel : nat) (st : State) (agent : option StateSyncAgent)
    (sender : Endpoint) (agentId : AgentId) (stateObj : HashedObject)
    (now : Z) (st' : State) (evs : list Event) :
  receiveStateObject fuel st agent sender agentId stateObj now
  = Some (st', evs) ->
  localState st' = localState st /\
  localStateObjects st' = localStateObjects st /\
  previousStatesCache st' = previousStatesCache st /\
  (validate stateObj = true ->
   getRemoteState st' sender agentId = Some (hash stateObj) /\
   getRemoteStateObject st' sender agentId = Some stateObj /\
   (RemoteConsistent st -> RemoteConsistent st')) /\
  (validate stateObj = false -> st' = st) /\
  (forall destination msg,
      EvSend destination msg ∈ evs ->
      destination = sender /\
      exists own, localStateObjects st !! agentId = Some own /\
                  msg = SendStateObject agentId (toLiteral own) now) /\
  (length (sentStateObjects evs) <= 1)%nat.
Proof.
  unfold receiveStateObject.
  destruct (validate stateObj) eqn:Hvalid.
  2:{ intros [= <- <-].
      split; [done|]. split; [done|]. split; [done|]. split; [done|].
      split; [done|]. split; [|cbn; lia].
      intros ? ? Hin. by apply list_elem_of_singleton in Hin. }
  set (st1 := setRemoteState st sender agentId (hash stateObj) stateObj).
  assert (Hst1 : getRemoteState st1 sender agentId = Some (hash stateObj) /\
                 getRemoteStateObject st1 sender agentId = Some stateObj /\
                 (RemoteConsistent st -> RemoteConsistent st1)).
  { subst st1. rewrite getRemoteState_setRemoteState,
      getRemoteStateObject_setRemoteState, !decide_True by done.
    split; [done|]. split; [done|]. apply RemoteConsistent_setRemoteState. }
  destruct (if stateHashIsInPreviousCache st1 agentId (hash stateObj)
            then _ else _) as [[old evs0]|] eqn:E; [|done].
  destruct (receiveStateObject_notified _ _ _ _ _ _ _ _ E) as [Hnone Hnone'].
  assert (Hsend : forall destination msg,
             EvSend destination msg ∈ sendStateObject st1 sender agentId now ->
             destination = sender /\
             exists own, localStateObjects st !! agentId = Some own /\
                         msg = SendStateObject agentId (toLiteral own) now).
  { intros destination msg Hin. unfold sendStateObject in Hin.
    change (localStateObjects st1) with (localStateObjects st) in Hin.
    destruct (localStateObjects st !! agentId) as [own|];
      apply list_elem_of_singleton in Hin; [|done].
    injection Hin as -> ->. eauto. }
  destruct (old && negb (bool_decide (localState st1 !! agentId
                                      = Some (hash stateObj)))).
  - intros [= <- <-].
    split; [done|]. split; [done|]. split; [done|]. split; [done|].
    split; [done|]. split.
    + intros destination msg Hin.
      apply elem_of_app in Hin as [Hin|Hin]; [by apply Hnone in Hin|].
      by apply Hsend.
    + rewrite sentStateObjects_app, Hnone'. unfold sendStateObject.
      destruct (localStateObjects st1 !! agentId); cbn; lia.
  - intros [= <- <-].
    split; [done|]. split; [done|]. split; [done|]. split; [done|].
    split; [done|]. split.
    + intros destination msg Hin. by apply Hnone in Hin.
    + rewrite Hnone'. cbn. lia.
Qed.

(** *** Full states *)

(** What [receiveFullState] does about one entry of a full state. *)
Inductive FullStateReaction :=
| RequestObject (agentId : AgentId)
| DeliverKnownObject (agentId : AgentId) (stateObj : HashedObject).

(** [receiveFullState].  [agents] tells which agents of the pod
    [getLocalStateAgent] finds; [remoteEntries] is
    [this.remoteState.entries()].  A known object is handed to
    [receiveStateObject], which is [async] and awaits the validation before
    it touches the agent's maps, so the loop reads one state throughout. *)
Definition receiveFullState (st : State) (agents : AgentId -> bool)
    (remoteEntries : list (Endpoint * gmap AgentId Hash))
    (state : list (AgentId * Hash)) : list FullStateReaction :=
  flat_map
    (fun entry : AgentId * Hash =>
       let '(agentId, hash) := entry in
       if decide (agentId ∈ trackedAgentIds st) then
         if agents agentId then
           if bool_decide (localState st !! agentId = Some hash) then []
           else if stateHashIsInPreviousCache st agentId hash then []
           else
             match lookupStateObject st remoteEntries agentId hash with
             | None => [RequestObject agentId]
             | Some stateObj => [DeliverKnownObject agentId stateObj]
             end
         else []
       else [])
    state.

(** [sendFullState]: the local hashes, as the entries of the Map. *)
Definition sendFullState (st : State) (ep : Endpoint) : list Event :=
  [EvSend ep (SendFullState (map_to_list (localState st)))].

(** [requestStateObject]. *)
Definition requestStateObject (peerEndpoint : Endpoint) (agentId : AgentId)
  : list Event :=
  [EvSend peerEndpoint (RequestStateObject agentId)].

Lemma receiveFullState_reaction
    (st : State) (agents : AgentId -> bool)
    (remoteEntries : list (Endpoint * gmap AgentId Hash))
    (state : list (AgentId * Hash)) (r : FullStateReaction) :
  r ∈ receiveFullState st agents remoteEntries state <->
  exists agentId hash,
    (agentId, hash) ∈ state /\
    (agentId ∈ trackedAgentIds st /\ agents agentId = true /\
     localState st !! agentId <> Some hash /\
     stateHashIsInPreviousCache st agentId hash = false) /\
    match lookupStateObject st remoteEntries agentId hash with
    | None => r = RequestObject agentId
    | Some stateObj => r = DeliverKnownObject agentId stateObj
    end.
Proof.
  unfold receiveFullState. rewrite list_elem_of_In, in_flat_map.
  assert (Hstep : forall agentId hash,
    r ∈ (if decide (agentId ∈ trackedAgentIds st) then
           if agents agentId then
             if bool_decide (localState st !! agentId = Some hash) then []
             else if stateHashIsInPreviousCache st agentId hash then []
             else
               match lookupStateObject st remoteEntries agentId hash with
               | None => [RequestObject agentId]
               | Some stateObj => [DeliverKnownObject agentId stateObj]
               end
           else []
         else []) <->
    (agentId ∈ trackedAgentIds st /\ agents agentId = true /\
     localState st !! agentId <> Some hash /\
     stateHashIsInPreviousCache st agentId hash = false) /\
    match lookupStateObject st remoteEntries agentId hash with
    | None => r = RequestObject agentId
    | Some stateObj => r = DeliverKnownObject agentId stateObj
    end).
  { intros agentId hash0.
    destruct (decide (agentId ∈ trackedAgentIds st)) as [Ht|Ht];
      [|split; [by intros ?%not_elem_of_nil | by intros [[? _] _]]].
    destruct (agents agentId);
      [|split; [by intros ?%not_elem_of_nil | by intros [(_ & ? & _) _]]].
    destruct (bool_decide (localState st !! agentId = Some hash0)) eqn:Hl.
    { apply bool_decide_eq_true in Hl.
      split; [by intros ?%not_elem_of_nil | by intros [(_ & _ & ? & _) _]]. }
    apply bool_decide_eq_false in Hl.
    destruct (stateHashIsInPreviousCache st agentId hash0);
      [split; [by intros ?%not_elem_of_nil | by intros [(_ & _ & _ & ?) _]]|].
    destruct (lookupStateObject st remoteEntries agentId hash0);
      rewrite list_elem_of_singleton;
      (split; [intros ->; repeat split; assumption || reflexivity
              | intros [_ ?]; assumption]). }
  split.
  - intros ([a h] & Hin & Hr). apply list_elem_of_In in Hin, Hr.
    apply Hstep in Hr. exists a, h. split; [done | exact Hr].
  - intros (a & h & Hin & Hr). exists (a, h).
    split; [by apply list_elem_of_In|]. apply list_elem_of_In, Hstep. done.
Qed.

(** X4.  [receiveFullState] reacts to an entry only if the agent is
    tracked and present, and the hash is neither the local one nor in the
    previous-states cache.  It then asks the sender for the object exactly
    when no endpoint is on record with that hash and an object, and
    otherwise delivers an object that is on record for that hash.  A full
    state that agrees with the local state is met with silence. *)
Theorem receiveFullState_asks_only_for_unknown_states
    (st : State) (agents : AgentId -> bool)
    (remoteEntries : list (Endpoint * gmap AgentId Hash))
    (state : list (AgentId * Hash)) :
  remoteEntries ≡ₚ map_to_list (remoteState st) ->
  let reactions := receiveFullState st agents remoteEntries state in
  let fresh agentId hash :=
    agentId ∈ trackedAgentIds st /\ agents agentId = true /\
    localState st !! agentId <> Some hash /\
    stateHashIsInPreviousCache st agentId hash = false in
  (forall agentId,
      RequestObject agentId ∈ reactions <->
      exists hash, (agentId, hash) ∈ state /\ fresh agentId hash /\
                   forall ep, getRemoteState st ep agentId = Some hash ->
                              getRemoteStateObject st ep agentId = None) /\
  (forall agentId stateObj,
      DeliverKnownObject agentId stateObj ∈ reactions ->
      exists hash ep, (agentId, hash) ∈ state /\ fresh agentId hash /\
                      getRemoteState st ep agentId = Some hash /\
                      getRemoteStateObject st ep agentId = Some stateObj) /\
  ((forall agentId hash, (agentId, hash) ∈ state ->
                         localState st !! agentId = Some hash) ->
   reactions = []).
Proof.
  intros Hperm reactions fresh.
  pose proof (fun a h => lookupStateObject_recorded st remoteEntries a h Hperm)
    as Hlookup.
  split; [|split].
  - intros agentId. subst reactions. rewrite receiveFullState_reaction. split.
    + intros (a & h & Hs & Hf & Hr).
      destruct (lookupStateObject st remoteEntries a h) eqn:El; [done|].
      injection Hr as <-. exists h. split; [done|]. split; [done|].
      by apply (Hlookup agentId h).
    + intros (h & Hs & Hf & Hnone). exists agentId, h.
      split; [done|]. split; [done|].
      apply (Hlookup agentId h) in Hnone. by rewrite Hnone.
  - intros agentId stateObj. subst reactions.
    rewrite receiveFullState_reaction. intros (a & h & Hs & Hf & Hr).
    destruct (lookupStateObject st remoteEntries a h) as [obj|] eqn:El;
      [|done].
    injection Hr as <- <-.
    destruct (proj1 (Hlookup agentId h) stateObj El) as (ep & ? & ?).
    exists h, ep. done.
  - intros Hsame. destruct reactions as [|r rs] eqn:Er; [done|]. exfalso.
    assert (Hr : r ∈ receiveFullState st agents remoteEntries state)
      by (subst reactions; rewrite Er; left).
    apply receiveFullState_reaction in Hr
      as (a & h & Hs & (_ & _ & Hne & _) & _).
    by apply Hne, Hsame.
Qed.

(** *** Invariants of the agent's records *)

(** The local hash on record for an agent is the hash of the local state
    object on record for it. *)
Definition LocalCoherent (st : State) : Prop :=
  forall agentId,
    hash <$> localStateObjects st !! agentId = localState st !! agentId.

(** Local state and cached previous states are kept for tracked agents
    only. *)
Definition OnlyTracked (st : State) : Prop :=
  forall agentId,
    is_Some (localState st !! agentId) \/
    is_Some (previousStatesCache st !! agentId) ->
    agentId ∈ trackedAgentIds st.

Definition Coherent (st : State) : Prop :=
  LocalCoherent st /\ RemoteConsistent st /\ OnlyTracked st /\
  (forall agentId l, previousStatesCache st !! agentId = Some l ->
                     boundedDeque l).

Lemma receiveStateObject_state
    fuel st agent sender agentId stateObj now st' evs :
  receiveStateObject fuel st agent sender agentId stateObj now
  = Some (st', evs) ->
  st' = st \/
  st' = setRemoteState st sender agentId (hash stateObj) stateObj.
Proof.
  unfold receiveStateObject.
  destruct (validate stateObj); [|intros [= <- <-]; by left].
  destruct (if stateHashIsInPreviousCache _ agentId (hash stateObj)
            then _ else _) as [[old evs0]|]; [|done].
  destruct (old && _); intros [= <- <-]; by right.
Qed.

Lemma Coherent_initialState : Coherent initialState.
Proof.
  split; [|split; [|split]].
  - intros a. cbn. by rewrite !lookup_empty.
  - intros ep a. unfold getRemoteStateObject, getRemoteState. cbn.
    by rewrite !lookup_empty.
  - intros a. cbn. rewrite !lookup_empty. intros [[? ?]|[? ?]]; done.
  - intros a l. cbn. by rewrite lookup_empty.
Qed.

Lemma Coherent_trackAgentState st agentId :
  Coherent st -> Coherent (trackAgentState st agentId).
Proof.
  intros (Hl & Hr & Ht & Hb). split; [|split; [|split]]; try done.
  intros a Ha. cbn [trackAgentState trackedAgentIds].
  apply elem_of_union_r. by apply Ht.
Qed.

Lemma Coherent_clearAgentState st agentId :
  Coherent st -> Coherent (clearAgentState st agentId).
Proof.
  intros (Hl & Hr & Ht & Hb). split; [|split; [|split]]; try done.
  - intros a. cbn [clearAgentState localState localStateObjects].
    destruct (decide (agentId = a)) as [->|Hne].
    + by rewrite !lookup_delete_eq.
    + rewrite !lookup_delete_ne by done. apply Hl.
  - intros a. cbn [clearAgentState localState previousStatesCache
                   trackedAgentIds].
    destruct (decide (agentId = a)) as [->|Hne].
    + rewrite !lookup_delete_eq. intros [[? ?]|[? ?]]; done.
    + rewrite !lookup_delete_ne by done. apply Ht.
  - intros a l. cbn [clearAgentState previousStatesCache].
    destruct (decide (agentId = a)) as [->|Hne].
    + by rewrite lookup_delete_eq.
    + rewrite lookup_delete_ne by done. apply Hb.
Qed.

Lemma Coherent_untrackAgentState st agentId :
  Coherent st -> Coherent (untrackAgentState st agentId).
Proof.
  intros (Hl & Hr & Ht & Hb). split; [|split; [|split]]; try done.
  - intros a. cbn [untrackAgentState localState localStateObjects].
    destruct (decide (agentId = a)) as [->|Hne].
    + by rewrite !lookup_delete_eq.
    + rewrite !lookup_delete_ne by done. apply Hl.
  - intros a. cbn [untrackAgentState localState previousStatesCache
                   trackedAgentIds].
    destruct (decide (agentId = a)) as [->|Hne].
    + rewrite !lookup_delete_eq. intros [[? ?]|[? ?]]; done.
    + rewrite !lookup_delete_ne by done. intros Ha.
      apply elem_of_difference. split; [by apply Ht|].
      by intros ->%elem_of_singleton.
  - intros a l. cbn [untrackAgentState previousStatesCache].
    destruct (decide (agentId = a)) as [->|Hne].
    + by rewrite lookup_delete_eq.
    + rewrite lookup_delete_ne by done. apply Hb.
Qed.

Lemma Coherent_clearPeerState st ep :
  Coherent st -> Coherent (clearPeerState st ep).
Proof.
  intros (Hl & Hr & Ht & Hb). split; [|split; [|split]]; try done.
  intros ep' a. specialize (Hr ep' a).
  unfold getRemoteStateObject, getRemoteState in *.
  cbn [clearPeerState remoteState remoteStateObjects].
  destruct (decide (ep = ep')) as [->|Hne].
  - by rewrite !lookup_delete_eq.
  - by rewrite !lookup_delete_ne by done.
Qed.

Lemma Coherent_localAgentStateUpdate st agentId state now :
  1 <= maxCachedPrevStates params ->
  Coherent st -> Coherent (localAgentStateUpdate st agentId state now).1.
Proof.
  intros Hmax (Hl & Hr & Ht & Hb). unfold localAgentStateUpdate.
  destruct (decide (agentId ∈ trackedAgentIds st)) as [Htracked|];
    [|done].
  cbn [fst].
  set (cache := match localState st !! agentId with
                | Some currentState =>
                    if decide (hash state = currentState)
                    then previousStatesCache st
                    else cachePreviousStateHash (previousStatesCache st)
                                                agentId currentState
                | None => previousStatesCache st
                end).
  assert (Hcache : forall a, a <> agentId ->
                             cache !! a = previousStatesCache st !! a).
  { intros a Hne. subst cache.
    destruct (localState st !! agentId) as [cur|]; [|done].
    destruct (decide (hash state = cur)); [done|].
    by apply cachePreviousStateHash_lookup_ne. }
  assert (Hbounded : forall a l, cache !! a = Some l -> boundedDeque l).
  { subst cache. destruct (localState st !! agentId) as [cur|]; [|done].
    destruct (decide (hash state = cur)); [done|].
    by apply cachePreviousStateHash_invariant. }
  split; [|split; [|split]]; try done.
  - intros a. cbn [localState localStateObjects].
    destruct (decide (agentId = a)) as [->|Hne].
    + by rewrite !lookup_insert_eq.
    + rewrite !lookup_insert_ne by done. apply Hl.
  - intros a. cbn [localState previousStatesCache trackedAgentIds].
    destruct (decide (agentId = a)) as [<-|Hne]; [done|].
    rewrite lookup_insert_ne by done. rewrite Hcache by done. apply Ht.
Qed.

Lemma Coherent_receiveStateObject
    fuel st agent sender agentId stateObj now st' evs :
  receiveStateObject fuel st agent sender agentId stateObj now
  = Some (st', evs) ->
  Coherent st -> Coherent st'.
Proof.
  intros [->| ->]%receiveStateObject_state; [done|].
  intros (Hl & Hr & Ht & Hb). split; [|split; [|split]]; try done.
  by apply RemoteConsistent_setRemoteState.
Qed.

(** X5.  The agent's records stay coherent through every operation: a
    local hash is the hash of the local state object on record, a remote
    hash is the hash of the remote state object on record, local state and
    cached previous states exist for tracked agents only, and every cached
    array is duplicate-free and no longer than [maxCachedPrevStates]. *)
Theorem gossip_records_stay_coherent :
  1 <= maxCachedPrevStates params ->
  Coherent initialState /\
  forall st, Coherent st ->
    (forall agentId, Coherent (trackAgentState st agentId)) /\
    (forall agentId, Coherent (untrackAgentState st agentId)) /\
    (forall agentId, Coherent (clearAgentState st agentId)) /\
    (forall ep, Coherent (clearPeerState st ep)) /\
    (forall agentId state now,
        Coherent (localAgentStateUpdate st agentId state now).1) /\
    (forall fuel agent sender agentId stateObj now st' evs,
        receiveStateObject fuel st agent sender agentId stateObj now
        = Some (st', evs) ->
        Coherent st').
Proof.
  intros Hmax. split; [apply Coherent_initialState|]. intros st Hc.
  split; [intros; by apply Coherent_trackAgentState|].
  split; [intros; by apply Coherent_untrackAgentState|].
  split; [intros; by apply Coherent_clearAgentState|].
  split; [intros; by apply Coherent_clearPeerState|].
  split; [intros; by apply Coherent_localAgentStateUpdate|].
  intros. by eapply Coherent_receiveStateObject.
Qed.

(** X6.  Once the local state of a tracked agent has moved on, a peer that
    still sends the state just left is answered with the current local
    state object, and the agent itself is not asked: the hash is found in
    the previous-states cache. *)
Theorem state_just_left_is_answered_from_the_cache
    (fuel : nat) (st : State) (agent : option StateSyncAgent)
    (sender : Endpoint) (agentId : AgentId)
    (newState stateObj : HashedObject) (now now' : Z) :
  1 <= maxCachedPrevStates params ->
  agentId ∈ trackedAgentIds st ->
  localState st !! agentId = Some (hash stateObj) ->
  hash newState <> hash stateObj ->
  validate stateObj = true ->
  let st1 := (localAgentStateUpdate st agentId newState now).1 in
  receiveStateObject fuel st1 agent sender agentId stateObj now'
  = Some (setRemoteState st1 sender agentId (hash stateObj) stateObj,
          [EvSend sender
                  (SendStateObject agentId (toLiteral newState) now')]).
Proof.
  intros Hmax Htracked Hlocal Hne Hvalid st1. subst st1.
  unfold localAgentStateUpdate. rewrite decide_True by done.
  rewrite Hlocal, decide_False by done. cbn [fst].
  unfold receiveStateObject. rewrite Hvalid.
  unfold stateHashIsInPreviousCache.
  cbn [setRemoteState previousStatesCache localState localStateObjects].
  rewrite cachePreviousStateHash_lookup by done.
  cbn [JSArray.indexOf]. rewrite decide_True by done.
  cbn [Z.leb Z.compare andb]. rewrite lookup_insert_eq.
  rewrite bool_decide_eq_false_2 by (intros [= ?]; done).
  cbn [negb andb app]. unfold sendStateObject.
  cbn [localStateObjects setRemoteState]. by rewrite lookup_insert_eq.
Qed.

(** X7.  [untrackAgentState] forgets the agent: its later state updates
    change nothing and send nothing, no state object of it can be sent, no
    hash is found in its cache, and a full state received afterwards
    raises no request and no delivery for it; what is on record for the
    other agents stays. *)
Theorem untracked_agent_is_forgotten (st : State) (agentId : AgentId) :
  let st' := untrackAgentState st agentId in
  (forall state now, localAgentStateUpdate st' agentId state now = (st', [])) /\
  (forall ep now, sentStateObjects (sendStateObject st' ep agentId now) = []) /\
  (forall state, stateHashIsInPreviousCache st' agentId state = false) /\
  (forall agents remoteEntries state r,
      r ∈ receiveFullState st' agents remoteEntries state ->
      r <> RequestObject agentId /\
      forall stateObj, r <> DeliverKnownObject agentId stateObj) /\
  (forall other, other <> agentId ->
      (other ∈ trackedAgentIds st' <-> other ∈ trackedAgentIds st) /\
      localState st' !! other = localState st !! other /\
      localStateObjects st' !! other = localStateObjects st !! other /\
      previousStatesCache st' !! other = previousStatesCache st !! other).
Proof.
  intros st'.
  assert (Hnot : agentId ∉ trackedAgentIds st').
  { subst st'. cbn [untrackAgentState trackedAgentIds].
    intros [_ Hn]%elem_of_difference. apply Hn. by apply elem_of_singleton. }
  split; [|split; [|split; [|split]]].
  - intros state now. unfold localAgentStateUpdate.
    by rewrite decide_False.
  - intros ep now. unfold sendStateObject. subst st'.
    cbn [untrackAgentState localStateObjects]. by rewrite lookup_delete_eq.
  - intros state. unfold stateHashIsInPreviousCache. subst st'.
    cbn [untrackAgentState previousStatesCache]. by rewrite lookup_delete_eq.
  - intros agents remoteEntries state r Hr.
    apply receiveFullState_reaction in Hr as (a & h & _ & (Ha & _) & Hr).
    assert (a <> agentId) by (intros ->; done).
    destruct (lookupStateObject st' remoteEntries a h); subst r.
    + split; [done|]. intros o [= ? _]. done.
    + split; [|done]. intros [= ?]. done.
  - intros other Hne. subst st'.
    cbn [untrackAgentState trackedAgentIds localState localStateObjects
         previousStatesCache].
    rewrite !lookup_delete_ne by done. split; [|done].
    rewrite elem_of_difference, elem_of_singleton.
    split; [by intros [? _] | by intros ?].
Qed.

Lemma List_filter_sublist_ep (f : Endpoint -> bool) (l : list Endpoint) :
  List.filter f l `sublist_of` l.
Proof.
  induction l as [|x l IH]; [done|]. cbn [List.filter].
  destruct (f x); [by apply sublist_skip | by apply sublist_cons].
Qed.

Lemma length_filter_NoDup_ne (l : list Endpoint) (x : Endpoint) :
  NoDup l ->
  length (List.filter (fun y => negb (bool_decide (x = y))) l)
  = (length l - (if decide (x ∈ l) then 1 else 0))%nat.
Proof.
  induction 1 as [|y l Hnin Hnd IH]; [done|].
  cbn [List.filter length].
  destruct (decide (x = y)) as [<-|Hne].
  - rewrite bool_decide_eq_true_2 by done. cbn [negb].
    rewrite decide_True by left.
    rewrite IH, decide_False by done. lia.
  - rewrite bool_decide_eq_false_2 by done. cbn [negb length]. rewrite IH.
    destruct (decide (x ∈ l)) as [Hin|Hnin'].
    + rewrite decide_True by (by right).
      destruct l; [by apply not_elem_of_nil in Hin | cbn; lia].
    + rewrite decide_False; [lia|].
      intros [?|?]%elem_of_cons; done.
Qed.

Lemma gossipNewState_sent st agentId sender now own :
  localStateObjects st !! agentId = Some own ->
  sentStateObjects (gossipNewState st agentId (Some sender) now)
  = (fun ep => (ep, toLiteral own))
      <$> List.filter (fun ep => negb (bool_decide (sender = ep)))
            (endpoint <$>
               take (Z.to_nat
                       (gossipCount (Z.of_nat (length (getPeers peerControl)))))
                    (shuffle (getPeers peerControl))).
Proof.
  intros Hown. unfold gossipNewState.
  induction (take _ (shuffle (getPeers peerControl))) as [|p ps IH];
    [done|].
  cbn [flat_map fmap list_fmap List.filter].
  rewrite sentStateObjects_app, IH.
  destruct (decide (Some sender = Some (endpoint p))) as [[= Heq]|Hne].
  - by rewrite bool_decide_eq_true_2.
  - rewrite bool_decide_eq_false_2 by (intros ->; done). cbn [negb].
    by rewrite (sentStateObjects_sendStateObject _ _ _ _ own).
Qed.

(** X8.  Told who a state came from, [gossipNewState] never sends it back
    there: the state object goes to the chosen peers other than the
    sender, each addressed once, which is the gossip budget less one when
    the sender is among the chosen peers and the full budget otherwise. *)
Theorem gossipNewState_never_addresses_the_sender
    (st : State) (agentId : AgentId) (sender : Endpoint) (now : Z)
    (own : HashedObject) :
  (forall l, shuffle l ≡ₚ l) ->
  NoDup (endpoint <$> getPeers peerControl) ->
  0 <= minGossipPeers params ->
  localStateObjects st !! agentId = Some own ->
  let peerCount := Z.of_nat (length (getPeers peerControl)) in
  let budget :=
    Z.min peerCount
      (Z.max (minGossipPeers params)
         (JSNumber.ceil (JSNumber.mul (inject_Z (maxPeers peerControl))
                                      (peerGossipFraction params)))) in
  let chosen :=
    endpoint <$> take (Z.to_nat budget) (shuffle (getPeers peerControl)) in
  let sent := sentStateObjects (gossipNewState st agentId (Some sender) now) in
  (sender ∉ sent.*1) /\
  NoDup sent.*1 /\
  (forall ep, ep ∈ sent.*1 <-> ep ∈ chosen /\ ep <> sender) /\
  Forall (fun m => m.2 = toLiteral own) sent /\
  Z.of_nat (length sent)
  = budget - (if decide (sender ∈ chosen) then 1 else 0).
Proof.
  intros Hperm Hnd Hmin Hown peerCount budget chosen sent.
  assert (Hbudget : gossipCount peerCount = budget)
    by apply gossipCount_formula.
  assert (Hchosen : NoDup chosen).
  { subst chosen. rewrite fmap_take.
    eapply sublist_NoDup; [|apply sublist_take]. by rewrite (Hperm _). }
  assert (Hlen : Z.of_nat (length chosen) = budget).
  { subst chosen. rewrite length_fmap, length_take,
      (Permutation_length (Hperm _)).
    fold peerCount. subst budget peerCount. lia. }
  assert (Hsent : sent = (fun ep => (ep, toLiteral own))
                           <$> List.filter
                                 (fun ep => negb (bool_decide (sender = ep)))
                                 chosen).
  { subst sent chosen. rewrite (gossipNewState_sent _ _ _ _ own) by done.
    fold peerCount. by rewrite Hbudget. }
  assert (Hdests : sent.*1
                   = List.filter (fun ep => negb (bool_decide (sender = ep)))
                                 chosen).
  { rewrite Hsent, <- list_fmap_compose. apply list_fmap_id. }
  assert (Hin : forall ep, ep ∈ sent.*1 <-> ep ∈ chosen /\ ep <> sender).
  { intros ep. rewrite Hdests, list_elem_of_In, filter_In,
      <- list_elem_of_In, negb_true_iff, bool_decide_eq_false.
    split; intros [? ?]; split; congruence. }
  split; [|split; [|split; [|split]]].
  - intros [_ ?]%Hin. done.
  - rewrite Hdests. eapply sublist_NoDup; [exact Hchosen|].
    apply List_filter_sublist_ep.
  - exact Hin.
  - rewrite Hsent. apply Forall_fmap, Forall_forall. by intros ep _.
  - rewrite <- (length_fmap fst), Hdests, length_filter_NoDup_ne by done.
    destruct (decide (sender ∈ chosen)) as [Hs|]; [|lia].
    destruct chosen; [by apply not_elem_of_nil in Hs | cbn in *; lia].
Qed.

(** X9.  Every state object asked for in reaction to a peer's full state
    is one that peer can send: with coherent records at the peer, its
    answer to the request is one [send-state-object] message whose object
    hashes to the hash it announced, and that hash differs from the local
    one of the asking side. *)
Theorem requested_state_objects_can_be_sent
    (stA stB : State) (epB : Endpoint) (agents : AgentId -> bool)
    (remoteEntries : list (Endpoint * gmap AgentId Hash))
    (entries : list (AgentId * Hash)) (agentId : AgentId) (now : Z) :
  LocalCoherent stA ->
  sendFullState stA epB = [EvSend epB (SendFullState entries)] ->
  RequestObject agentId ∈ receiveFullState stB agents remoteEntries entries ->
  exists own,
    localState stA !! agentId = Some (hash own) /\
    localState stB !! agentId <> Some (hash own) /\
    sendStateObject stA epB agentId now
    = [EvSend epB (SendStateObject agentId (toLiteral own) now)].
Proof.
  intros Hcoh [= <-] Hreq.
  apply receiveFullState_reaction in Hreq
    as (a & h & Hin & (_ & _ & Hne & _) & Hr).
  destruct (lookupStateObject stB remoteEntries a h); [done|].
  injection Hr as <-.
  apply elem_of_map_to_list in Hin. specialize (Hcoh agentId).
  rewrite Hin in Hcoh.
  destruct (localStateObjects stA !! agentId) as [own|] eqn:Hown; [|done].
  injection Hcoh as <-. exists own. split; [done|]. split; [done|].
  unfold sendStateObject. by rewrite Hown.
Qed.

End Agent.

(** *** Concrete runs

    State objects are strings that serve as their own literal and hash;
    the shuffle reverses the peer list. *)

Definition tenPeers : list Peer :=
  (fun e => {| endpoint := e; identityHash := e |})
    <$> ["p0"; "p1"; "p2"; "p3"; "p4"; "p5"; "p6"; "p7"; "p8"; "p9"].

Definition tenPeerGroup : PeerControl :=
  {| getPeers := tenPeers; maxPeers := 10 |}.

Definition trackingOne : State string :=
  trackAgentState string (initialState string) "agent".

(** An agent whose [receiveRemoteState] throws twice and would then
    accept the state. *)
Definition throwsTwice : StateSyncAgent :=
  fun attempt =>
    match attempt with
    | 0%nat | 1%nat => Throws
    | _ => Returns true
    end.

(** An agent that knows the state already. *)
Definition knowsState : StateSyncAgent := fun _ => Returns false.

Definition afterFirstUpdate : State string :=
  (localAgentStateUpdate string string id id reverse defaultParams
                         tenPeerGroup trackingOne "agent" "s1" 0).1.

Lemma previous_states_cache_bounded_deque_witness :
  1 <= maxCachedPrevStates defaultParams /\
  ((forall l,
      cacheAfter defaultParams [("a", "h1"); ("a", "h2")] !! "a" = Some l ->
      Z.of_nat (length l) <= maxCachedPrevStates defaultParams /\ NoDup l) /\
   (forall state, exists rest,
      cacheAfter defaultParams ([("a", "h1"); ("a", "h2")] ++ [("a", state)])
        !! "a" = Some (state :: rest)) /\
   (forall state old,
      cacheAfter defaultParams [("a", "h1"); ("a", "h2")] !! "a" = Some old ->
      state ∈ old ->
      exists l1 l2, old = l1 ++ state :: l2 /\
        cacheAfter defaultParams
                   ([("a", "h1"); ("a", "h2")] ++ [("a", state)]) !! "a"
        = Some (state :: l1 ++ l2))).
Proof.
  split; [simpl; lia|].
  apply (previous_states_cache_bounded_deque
           defaultParams [("a", "h1"); ("a", "h2")] "a").
  simpl; lia.
Defined.

Example cache_moves_to_front :
  cacheAfter defaultParams [("a", "h1"); ("a", "h2"); ("a", "h1")] !! "a"
  = Some ["h1"; "h2"].
Proof. vm_compute. reflexivity. Qed.

Lemma gossip_budget_witness :
  (forall l : list Peer, reverse l ≡ₚ l) /\
  "agent" ∈ trackedAgentIds string trackingOne /\
  NoDup (endpoint <$> getPeers tenPeerGroup) /\
  0 <= minGossipPeers defaultParams /\
  length (sentStateObjects string
            (localAgentStateUpdate string string id id reverse defaultParams
               tenPeerGroup trackingOne "agent" "s1" 0).2) = 4%nat.
Proof.
  assert (Hperm : forall l : list Peer, reverse l ≡ₚ l)
    by (intros l; apply reverse_Permutation).
  assert (Htracked : "agent" ∈ trackedAgentIds string trackingOne)
    by (cbn [trackingOne trackAgentState trackedAgentIds];
        apply elem_of_union_l, elem_of_singleton; reflexivity).
  assert (Hnd : NoDup (endpoint <$> getPeers tenPeerGroup))
    by (apply (bool_decide_unpack (NoDup _)); vm_compute; exact I).
  assert (Hmin : 0 <= minGossipPeers defaultParams) by (simpl; lia).
  repeat (split; [assumption|]).
  apply (gossip_budget string string id id reverse defaultParams tenPeerGroup
           trackingOne "agent" "s1" 0 Hperm Htracked Hnd Hmin);
    reflexivity.
Defined.

Example gossip_reaches_last_four_of_reversed_list :
  (sentStateObjects string
     (localAgentStateUpdate string string id id reverse defaultParams
        tenPeerGroup trackingOne "agent" "s1" 0).2).*1
  = ["p9"; "p8"; "p7"; "p6"].
Proof. vm_compute. reflexivity. Qed.

Lemma stale_state_is_answered_with_local_state_witness :
  (2 <= 2)%nat /\
  (fun _ : string => true) "s0" = true /\
  (stateHashIsInPreviousCache string afterFirstUpdate "agent" (id "s0") = true \/
   exists stateAgent,
     Some knowsState = Some stateAgent /\
     (stateAgent 0%nat = Returns false \/
      (stateAgent 0%nat = Throws /\ 0 < newStateErrorRetries defaultParams /\
       stateAgent 1%nat = Returns false))) /\
  exists st' evs,
    receiveStateObject string string id (fun _ => true) id defaultParams 2
                       afterFirstUpdate (Some knowsState) "p3" "agent" "s0" 7
    = Some (st', evs) /\
    (localState string afterFirstUpdate !! "agent" <> Some (id "s0") ->
     forall own, localStateObjects string afterFirstUpdate !! "agent" = Some own ->
                 sentStateObjects string evs = [("p3", id own)]) /\
    (localState string afterFirstUpdate !! "agent" = Some (id "s0") ->
     sentStateObjects string evs = []).
Proof.
  assert (Hold : stateHashIsInPreviousCache string afterFirstUpdate "agent"
                                            (id "s0") = true \/
                 exists stateAgent,
                   Some knowsState = Some stateAgent /\
                   (stateAgent 0%nat = Returns false \/
                    (stateAgent 0%nat = Throws /\
                     0 < newStateErrorRetries defaultParams /\
                     stateAgent 1%nat = Returns false)))
    by (right; exists knowsState; split; [reflexivity | left; reflexivity]).
  split; [lia|]. split; [reflexivity|]. split; [exact Hold|].
  exact (stale_state_is_answered_with_local_state
           string string id (fun _ => true) id defaultParams 2
           afterFirstUpdate (Some knowsState) "p3" "agent" "s0" 7
           (le_n 2) eq_refl Hold).
Defined.

Example stale_state_reply_run :
  snd <$> receiveStateObject string string id (fun _ => true) id defaultParams
            2 afterFirstUpdate (Some knowsState) "p3" "agent" "s0" 7
  = Some [EvReceiveRemoteState string "agent" "p3" "s0" 0;
          EvSend string "p3" (SendStateObject string "agent" "s1" 7)].
Proof. vm_compute. reflexivity. Qed.

(** C4.  With the default parameters ([newStateErrorRetries = 3]) and a
    tracked agent whose [receiveRemoteState] throws on the first two calls
    and would succeed on the third, the delivery makes one retry only: the
    second throw leaves [notifyAgentOfStateArrival], the warning is logged
    and the state is dropped with two retries still unused. *)
Theorem retry_loop_stops_at_first_failed_retry :
  newStateErrorRetries defaultParams = 3 /\
  throwsTwice 2%nat = Returns true /\
  notifyAgentOfStateArrival string defaultParams 2 (Some throwsTwice)
                            "p3" "agent" "s2"
  = Some (Thrown "receiveRemoteState",
          [EvReceiveRemoteState string "agent" "p3" "s2" 0;
           EvDelay string 1500;
           EvReceiveRemoteState string "agent" "p3" "s2" 1]) /\
  snd <$> receiveStateObject string string id (fun _ => true) id defaultParams
            2 afterFirstUpdate (Some throwsTwice) "p3" "agent" "s2" 7
  = Some [EvReceiveRemoteState string "agent" "p3" "s2" 0;
          EvDelay string 1500;
          EvReceiveRemoteState string "agent" "p3" "s2" 1;
          EvWarning string "Received erroneous state"].
Proof.
  split; [reflexivity|]. split; [reflexivity|]. split.
  - apply notifyAgentOfStateArrival_retry_throws;
      [lia | simpl; lia | reflexivity | reflexivity].
  - vm_compute. reflexivity.
Qed.

(** *** More concrete runs *)

(** The state of the run above once "p3" has sent the state "s2". *)
Definition heardFromP3 : State string :=
  setRemoteState string afterFirstUpdate "p3" "agent" "s2" "s2".

Lemma lookupStateObject_finds_a_recorded_object_witness :
  [("p3", {["agent" := "s2"]})] ≡ₚ map_to_list (remoteState string heardFromP3)
  /\
  (lookupStateObject string heardFromP3 [("p3", {["agent" := "s2"]})]
                     "agent" "s9" = None <->
   forall ep, getRemoteState string heardFromP3 ep "agent" = Some "s9" ->
              getRemoteStateObject string heardFromP3 ep "agent" = None).
Proof.
  assert (Hperm : [("p3", ({["agent" := "s2"]} : gmap string string))]
                  ≡ₚ map_to_list (remoteState string heardFromP3)).
  { replace (map_to_list (remoteState string heardFromP3))
      with [("p3", ({["agent" := "s2"]} : gmap string string))]
      by (vm_compute; reflexivity).
    reflexivity. }
  split; [exact Hperm|].
  exact (proj2 (lookupStateObject_finds_a_recorded_object
                  string id heardFromP3 _ "agent" "s9" Hperm)).
Defined.

Lemma receiveStateObject_records_and_answers_the_sender_only_witness :
  receiveStateObject string string id (fun _ => true) id defaultParams 2
                     afterFirstUpdate (Some knowsState) "p3" "agent" "s0" 7
  = Some (setRemoteState string afterFirstUpdate "p3" "agent" "s0" "s0",
          [EvReceiveRemoteState string "agent" "p3" "s0" 0;
           EvSend string "p3" (SendStateObject string "agent" "s1" 7)]) /\
  (forall destination msg,
      EvSend string destination msg
        ∈ [EvReceiveRemoteState string "agent" "p3" "s0" 0;
           EvSend string "p3" (SendStateObject string "agent" "s1" 7)] ->
      destination = "p3" /\
      exists own, localStateObjects string afterFirstUpdate !! "agent"
                  = Some own /\
                  msg = SendStateObject string "agent" (id own) 7).
Proof.
  assert (Hrun :
    receiveStateObject string string id (fun _ => true) id defaultParams 2
                       afterFirstUpdate (Some knowsState) "p3" "agent" "s0" 7
    = Some (setRemoteState string afterFirstUpdate "p3" "agent" "s0" "s0",
            [EvReceiveRemoteState string "agent" "p3" "s0" 0;
             EvSend string "p3" (SendStateObject string "agent" "s1" 7)]))
    by (vm_compute; reflexivity).
  split; [exact Hrun|].
  pose proof (receiveStateObject_records_and_answers_the_sender_only
                string string id (fun _ => true) id defaultParams 2
                afterFirstUpdate (Some knowsState) "p3" "agent" "s0" 7
                _ _ Hrun) as H.
  exact (proj1 (proj2 (proj2 (proj2 (proj2 (proj2 H)))))).
Defined.

Lemma receiveFullState_asks_only_for_unknown_states_witness :
  [("p3", {["agent" := "s2"]})] ≡ₚ map_to_list (remoteState string heardFromP3)
  /\
  ((forall agentId hash,
       (agentId, hash) ∈ [("agent", "s1")] ->
       localState string heardFromP3 !! agentId = Some hash) ->
   receiveFullState string heardFromP3 (fun _ => true)
                    [("p3", {["agent" := "s2"]})] [("agent", "s1")] = []).
Proof.
  assert (Hperm : [("p3", ({["agent" := "s2"]} : gmap string string))]
                  ≡ₚ map_to_list (remoteState string heardFromP3)).
  { replace (map_to_list (remoteState string heardFromP3))
      with [("p3", ({["agent" := "s2"]} : gmap string string))]
      by (vm_compute; reflexivity).
    reflexivity. }
  split; [exact Hperm|].
  pose proof (receiveFullState_asks_only_for_unknown_states
                string heardFromP3 (fun _ => true) _ [("agent", "s1")] Hperm)
    as H.
  cbv zeta in H. exact (proj2 (proj2 H)).
Defined.

Example full_state_run :
  receiveFullState string heardFromP3 (fun _ => true)
                   [("p3", {["agent" := "s2"]})]
                   [("agent", "s1"); ("agent", "s2"); ("agent", "s9");
                    ("other", "s9")]
  = [DeliverKnownObject string "agent" "s2"; RequestObject string "agent"].
Proof. vm_compute. reflexivity. Qed.

Lemma gossip_records_stay_coherent_witness :
  1 <= maxCachedPrevStates defaultParams /\
  Coherent string id defaultParams afterFirstUpdate.
Proof.
  assert (Hmax : 1 <= maxCachedPrevStates defaultParams) by (simpl; lia).
  split; [exact Hmax|].
  destruct (gossip_records_stay_coherent string string id (fun _ => true) id
              reverse defaultParams tenPeerGroup Hmax) as [Hinit Hstep].
  destruct (Hstep _ Hinit) as (Htrack & _).
  destruct (Hstep _ (Htrack "agent")) as (_ & _ & _ & _ & Hupdate & _).
  exact (Hupdate "agent" "s1" 0).
Defined.

Lemma afterFirstUpdate_tracked :
  "agent" ∈ trackedAgentIds string afterFirstUpdate.
Proof.
  change (trackedAgentIds string afterFirstUpdate)
    with (trackedAgentIds string trackingOne).
  cbn [trackingOne trackAgentState trackedAgentIds].
  apply elem_of_union_l, elem_of_singleton. reflexivity.
Qed.

Lemma state_just_left_is_answered_from_the_cache_witness :
  1 <= maxCachedPrevStates defaultParams /\
  "agent" ∈ trackedAgentIds string afterFirstUpdate /\
  localState string afterFirstUpdate !! "agent" = Some (id "s1") /\
  id "s2" <> id "s1" /\
  (fun _ : string => true) "s1" = true /\
  receiveStateObject string string id (fun _ => true) id defaultParams 0
    (localAgentStateUpdate string string id id reverse defaultParams
                           tenPeerGroup afterFirstUpdate "agent" "s2" 5).1
    None "p3" "agent" "s1" 9
  = Some (setRemoteState string
            (localAgentStateUpdate string string id id reverse defaultParams
                                   tenPeerGroup afterFirstUpdate "agent" "s2"
                                   5).1
            "p3" "agent" (id "s1") "s1",
          [EvSend string "p3" (SendStateObject string "agent" (id "s2") 9)]).
Proof.
  assert (Hmax : 1 <= maxCachedPrevStates defaultParams) by (simpl; lia).
  assert (Hlocal : localState string afterFirstUpdate !! "agent"
                   = Some (id "s1")) by (vm_compute; reflexivity).
  assert (Hne : id "s2" <> id "s1") by discriminate.
  split; [exact Hmax|]. split; [exact afterFirstUpdate_tracked|].
  split; [exact Hlocal|]. split; [exact Hne|]. split; [reflexivity|].
  exact (state_just_left_is_answered_from_the_cache
           string string id (fun _ => true) id reverse defaultParams
           tenPeerGroup 0 afterFirstUpdate None "p3" "agent" "s2" "s1" 5 9
           Hmax afterFirstUpdate_tracked Hlocal Hne eq_refl).
Defined.

Lemma gossipNewState_never_addresses_the_sender_witness :
  (forall l : list Peer, reverse l ≡ₚ l) /\
  NoDup (endpoint <$> getPeers tenPeerGroup) /\
  0 <= minGossipPeers defaultParams /\
  localStateObjects string afterFirstUpdate !! "agent" = Some "s1" /\
  ("p8" ∉ (sentStateObjects string
             (gossipNewState string string id reverse defaultParams
                tenPeerGroup afterFirstUpdate "agent" (Some "p8") 3)).*1).
Proof.
  assert (Hperm : forall l : list Peer, reverse l ≡ₚ l)
    by (intros l; apply reverse_Permutation).
  assert (Hnd : NoDup (endpoint <$> getPeers tenPeerGroup))
    by (apply (bool_decide_unpack (NoDup _)); vm_compute; exact I).
  assert (Hmin : 0 <= minGossipPeers defaultParams) by (simpl; lia).
  assert (Hown : localStateObjects string afterFirstUpdate !! "agent"
                 = Some "s1") by (vm_compute; reflexivity).
  repeat (split; [assumption|]).
  pose proof (gossipNewState_never_addresses_the_sender
                string string id reverse defaultParams tenPeerGroup
                afterFirstUpdate "agent" "p8" 3 "s1" Hperm Hnd Hmin Hown)
    as H.
  cbv zeta in H. exact (proj1 H).
Defined.

Example gossip_skips_the_sender_run :
  (sentStateObjects string
     (gossipNewState string string id reverse defaultParams tenPeerGroup
        afterFirstUpdate "agent" (Some "p8") 3)).*1
  = ["p9"; "p7"; "p6"].
Proof. vm_compute. reflexivity. Qed.

Lemma requested_state_objects_can_be_sent_witness :
  LocalCoherent string id afterFirstUpdate /\
  sendFullState string string afterFirstUpdate "pB"
  = [EvSend string "pB" (SendFullState string [("agent", "s1")])] /\
  RequestObject string "agent"
    ∈ receiveFullState string trackingOne (fun _ => true) []
        [("agent", "s1")] /\
  exists own,
    localState string afterFirstUpdate !! "agent" = Some (id own) /\
    localState string trackingOne !! "agent" <> Some (id own) /\
    sendStateObject string string id afterFirstUpdate "pB" "agent" 4
    = [EvSend string "pB" (SendStateObject string "agent" (id own) 4)].
Proof.
  assert (Hcoh : LocalCoherent string id afterFirstUpdate).
  { assert (Hmax : 1 <= maxCachedPrevStates defaultParams) by (simpl; lia).
    exact (proj1 (Coherent_localAgentStateUpdate
                    string string id id reverse defaultParams tenPeerGroup
                    trackingOne "agent" "s1" 0 Hmax
                    (Coherent_trackAgentState string id defaultParams _ "agent"
                       (Coherent_initialState string id defaultParams)))). }
  assert (Hfull : sendFullState string string afterFirstUpdate "pB"
                  = [EvSend string "pB" (SendFullState string [("agent", "s1")])])
    by (vm_compute; reflexivity).
  assert (Hreq : RequestObject string "agent"
                   ∈ receiveFullState string trackingOne (fun _ => true) []
                       [("agent", "s1")]).
  { replace (receiveFullState string trackingOne (fun _ => true) []
               [("agent", "s1")])
      with [RequestObject string "agent"] by (vm_compute; reflexivity).
    left. }
  split; [exact Hcoh|]. split; [exact Hfull|]. split; [exact Hreq|].
  exact (requested_state_objects_can_be_sent
           string string id id afterFirstUpdate trackingOne "pB"
           (fun _ => true) [] [("agent", "s1")] "agent" 4 Hcoh Hfull Hreq).
Defined.

End StateGossipAgent.

(** ** UndoOp *)

Module UndoOpModel.

Section Constructor.

(** A [MutableObject], and what the [MutationOp] constructor leaves in a
    fresh op.  Neither class is part of the sources at hand, so both stay
    abstract; the superclass constructor may throw. *)
Variable MutableObject : Type.
Variable MutationOpState : Type.

(** Ops by class: [instanceof UndoOp] is a test on the constructor.  An
    [OtherOp] is an op of any class outside [UndoOp], the reversible ones
    included. *)
#[local] Unset Elimination Schemes.
Inductive Op : Type :=
| OtherOp (className : string) (base : MutationOpState)
| AnUndoOp (u : UndoOp)
with UndoOp : Type :=
| MkUndoOp (base : MutationOpState)
           (targetOp : option Op) (cascadeOf : option UndoOp).
#[local] Set Elimination Schemes.

Definition targetOp (u : UndoOp) : option Op :=
  match u with MkUndoOp _ t _ => t end.

Definition cascadeOf (u : UndoOp) : option UndoOp :=
  match u with MkUndoOp _ _ c => c end.

Definition instanceofUndoOp (op : option Op) : bool :=
  match op with
  | Some (AnUndoOp _) => true
  | _ => false
  end.

(** [super(target, hashedSet)], with the [HashedSet] given by its
    elements. *)
Variable MutationOp_constructor :
  option MutableObject -> option (list Op) -> Completion MutationOpState.

Definition constructor
    (target : option MutableObject) (targetOp : option Op)
    (cascadeOf : option UndoOp) : Completion UndoOp :=
  match MutationOp_constructor target
          (match targetOp with
           | None => None
           | Some op => Some [op]
           end) with
  | Thrown e => Thrown e
  | Normal base =>
      if instanceofUndoOp targetOp then
        Thrown "And undo op can't be undone this way, please just re-issue the original op"
      else Normal (MkUndoOp base targetOp cascadeOf)
  end.

(** C10.  The constructor throws whenever [targetOp] is itself an
    [UndoOp]; for a [targetOp] of another class, once the superclass
    constructor has returned, it yields an op that holds [targetOp] and
    [cascadeOf] as given. *)
Theorem undo_of_undo_is_refused
    (target : option MutableObject) (cascade : option UndoOp) :
  (forall u : UndoOp,
      exists e, constructor target (Some (AnUndoOp u)) cascade = Thrown e) /\
  (forall className base0 base,
      MutationOp_constructor target (Some [OtherOp className base0])
      = Normal base ->
      exists u,
        constructor target (Some (OtherOp className base0)) cascade
        = Normal u /\
        targetOp u = Some (OtherOp className base0) /\
        cascadeOf u = cascade).
Proof.
  split.
  - intros u. unfold constructor.
    destruct (MutationOp_constructor target (Some [AnUndoOp u])) as [base|e].
    + simpl. eauto.
    + eauto.
  - intros className base0 base Hsuper. unfold constructor.
    rewrite Hsuper. simpl. eauto.
Qed.

End Constructor.

(** A superclass constructor that records its arguments' shape. *)
Definition recordingSuper
    (target : option string) (causal : option (list (Op (option string))))
  : Completion (option string) :=
  Normal target.

Lemma undo_of_undo_is_refused_witness :
  recordingSuper (Some "permissions")
                 (Some [OtherOp (option string) "hhs-test/AddOp" None])
  = Normal (Some "permissions") /\
  exists u,
    constructor string (option string) recordingSuper (Some "permissions")
                (Some (OtherOp (option string) "hhs-test/AddOp" None)) None
    = Normal u /\
    targetOp (option string) u
    = Some (OtherOp (option string) "hhs-test/AddOp" None) /\
    cascadeOf (option string) u = None.
Proof.
  split; [reflexivity|].
  apply (proj2 (undo_of_undo_is_refused string (option string) recordingSuper
                  (Some "permissions") None)
               "hhs-test/AddOp" None (Some "permissions")).
  reflexivity.
Defined.

Example undo_of_undo_throws :
  constructor string (option string) recordingSuper (Some "permissions")
    (Some (AnUndoOp (option string)
             (MkUndoOp (option string) None
                (Some (OtherOp (option string) "hhs-test/AddOp" None)) None)))
    None
  = Thrown "And undo op can't be undone this way, please just re-issue the original op".
Proof. reflexivity. Qed.

End UndoOpModel.

(** ** Literals and contexts *)

Module Literals.

Inductive DependencyType := subobject | reference.

Global Instance DependencyType_eq_dec : EqDecision DependencyType.
Proof. solve_decision. Defined.

Record Dependency := {
  dep_hash : Hash;
  dep_path : string;
  dep_type : DependencyType
}.

(** A field of a literalized object: a reference to another object by
    hash, or anything else. *)
Inductive FieldValue :=
| FieldReference (_hash : Hash)
| FieldData (data : string).

(** The [value] of a literal: [_class] and [_fields] are what the sync
    agent reads. *)
Record LiteralValue := {
  v_class  : string;
  v_fields : gmap string FieldValue
}.

Record Literal := {
  lit_hash     : Hash;
  lit_value    : LiteralValue;
  dependencies : list Dependency;
  signatures   : list (Hash * string)
}.

Record LiteralContext := {
  lc_rootHashes : list Hash;
  lc_literals   : gmap Hash Literal
}.

End Literals.

Module Context.

Import Literals.

Section ContextOps.

(** Materialized objects stay abstract here. *)
Variable HashedObject : Type.

(** [Hashing.forValue]. *)
Variable forValue : LiteralValue -> Hash.

(** The [resources] field is never set on the contexts the sync agent
    builds and is left out. *)
Record Context := {
  rootHashes : list Hash;
  objects    : gmap Hash HashedObject;
  literals   : gmap Hash Literal
}.

Definition new : Context :=
  {| rootHashes := []; objects := ∅; literals := ∅ |}.

Definition has (c : Context) (hash : Hash) : bool :=
  bool_decide (is_Some (literals c !! hash))
  || bool_decide (is_Some (objects c !! hash)).

Definition toLiteralContext (c : Context) : LiteralContext :=
  {| lc_rootHashes := rootHashes c; lc_literals := literals c |}.

Definition fromLiteralContext (lc : LiteralContext) : Context :=
  {| rootHashes := lc_rootHashes lc; objects := ∅;
     literals := lc_literals lc |}.

Definition setObject (c : Context) (hash : Hash) (obj : HashedObject)
  : Context :=
  {| rootHashes := rootHashes c;
     objects := <[hash := obj]> (objects c);
     literals := literals c |}.

(** [Array.from(new Set(l))]: first occurrences, in order. *)
Fixpoint uniqueInOrder (seen : list Hash) (l : list Hash) : list Hash :=
  match l with
  | [] => []
  | h :: l' =>
      if decide (h ∈ seen) then uniqueInOrder seen l'
      else h :: uniqueInOrder (h :: seen) l'
  end.

(** [merge]: entries already present win. *)
Definition merge (c other : Context) : Context :=
  {| rootHashes := uniqueInOrder [] (rootHashes c ++ rootHashes other);
     objects := objects c ∪ objects other;
     literals := literals c ∪ literals other |}.

(** The [missing] map of [findMissingDeps], in insertion order: setting a
    key that is present keeps its place. *)
Fixpoint setMissing (missing : list (Hash * list Hash))
    (hash : Hash) (chain : list Hash) : list (Hash * list Hash) :=
  match missing with
  | [] => [(hash, chain)]
  | (h, c) :: rest =>
      if decide (h = hash) then (h, chain) :: rest
      else (h, c) :: setMissing rest hash chain
  end.

Fixpoint getMissing (missing : list (Hash * list Hash)) (hash : Hash)
  : option (list Hash) :=
  match missing with
  | [] => None
  | (h, c) :: rest => if decide (h = hash) then Some c else getMissing rest hash
  end.

(** [findMissingDeps].  The recursion follows the literals of the context
    and is bounded by [fuel]; [None] is a recursion that did not come back
    within the bound. *)
Fixpoint findMissingDeps (fuel : nat) (c : Context)
    (hash : Hash) (chain : list Hash) (missing : list (Hash * list Hash))
  : option (list (Hash * list Hash)) :=
  match fuel with
  | O => None
  | S fuel' =>
      match literals c !! hash with
      | None =>
          match getMissing missing hash with
          | None => Some (setMissing missing hash chain)
          | Some prevChain =>
              if (length chain <? length prevChain)%nat
              then Some (setMissing missing hash chain)
              else Some missing
          end
      | Some literal =>
          foldl (fun acc dep =>
                   match acc with
                   | None => None
                   | Some missing =>
                       findMissingDeps fuel' c (dep_hash dep) (hash :: chain)
                                       missing
                   end)
                (Some missing) (dependencies literal)
      end
  end.

Definition checkLiteralHashes (c : Context) : bool :=
  bool_decide
    (map_Forall (fun hash literal =>
                   hash = lit_hash literal /\
                   hash = forValue (lit_value literal))
                (literals c)).

Definition checkRootHashes (c : Context) : bool :=
  forallb (fun hash => bool_decide (is_Some (literals c !! hash)))
          (rootHashes c).

Lemma uniqueInOrder_spec (l : list Hash) :
  forall seen,
    NoDup (uniqueInOrder seen l) /\
    forall h, h ∈ uniqueInOrder seen l <-> h ∈ l /\ (h ∉ seen).
Proof.
  induction l as [|x l IH]; intros seen; cbn [uniqueInOrder].
  - split; [constructor|]. intros h. split; [by intros ?%not_elem_of_nil|].
    by intros [?%not_elem_of_nil _].
  - destruct (decide (x ∈ seen)) as [Hseen|Hnew].
    + destruct (IH seen) as [Hnd Hin]. split; [done|].
      intros h. rewrite Hin, elem_of_cons. split; [by intros [? ?]; auto|].
      intros [[->|?] ?]; done.
    + destruct (IH (x :: seen)) as [Hnd Hin]. split.
      * apply NoDup_cons. split; [|done]. rewrite Hin.
        intros [_ Hx]. apply Hx. left.
      * intros h. rewrite !elem_of_cons, Hin, not_elem_of_cons. split.
        -- intros [->|(? & ? & ?)]; [by split; [left|] | by split; [right|]].
        -- intros [[->|?] ?]; [by left|].
           destruct (decide (h = x)) as [->|?]; [by left | by right].
Qed.

Lemma uniqueInOrder_NoDup_id (l : list Hash) :
  forall seen, NoDup l -> (forall h, h ∈ l -> h ∉ seen) ->
               uniqueInOrder seen l = l.
Proof.
  induction l as [|x l IH]; intros seen Hnd Hfresh; cbn [uniqueInOrder];
    [done|].
  apply NoDup_cons in Hnd as [Hx Hnd].
  rewrite decide_False by (apply Hfresh; left).
  f_equal. apply IH; [done|].
  intros h Hh. apply not_elem_of_cons. split; [by intros ->|].
  apply Hfresh. by right.
Qed.

(** X22.  [merge] adds to a context what it lacks and changes nothing it
    has: the root hashes become those of both contexts, each once; a hash
    that has a literal or an object keeps it, and one that has none gets
    that of the other context; so [has] holds afterwards for what either
    context had, a context whose roots all have literals stays so when
    another such context is merged in, and so does one whose literals all
    carry their own hash.  Merging the same context in twice is the same as
    merging it in once, and merging an empty context into one with distinct
    roots changes nothing. *)
Theorem merge_adds_only_what_is_lacking (c other : Context) :
  let m := merge c other in
  NoDup (rootHashes m) /\
  (forall h, h ∈ rootHashes m <-> h ∈ rootHashes c \/ h ∈ rootHashes other) /\
  (forall h, literals m !! h = match literals c !! h with
                               | Some literal => Some literal
                               | None => literals other !! h
                               end) /\
  (forall h, objects m !! h = match objects c !! h with
                              | Some obj => Some obj
                              | None => objects other !! h
                              end) /\
  (forall h, has m h = has c h || has other h) /\
  (checkRootHashes c = true -> checkRootHashes other = true ->
   checkRootHashes m = true) /\
  (checkLiteralHashes c = true -> checkLiteralHashes other = true ->
   checkLiteralHashes m = true) /\
  merge m other = m /\
  (NoDup (rootHashes c) -> merge c new = c).
Proof.
  intros m.
  assert (Hroots : NoDup (rootHashes m) /\
                   forall h, h ∈ rootHashes m <->
                             h ∈ rootHashes c \/ h ∈ rootHashes other).
  { subst m. cbn [merge rootHashes].
    destruct (uniqueInOrder_spec (rootHashes c ++ rootHashes other) [])
      as [Hnd Hin].
    split; [done|]. intros h. rewrite Hin, elem_of_app.
    split; [by intros [? _]|]. intros ?. split; [done|].
    apply not_elem_of_nil. }
  assert (Hlit : forall h, literals m !! h = match literals c !! h with
                                             | Some literal => Some literal
                                             | None => literals other !! h
                                             end).
  { intros h. subst m. cbn [merge literals]. rewrite lookup_union.
    by destruct (literals c !! h), (literals other !! h). }
  assert (Hobj : forall h, objects m !! h = match objects c !! h with
                                            | Some obj => Some obj
                                            | None => objects other !! h
                                            end).
  { intros h. subst m. cbn [merge objects]. rewrite lookup_union.
    by destruct (objects c !! h), (objects other !! h). }
  destruct Hroots as [Hnd Hin].
  split; [done|]. split; [done|]. split; [done|]. split; [done|].
  split; [|split; [|split; [|split]]].
  - intros h. unfold has. rewrite Hlit, Hobj.
    destruct (literals c !! h) as [l1|], (literals other !! h) as [l2|],
             (objects c !! h) as [o1|], (objects other !! h) as [o2|];
      repeat (rewrite bool_decide_eq_true_2 by eauto);
      repeat (rewrite bool_decide_eq_false_2 by (by intros [? ?]));
      done.
  - unfold checkRootHashes. rewrite !forallb_forall. intros Hc Ho h Hh.
    apply list_elem_of_In, Hin in Hh. apply bool_decide_eq_true.
    rewrite Hlit. destruct Hh as [Hh|Hh].
    + apply list_elem_of_In, Hc, bool_decide_eq_true in Hh as [l ->]. eauto.
    + apply list_elem_of_In, Ho, bool_decide_eq_true in Hh as [l Hl].
      rewrite Hl. destruct (literals c !! h); eauto.
  - unfold checkLiteralHashes. rewrite !bool_decide_eq_true.
    intros Hc Ho h literal. rewrite Hlit.
    destruct (literals c !! h) as [l1|] eqn:Hl1.
    + intros [= <-]. by apply (Hc h).
    + apply Ho.
  - subst m. unfold merge at 1. cbn [merge rootHashes objects literals].
    unfold merge. f_equal.
    + destruct (uniqueInOrder_spec (rootHashes c ++ rootHashes other) [])
        as [Hnd' Hin'].
      set (u := uniqueInOrder [] (rootHashes c ++ rootHashes other)) in *.
      destruct (uniqueInOrder_spec (u ++ rootHashes other) []) as [_ Hin2].
      assert (Hsplit : forall l2 seen,
                 (forall h, h ∈ l2 -> h ∈ seen) ->
                 uniqueInOrder seen l2 = []).
      { induction l2 as [|x l2 IH2]; intros seen Hall; cbn [uniqueInOrder];
          [done|].
        rewrite decide_True by (apply Hall; left).
        apply IH2. intros h Hh. apply Hall. by right. }
      assert (Happ : forall l1 l2 seen,
                 NoDup l1 -> (forall h, h ∈ l1 -> h ∉ seen) ->
                 (forall h, h ∈ l2 -> h ∈ l1 \/ h ∈ seen) ->
                 uniqueInOrder seen (l1 ++ l2) = l1).
      { induction l1 as [|x l1 IH1]; intros l2 seen Hnd1 Hfresh Hall;
          cbn [app uniqueInOrder].
        - apply Hsplit. intros h Hh.
          destruct (Hall h Hh) as [?%not_elem_of_nil|?]; done.
        - apply NoDup_cons in Hnd1 as [Hx Hnd1].
          rewrite decide_False by (apply Hfresh; left).
          f_equal. apply IH1; [done| |].
          + intros h Hh. apply not_elem_of_cons. split; [by intros ->|].
            apply Hfresh. by right.
          + intros h Hh. destruct (Hall h Hh) as [[->|?]%elem_of_cons|?].
            * right. left.
            * by left.
            * right. by right. }
      apply Happ; [done | by intros ? ? ?%not_elem_of_nil |].
      intros h Hh. left. apply Hin'. split; [|apply not_elem_of_nil].
      apply elem_of_app. by right.
    + by rewrite <- (assoc_L (∪)), (idemp_L (∪)).
    + by rewrite <- (assoc_L (∪)), (idemp_L (∪)).
  - intros Hndc. destruct c as [roots objs lits]. unfold merge, new.
    cbn [rootHashes objects literals] in *.
    rewrite app_nil_r, !(right_id_L ∅ (∪)).
    rewrite uniqueInOrder_NoDup_id; [done | done |].
    by intros ? ? ?%not_elem_of_nil.
Qed.

End ContextOps.

End Context.

(** ** TerminalOpsSyncAgent *)

Module TerminalOpsSyncAgent.

Import Literals.

Record TerminalOpsSyncAgentParams := {
  sendTimeout         : Z;
  receiveTimeout      : Z;
  incompleteOpTimeout : Z
}.

(** The values the constructor falls back to (seconds). *)
Definition defaultParams : TerminalOpsSyncAgentParams :=
  {| sendTimeout := 60; receiveTimeout := 90; incompleteOpTimeout := 3600 |}.

Record Movement := {
  mv_timeout         : Z;
  mv_secret          : string;
  mv_dependencyChain : list Hash
}.

Abbreviation ObjectMovements := (gmap Hash (gmap Endpoint Movement)).

Record ObjectRequest := {
  req_hash            : Hash;
  req_dependencyChain : list Hash
}.

Record OwnershipProof := {
  proof_hash         : Hash;
  ownershipProofHash : Hash
}.

Record TerminalOpsState := {
  mutableObj  : Hash;
  terminalOps : list Hash
}.

Inductive Message :=
| RequestState (targetObjHash : Hash)
| SendState (targetObjHash : Hash) (state : TerminalOpsState)
| RequestObjs (targetObjHash : Hash) (requestedObjects : list ObjectRequest)
              (ownershipProofSecret : string)
| SendObjs (targetObjHash : Hash) (sentObjects : LiteralContext)
           (omittedDeps : list OwnershipProof)
           (ownershipProofSecret : option string).

(** The [MultiMap] of [util/multimap] is not among the sources.  The spec
    has [opsForMissing] as a multimap that gives, for each dependency still
    missing, the set of incomplete op hashes waiting on it. *)
Module MultiMap.

(** Modelled from the spec: [MultiMap.add], which puts [value] into the
    set kept under [key]. *)
Definition add (m : gmap Hash (gset Hash)) (key value : Hash)
  : gmap Hash (gset Hash) :=
  <[key := {[value]} ∪ default ∅ (m !! key)]> m.

(** Modelled from the spec: [MultiMap.delete], which takes [value] out
    of the set kept under [key] and drops a key whose set becomes empty. *)
Definition delete (m : gmap Hash (gset Hash)) (key value : Hash)
  : gmap Hash (gset Hash) :=
  match m !! key with
  | None => m
  | Some vals =>
      let vals' := vals ∖ {[value]} in
      if decide (vals' = ∅) then base.delete key m else <[key := vals']> m
  end.

(** Modelled from the spec: [MultiMap.get], the set kept under [key],
    empty when there is none. *)
Definition get (m : gmap Hash (gset Hash)) (key : Hash) : gset Hash :=
  default ∅ (m !! key).

End MultiMap.

(** Walking a dependency chain upwards: from [h], each hash of the chain
    names a literal that lists the previous hash among its dependencies;
    the walk ends at [top]. *)
Inductive ChainWalk (lookupLiteral : Hash -> option Literal)
  : Hash -> list Hash -> Hash -> Prop :=
| walk_done h : ChainWalk lookupLiteral h [] h
| walk_link h depHash depLiteral rest top :
    lookupLiteral depHash = Some depLiteral ->
    h ∈ dep_hash <$> dependencies depLiteral ->
    ChainWalk lookupLiteral depHash rest top ->
    ChainWalk lookupLiteral h (depHash :: rest) top.

Section Agent.

(** [HashedObject] and its methods are not among the sources; the agent
    uses the following of them. *)
Variable HashedObject : Type.
(** [obj.hash(seed)]: the keyed hash used as ownership proof. *)
Variable hashWithSeed : HashedObject -> string -> Hash.
Variable getClassName : HashedObject -> string.
(** [op.targetObject?.hash()]. *)
Variable targetObjectHash : HashedObject -> option Hash.
(** [obj.toContext(context)]. *)
Variable toContext :
  HashedObject -> Context.Context HashedObject -> Context.Context HashedObject.
(** [state.hash()] on a terminal-ops state. *)
Variable stateHashOf : TerminalOpsState -> Hash.
Variable forValue : LiteralValue -> Hash.

Abbreviation Ctx := (Context.Context HashedObject).

(** The store, as far as it is read: [load] and [loadLiteral]. *)
Record Store := {
  storedObjects  : gmap Hash HashedObject;
  storedLiterals : gmap Hash Literal
}.

Definition load (store : Store) (hash : Hash) : option HashedObject :=
  storedObjects store !! hash.

Definition loadLiteral (store : Store) (hash : Hash) : option Literal :=
  storedLiterals store !! hash.

Record IncompleteOp := {
  io_source         : Endpoint;
  io_context        : Ctx;
  io_missingObjects : gmap Hash ObjectRequest;
  io_timeout        : Z
}.

(** The tables the agent owns. *)
Record Tables := {
  outgoingObjects  : ObjectMovements;
  incomingObjects  : ObjectMovements;
  incompleteOps    : gmap Hash IncompleteOp;
  opsForMissingObj : gmap Hash (gset Hash)
}.

Definition emptyTables : Tables :=
  {| outgoingObjects := ∅; incomingObjects := ∅;
     incompleteOps := ∅; opsForMissingObj := ∅ |}.

Definition withIncoming (t : Tables) (m : ObjectMovements) : Tables :=
  {| outgoingObjects := outgoingObjects t; incomingObjects := m;
     incompleteOps := incompleteOps t;
     opsForMissingObj := opsForMissingObj t |}.

Definition withIncomplete (t : Tables)
    (ops : gmap Hash IncompleteOp) (index : gmap Hash (gset Hash)) : Tables :=
  {| outgoingObjects := outgoingObjects t;
     incomingObjects := incomingObjects t;
     incompleteOps := ops; opsForMissingObj := index |}.

Variable params : TerminalOpsSyncAgentParams.
Variable objHash : Hash.
Variable acceptedMutationOpClasses : list string.

(** What a call leaves behind besides the tables. *)
Inductive Action :=
| ActSend (destination : Endpoint) (msg : Message)
| ActProcessReceivedObject (hash : Hash) (context : Ctx)
| ActWarning (text : string).

Definition shouldAcceptMutationOp (op : HashedObject) : bool :=
  bool_decide (Some objHash = targetObjectHash op)
  && (0 <=? JSArray.indexOf acceptedMutationOpClasses (getClassName op)).

(** [LiteralUtils.getFields(op)['targetObject']._hash] throws when the
    literal has no such field. *)
Definition shouldAcceptMutationOpLiteral (op : Literal) : Completion bool :=
  match v_fields (lit_value op) !! "targetObject" with
  | None => Thrown "TypeError"
  | Some field =>
      Normal
        (match field with
         | FieldReference h => bool_decide (objHash = h)
         | FieldData _ => false
         end
         && (0 <=? JSArray.indexOf acceptedMutationOpClasses
                                   (v_class (lit_value op))))
  end.

(** *** Housekeeping: the callback that [opShippingInterval] runs every
    5000 ms *)

Definition deleteAll {V : Type} (keys : list Hash) (m : gmap Hash V)
  : gmap Hash V :=
  foldl (fun m k => delete k m) m keys.

Definition outdatedEndpoints (now : Z) (destinations : gmap Endpoint Movement)
  : list Endpoint :=
  (map_to_list
     (filter (fun kv => (now >? mv_timeout kv.2) = true) destinations)).*1.

Definition sweepMovements (now : Z) (objs : ObjectMovements)
  : ObjectMovements * list Hash :=
  let objs :=
    (fun destinations =>
       deleteAll (outdatedEndpoints now destinations) destinations)
      <$> objs in
  let outdated :=
    (map_to_list (filter (fun kv => size kv.2 = 0%nat) objs)).*1 in
  (deleteAll outdated objs, outdated).

Definition timeoutedIncompleteOps (now : Z) (ops : gmap Hash IncompleteOp)
  : list (Hash * IncompleteOp) :=
  map_to_list (filter (fun kv => (io_timeout kv.2 >? now) = true) ops).

Definition opShippingInterval (now : Z) (t : Tables) : Tables :=
  let '(outgoing, _) := sweepMovements now (outgoingObjects t) in
  let '(incoming, _) := sweepMovements now (incomingObjects t) in
  let timeouted := timeoutedIncompleteOps now (incompleteOps t) in
  let index :=
    foldl (fun index entry =>
             foldl (fun index depHash =>
                      MultiMap.delete index depHash entry.1)
                   index
                   (map_to_list (io_missingObjects entry.2)).*1)
          (opsForMissingObj t) timeouted in
  {| outgoingObjects := outgoing;
     incomingObjects := incoming;
     incompleteOps := deleteAll timeouted.*1 (incompleteOps t);
     opsForMissingObj := index |}.

(** *** Object movements *)

Definition insertObjectMovement
    (allMovements : ObjectMovements) (endpoint : Endpoint) (hash : Hash)
    (dependencyChain : list Hash) (secret : string) (timeout now : Z)
  : bool * ObjectMovements :=
  let movement := default ∅ (allMovements !! hash) in
  if bool_decide (is_Some (movement !! endpoint)) then
    (false, <[hash := movement]> allMovements)
  else
    (true,
     <[hash := <[endpoint := {| mv_dependencyChain := dependencyChain;
                                mv_secret := secret;
                                mv_timeout := now + timeout * 1000 |}]>
                 movement]> allMovements).

Definition expectIncomingObject
    (incoming : ObjectMovements) (source : Endpoint) (hash : Hash)
    (dependencyChain : list Hash) (secret : string) (now : Z)
  : bool * ObjectMovements :=
  insertObjectMovement incoming source hash dependencyChain secret
                       (receiveTimeout params) now.

Definition scheduleOutgoingObject
    (outgoing : ObjectMovements) (destination : Endpoint) (hash : Hash)
    (dependencyChain : list Hash) (secret : string) (now : Z)
  : bool * ObjectMovements :=
  insertObjectMovement outgoing destination hash dependencyChain secret
                       (sendTimeout params) now.

(** One turn of the loop of [sendRequestObjsMessage]. *)
Definition requestStep (destination : Endpoint) (secret : string) (now : Z)
    (acc : ObjectMovements * list ObjectRequest) (req : ObjectRequest)
  : ObjectMovements * list ObjectRequest :=
  let '(incoming, newReqs) := acc in
  let alreadyRequested :=
    bool_decide (is_Some (incoming !! req_hash req ≫= (.!! destination))) in
  let pendingReqs :=
    match incoming !! req_hash req with
    | Some m => Z.of_nat (size m)
    | None => 0
    end in
  if negb alreadyRequested && (pendingReqs <? 2) then
    let '(expected, incoming) :=
      expectIncomingObject incoming destination (req_hash req)
                           (req_dependencyChain req) secret now in
    if expected then (incoming, newReqs ++ [req]) else (incoming, newReqs)
  else (incoming, newReqs).

(** [sendRequestObjsMessage]; [secret] is the fresh random string. *)
Definition sendRequestObjsMessage
    (incoming : ObjectMovements) (destination : Endpoint)
    (reqs : list ObjectRequest) (secret : string) (now : Z)
  : ObjectMovements * list Action :=
  let '(incoming, newReqs) :=
    foldl (requestStep destination secret now) (incoming, []) reqs in
  (incoming,
   match newReqs with
   | [] => []
   | _ => [ActSend destination (RequestObjs objHash newReqs secret)]
   end).

(** *** Serving a [request-objs] message *)

(** The first loop of [tryToSendObjects] for one request: follow the
    dependency path until the op is reached.  The result is the final
    [opHash] with the flags [valid] and [missing]. *)
Fixpoint followDependencyChain (store : Store)
    (opHash : Hash) (chain : list Hash) : Hash * bool * bool :=
  match chain with
  | [] => (opHash, true, false)
  | depHash :: rest =>
      match loadLiteral store depHash with
      | None => (opHash, true, true)
      | Some depLiteral =>
          if existsb (fun dep => bool_decide (dep_hash dep = opHash))
                     (dependencies depLiteral)
          then followDependencyChain store depHash rest
          else (opHash, false, false)
      end
  end.

(** The flags [valid] and [missing] of one request once the op has been
    checked. *)
Definition checkRequest (store : Store) (req : ObjectRequest) : bool * bool :=
  let '(opHash, valid, missing) :=
    followDependencyChain store (req_hash req) (req_dependencyChain req) in
  if negb missing && valid then
    match load store opHash with
    | None => (valid, true)
    | Some op => if shouldAcceptMutationOp op then (valid, missing)
                 else (false, missing)
    end
  else (valid, missing).

(** What [tryToSendObjects] accumulates over the requests. *)
Record Sending := {
  sendingContext   : Ctx;
  provenReferences : gset Hash;
  ownershipProofs  : list OwnershipProof;
  sendLater        : list ObjectRequest
}.

Definition startSending : Sending :=
  {| sendingContext := Context.new HashedObject; provenReferences := ∅;
     ownershipProofs := []; sendLater := [] |}.

(** The loop over the dependencies of the literal just added. *)
Fixpoint proveReferences (store : Store) (secret : string)
    (deps : list Dependency)
    (proven : gset Hash) (proofs : list OwnershipProof)
  : Completion (gset Hash * list OwnershipProof) :=
  match deps with
  | [] => Normal (proven, proofs)
  | dep :: deps' =>
      if decide (dep_type dep = reference) then
        if decide (dep_hash dep ∈ proven) then
          proveReferences store secret deps' proven proofs
        else
          match load store (dep_hash dep) with
          | None => Thrown "TypeError"
          | Some ref =>
              proveReferences store secret deps'
                ({[dep_hash dep]} ∪ proven)
                (proofs ++ [{| proof_hash := dep_hash dep;
                               ownershipProofHash := hashWithSeed ref secret |}])
          end
      else proveReferences store secret deps' proven proofs
  end.

(** The body of the loop over the requested objects. *)
Definition serveRequest (store : Store) (secret : string)
    (acc : Sending) (req : ObjectRequest) : Completion Sending :=
  let '(valid, missing) := checkRequest store req in
  if valid && negb missing then
    match load store (req_hash req) with
    | None =>
        Normal {| sendingContext := sendingContext acc;
                  provenReferences := provenReferences acc;
                  ownershipProofs := ownershipProofs acc;
                  sendLater := sendLater acc ++ [req] |}
    | Some obj =>
        let context := toContext obj (sendingContext acc) in
        match last (Context.rootHashes _ context)
                ≫= (fun hash => Context.literals _ context !! hash) with
        | None => Thrown "TypeError"
        | Some literal =>
            match proveReferences store secret (dependencies literal)
                    (provenReferences acc) (ownershipProofs acc) with
            | Thrown e => Thrown e
            | Normal (proven, proofs) =>
                Normal {| sendingContext := context;
                          provenReferences := proven;
                          ownershipProofs := proofs;
                          sendLater := sendLater acc |}
            end
        end
    end
  else if valid && missing then
    Normal {| sendingContext := sendingContext acc;
              provenReferences := provenReferences acc;
              ownershipProofs := ownershipProofs acc;
              sendLater := sendLater acc ++ [req] |}
  else Normal acc.

Fixpoint serveRequests (store : Store) (secret : string)
    (acc : Sending) (reqs : list ObjectRequest) : Completion Sending :=
  match reqs with
  | [] => Normal acc
  | req :: reqs' =>
      match serveRequest store secret acc req with
      | Thrown e => Thrown e
      | Normal acc' => serveRequests store secret acc' reqs'
      end
  end.

(** [tryToSendObjects]: the reply, if one is sent, and the requests to
    serve later. *)
Definition tryToSendObjects (store : Store) (destination : Endpoint)
    (requestedObjects : list ObjectRequest) (secret : string)
  : Completion (list Action * list ObjectRequest) :=
  match serveRequests store secret startSending requestedObjects with
  | Thrown e => Thrown e
  | Normal acc =>
      Normal
        (match Context.rootHashes _ (sendingContext acc) with
         | [] => []
         | _ =>
             [ActSend destination
                (SendObjs objHash
                   (Context.toLiteralContext _ (sendingContext acc))
                   (ownershipProofs acc) (Some secret))]
         end,
         sendLater acc)
  end.

(** *** Receiving a remote state *)

(** The loop of [receiveRemoteState] over the peer's terminal ops; the
    result is [opsToFetch] and [badOps]. *)
Definition inspectTerminalOps (store : Store) (t : Tables)
    (ops : list Hash) : list Hash * bool :=
  foldl (fun acc opHash =>
           let '(opsToFetch, badOps) := acc in
           let alreadyFetching :=
             bool_decide (is_Some (incompleteOps t !! opHash)) in
           if alreadyFetching then (opsToFetch, badOps)
           else
             match load store opHash with
             | None => (opsToFetch ++ [opHash], badOps)
             | Some op =>
                 if shouldAcceptMutationOp op then (opsToFetch, badOps)
                 else (opsToFetch, true)
             end)
        ([], false) ops.

Definition receiveRemoteState (store : Store) (ownStateHash : option Hash)
    (t : Tables) (sender : Endpoint) (stateHash : Hash)
    (state : option TerminalOpsState) (secret : string) (now : Z)
  : bool * Tables * list Action :=
  match state with
  | Some peerTerminalOpsState =>
      if bool_decide (stateHashOf peerTerminalOpsState = stateHash) then
        let '(opsToFetch, badOps) :=
          inspectTerminalOps store t (terminalOps peerTerminalOpsState) in
        let '(incoming, actions) :=
          if badOps then (incomingObjects t, [])
          else
            match opsToFetch with
            | [] => (incomingObjects t, [])
            | _ =>
                sendRequestObjsMessage (incomingObjects t) sender
                  ((fun h => {| req_hash := h; req_dependencyChain := [] |})
                     <$> opsToFetch)
                  secret now
            end in
        ((0 <? Z.of_nat (length opsToFetch)) && negb badOps,
         withIncoming t incoming, actions)
      else (false, t, [])
  | None =>
      (false, t,
       if bool_decide (Some stateHash = ownStateHash) then []
       else [ActSend sender (RequestState objHash)])
  end.

(** *** Receiving a [send-objs] message *)

(** [processIncompleteOp].  The call of [processReceivedObject] it may
    make is asynchronous and is recorded as an action; the context kept in
    an incomplete op is the context as it is at the time of the call. *)
Definition processIncompleteOp (t : Tables) (source : Endpoint) (hash : Hash)
    (context : Ctx) (toRequest : list ObjectRequest) (now : Z)
  : Tables * list Action :=
  let missingObjects : gmap Hash ObjectRequest :=
    foldl (fun m req => <[req_hash req := req]> m) ∅ toRequest in
  match incompleteOps t !! hash with
  | None =>
      let incompleteOp :=
        {| io_source := source; io_context := context;
           io_missingObjects := missingObjects;
           io_timeout := now + incompleteOpTimeout params * 1000 |} in
      (withIncomplete t
         (<[hash := incompleteOp]> (incompleteOps t))
         (foldl (fun index objReq => MultiMap.add index (req_hash objReq) hash)
                (opsForMissingObj t) toRequest),
       [])
  | Some incompleteOp =>
      let initialMissingCount := size (io_missingObjects incompleteOp) in
      let merged := Context.merge _ (io_context incompleteOp) context in
      let found :=
        List.filter (Context.has _ merged)
                    (map_to_list (io_missingObjects incompleteOp)).*1 in
      let stillMissing :=
        deleteAll found (io_missingObjects incompleteOp) in
      let index :=
        foldl (fun index foundHash => MultiMap.delete index foundHash hash)
              (opsForMissingObj t) found in
      if decide (size stillMissing = 0%nat) then
        (withIncomplete t (delete hash (incompleteOps t)) index,
         [ActProcessReceivedObject hash context])
      else
        let timeout :=
          if (size stillMissing <? initialMissingCount)%nat
          then now + incompleteOpTimeout params * 1000
          else io_timeout incompleteOp in
        (withIncomplete t
           (<[hash := {| io_source := io_source incompleteOp;
                         io_context := merged;
                         io_missingObjects := stillMissing;
                         io_timeout := timeout |}]> (incompleteOps t))
           index,
         [])
  end.

Definition ownershipProofForHash (omittedDeps : list OwnershipProof)
  : gmap Hash Hash :=
  foldl (fun m omittedDep =>
           <[proof_hash omittedDep := ownershipProofHash omittedDep]> m)
        ∅ omittedDeps.

(** The test of the loop over the missing dependencies: the dependency is
    in the store and the proof sent for it is its hash keyed with the
    secret. *)
Definition provenLocally (store : Store) (secret : string)
    (proofFor : gmap Hash Hash) (depHash : Hash) : option HashedObject :=
  match load store depHash with
  | None => None
  | Some dep =>
      if bool_decide (Some (hashWithSeed dep secret) = proofFor !! depHash)
      then Some dep else None
  end.

(** The loop over [context.findMissingDeps(hash).entries()]: the result
    is [toRequest] and the context with the proven dependencies added. *)
Definition classifyMissingDeps (store : Store) (secret : string)
    (proofFor : gmap Hash Hash) (missing : list (Hash * list Hash))
    (context : Ctx) : list ObjectRequest * Ctx :=
  foldl (fun acc entry =>
           let '(toRequest, context) := acc in
           match provenLocally store secret proofFor entry.1 with
           | None =>
               (toRequest ++ [{| req_hash := entry.1;
                                 req_dependencyChain := entry.2 |}],
                context)
           | Some dep => (toRequest, Context.setObject _ context entry.1 dep)
           end)
        ([], context) missing.

(** What becomes of the dependencies of one root that the context lacks. *)
Definition resolveMissingDeps (fuel : nat) (store : Store) (secret : string)
    (proofFor : gmap Hash Hash) (context : Ctx) (hash : Hash)
  : option (list ObjectRequest * Ctx) :=
  match Context.findMissingDeps _ fuel context hash [] [] with
  | None => None
  | Some missing =>
      Some (classifyMissingDeps store secret proofFor missing context)
  end.

(** The body of the loop of [receiveObjects] over the root hashes.
    [freshSecret] is the random string a follow-up request would carry. *)
Definition receiveRoot (fuel : nat) (store : Store) (source : Endpoint)
    (proofFor : gmap Hash Hash) (secret : option string)
    (freshSecret : string) (now : Z)
    (st : Tables * Ctx * list Action) (hash : Hash)
  : option (Tables * Ctx * list Action) :=
  let '(t, context, actions) := st in
  match incomingObjects t !! hash ≫= (.!! source) with
  | Some incoming =>
      if bool_decide (Some (mv_secret incoming) = secret) then
        match resolveMissingDeps fuel store (mv_secret incoming) proofFor
                                 context hash with
        | None => None
        | Some (toRequest, context) =>
            let '(t, actions) :=
              match toRequest with
              | [] => (t, actions ++ [ActProcessReceivedObject hash context])
              | _ =>
                  match
                    match Context.literals _ context !! hash with
                    | None => Thrown "TypeError"
                    | Some literal => shouldAcceptMutationOpLiteral literal
                    end
                  with
                  | Thrown e => (t, actions ++ [ActWarning e])
                  | Normal accepted =>
                      let '(t, acts) :=
                        if accepted
                        then processIncompleteOp t source hash context
                                                 toRequest now
                        else (t, [ActWarning "wrong type for a mutation op"]) in
                      let '(incoming, sent) :=
                        sendRequestObjsMessage (incomingObjects t) source
                                               toRequest freshSecret now in
                      (withIncoming t incoming, actions ++ acts ++ sent)
                  end
              end in
            Some (withIncoming t (delete hash (incomingObjects t)),
                  context, actions)
        end
      else Some (t, context,
                 actions ++ [ActWarning "incoming object secret mismatch"])
  | None =>
      Some (t, context,
            match load store hash with
            | None => actions ++ [ActWarning "missing incoming object entry"]
            | Some _ => actions
            end)
  end.

Fixpoint receiveRoots (fuel : nat) (store : Store) (source : Endpoint)
    (proofFor : gmap Hash Hash) (secret : option string)
    (rng : nat -> string) (now : Z) (n : nat)
    (st : Tables * Ctx * list Action) (roots : list Hash)
  : option (Tables * Ctx * list Action) :=
  match roots with
  | [] => Some st
  | hash :: roots' =>
      match receiveRoot fuel store source proofFor secret (rng n) now
                        st hash with
      | None => None
      | Some st' =>
          receiveRoots fuel store source proofFor secret rng now (S n)
                       st' roots'
      end
  end.

(** [receiveObjects]; [rng] gives the random strings drawn in order. *)
Definition receiveObjects (fuel : nat) (store : Store) (t : Tables)
    (source : Endpoint) (literalContext : LiteralContext)
    (omittedDeps : list OwnershipProof) (secret : option string)
    (rng : nat -> string) (now : Z)
  : option (Tables * list Action) :=
  let context := Context.fromLiteralContext HashedObject literalContext in
  let proofFor := ownershipProofForHash omittedDeps in
  if Context.checkRootHashes _ context
     && Context.checkLiteralHashes _ forValue context then
    match receiveRoots fuel store source proofFor secret rng now 0%nat
                       (t, context, []) (Context.rootHashes _ context) with
    | None => None
    | Some (t, _, actions) => Some (t, actions)
    end
  else Some (t, [ActWarning "received invalid context"]).

Lemma lookup_deleteAll {V : Type} (keys : list Hash) (m : gmap Hash V) k :
  deleteAll keys m !! k = if decide (k ∈ keys) then None else m !! k.
Proof.
  unfold deleteAll. revert m.
  induction keys as [|k' keys IH]; intros m; cbn [foldl].
  - by rewrite decide_False by apply not_elem_of_nil.
  - rewrite IH. destruct (decide (k ∈ keys)) as [Hin|Hnin].
    + by rewrite decide_True by (by right).
    + destruct (decide (k' = k)) as [->|Hne].
      * rewrite lookup_delete_eq. by rewrite decide_True by left.
      * rewrite lookup_delete_ne by done.
        rewrite decide_False; [done|].
        intros Hin. apply elem_of_cons in Hin as [?|?]; congruence.
Qed.

(** *** Pending requests per hash *)


(** Whether a request is registered: not yet asked of this peer, and fewer
    than two requests pending. *)
Definition registers (incoming : ObjectMovements) (destination : Endpoint)
    (h : Hash) : bool :=
  bool_decide (default ∅ (incoming !! h) !! destination = None)
  && bool_decide (size (default ∅ (incoming !! h)) < 2)%nat.

Lemma requestStep_unfold destination secret now incoming newReqs req :
  requestStep destination secret now (incoming, newReqs) req =
  if registers incoming destination (req_hash req) then
    (<[req_hash req :=
         <[destination :=
             {| mv_dependencyChain := req_dependencyChain req;
                mv_secret := secret;
                mv_timeout := now + receiveTimeout params * 1000 |}]>
           (default ∅ (incoming !! req_hash req))]> incoming,
     newReqs ++ [req])
  else (incoming, newReqs).
Proof.
  unfold requestStep, registers, expectIncomingObject, insertObjectMovement.
  destruct (incoming !! req_hash req) as [d|] eqn:Hd; simpl.
  - destruct (d !! destination) as [mv|] eqn:Hmv; simpl; [done|].
    destruct (Z.ltb_spec (Z.of_nat (size d)) 2).
    + by rewrite bool_decide_eq_true_2 by lia.
    + by rewrite bool_decide_eq_false_2 by lia.
  - rewrite lookup_empty. simpl. rewrite map_size_empty.
    by rewrite bool_decide_eq_true_2 by lia.
Qed.







Lemma deleteAll_subseteq {V : Type} (keys : list Hash) (m : gmap Hash V) :
  deleteAll keys m ⊆ m.
Proof.
  unfold deleteAll. revert m.
  induction keys as [|k keys IH]; intros m; cbn [foldl]; [done|].
  etrans; [apply IH | apply delete_subseteq].
Qed.


Lemma opShippingInterval_incoming now t :
  incomingObjects (opShippingInterval now t)
  = (sweepMovements now (incomingObjects t)).1.
Proof.
  unfold opShippingInterval.
  destruct (sweepMovements now (outgoingObjects t)) as [outgoing ?].
  by destruct (sweepMovements now (incomingObjects t)) as [incoming ?].
Qed.


Lemma processIncompleteOp_incoming t source hash context toRequest now :
  incomingObjects (processIncompleteOp t source hash context toRequest now).1
  = incomingObjects t.
Proof.
  unfold processIncompleteOp.
  destruct (incompleteOps t !! hash); [|done].
  by destruct (decide _).
Qed.







(** *** The sweep over the incomplete ops *)

Lemma elem_of_timeoutedIncompleteOps now ops h :
  h ∈ (timeoutedIncompleteOps now ops).*1 <->
  exists op, ops !! h = Some op /\ (io_timeout op >? now) = true.
Proof.
  unfold timeoutedIncompleteOps. rewrite list_elem_of_fmap. split.
  - intros ([h' op] & -> & Hin). apply elem_of_map_to_list in Hin.
    apply map_lookup_filter_Some in Hin as [Hop Ht]. eauto.
  - intros (op & Hop & Ht). exists (h, op). split; [done|].
    apply elem_of_map_to_list. by apply map_lookup_filter_Some.
Qed.

(** The entries the sweep keeps are those whose [timeout] is not greater
    than [now]; every entry whose deadline still lies ahead is removed. *)
Lemma opShippingInterval_incompleteOps now t h :
  incompleteOps (opShippingInterval now t) !! h =
  match incompleteOps t !! h with
  | Some op => if io_timeout op >? now then None else Some op
  | None => None
  end.
Proof.
  unfold opShippingInterval.
  destruct (sweepMovements now (outgoingObjects t)) as [outgoing ?].
  destruct (sweepMovements now (incomingObjects t)) as [incoming ?].
  cbn [incompleteOps]. rewrite lookup_deleteAll.
  destruct (decide (h ∈ (timeoutedIncompleteOps now (incompleteOps t)).*1))
    as [Hin|Hnin].
  - apply elem_of_timeoutedIncompleteOps in Hin as (op & -> & ->). done.
  - destruct (incompleteOps t !! h) as [op|] eqn:Hop; [|done].
    destruct (io_timeout op >? now) eqn:Ht; [|done].
    exfalso. apply Hnin, elem_of_timeoutedIncompleteOps. eauto.
Qed.

(** *** New remote states *)

Definition toFetch (store : Store) (t : Tables) (opHash : Hash) : bool :=
  if bool_decide (is_Some (incompleteOps t !! opHash)) then false
  else match load store opHash with
       | None => true
       | Some _ => false
       end.

Definition badOp (store : Store) (t : Tables) (opHash : Hash) : bool :=
  if bool_decide (is_Some (incompleteOps t !! opHash)) then false
  else match load store opHash with
       | None => false
       | Some op => negb (shouldAcceptMutationOp op)
       end.

Lemma inspectTerminalOps_spec store t ops :
  inspectTerminalOps store t ops
  = (List.filter (toFetch store t) ops, existsb (badOp store t) ops).
Proof.
  unfold inspectTerminalOps.
  assert (forall acc b,
    foldl (fun acc opHash =>
             let '(opsToFetch, badOps) := acc in
             let alreadyFetching :=
               bool_decide (is_Some (incompleteOps t !! opHash)) in
             if alreadyFetching then (opsToFetch, badOps)
             else
               match load store opHash with
               | None => (opsToFetch ++ [opHash], badOps)
               | Some op =>
                   if shouldAcceptMutationOp op then (opsToFetch, badOps)
                   else (opsToFetch, true)
               end)
          (acc, b) ops
    = (acc ++ List.filter (toFetch store t) ops,
       b || existsb (badOp store t) ops)) as H.
  { induction ops as [|h ops IH]; intros acc b; cbn [foldl List.filter existsb].
    - by rewrite app_nil_r, orb_false_r.
    - unfold toFetch at 1, badOp at 1.
      destruct (bool_decide (is_Some (incompleteOps t !! h))).
      + rewrite IH. done.
      + destruct (load store h) as [op|].
        * destruct (shouldAcceptMutationOp op); rewrite IH; cbn [negb orb].
          -- done.
          -- by rewrite orb_true_r.
        * rewrite IH, <- app_assoc. done. }
  apply H.
Qed.

(** C9.  Given a state object whose hash is the advertised one,
    [receiveRemoteState] returns true only if one of the peer's terminal
    ops is neither in the store nor among the incomplete ops and no stored
    terminal op fails [shouldAcceptMutationOp]; it returns false when all
    terminal ops are in the store; and without a state object it returns
    false, asking for the state when the hashes differ.  Ops that sit among
    the incomplete ops were accepted by class and target when they were put
    there, which is the hypothesis. *)
Theorem remote_state_is_new_only_if_ops_are_missing
    (store : Store) (ownStateHash : option Hash) (t : Tables)
    (sender : Endpoint) (stateHash : Hash) (state : option TerminalOpsState)
    (secret : string) (now : Z) :
  (forall h op,
      is_Some (incompleteOps t !! h) -> load store h = Some op ->
      shouldAcceptMutationOp op = true) ->
  let result :=
    receiveRemoteState store ownStateHash t sender stateHash state secret now
  in
  (forall s, state = Some s -> stateHashOf s = stateHash ->
     (result.1.1 = true ->
      (exists h, h ∈ terminalOps s /\ load store h = None /\
                 incompleteOps t !! h = None) /\
      (forall h op, h ∈ terminalOps s -> load store h = Some op ->
                    shouldAcceptMutationOp op = true)) /\
     ((forall h, h ∈ terminalOps s -> is_Some (load store h)) ->
      result.1.1 = false)) /\
  (state = None ->
   result.1.1 = false /\
   result.2 = if bool_decide (Some stateHash = ownStateHash) then []
              else [ActSend sender (RequestState objHash)]).
Proof.
  intros Hinc result. split.
  - intros s -> Hhash. subst result. unfold receiveRemoteState.
    rewrite bool_decide_eq_true_2 by done.
    rewrite inspectTerminalOps_spec.
    set (fetch := List.filter (toFetch store t) (terminalOps s)).
    set (bad := existsb (badOp store t) (terminalOps s)).
    assert (Hres : forall (x : ObjectMovements * list Action),
               ((let '(incoming, actions) := x in
                 ((0 <? Z.of_nat (length fetch)) && negb bad,
                  withIncoming t incoming, actions)).1.1)
               = (0 <? Z.of_nat (length fetch)) && negb bad)
      by (by intros [? ?]).
    rewrite Hres. clear Hres. split.
    + intros Hnew. apply andb_true_iff in Hnew as [Hlen Hbad].
      apply negb_true_iff in Hbad. split.
      * destruct fetch as [|h fetch'] eqn:Hf; [done|].
        assert (Hin : h ∈ fetch) by (rewrite Hf; left).
        apply list_elem_of_In, filter_In in Hin as [Hin Hf'].
        apply list_elem_of_In in Hin. exists h. split; [done|].
        unfold toFetch in Hf'.
        destruct (bool_decide (is_Some (incompleteOps t !! h))) eqn:Hb;
          [done|].
        apply bool_decide_eq_false in Hb.
        destruct (load store h); [done|]. split; [done|].
        by apply eq_None_not_Some.
      * intros h op Hin Hop.
        destruct (decide (is_Some (incompleteOps t !! h))) as [Hi|Hi];
          [by eapply Hinc|].
        destruct (shouldAcceptMutationOp op) eqn:Hacc; [done|].
        exfalso. assert (bad = true) as Hb; [|congruence].
        apply existsb_exists. exists h. split; [by apply list_elem_of_In|].
        unfold badOp. rewrite bool_decide_eq_false_2 by done.
        by rewrite Hop, Hacc.
    + intros Hall. assert (fetch = []) as ->; [|done].
      destruct fetch as [|h fetch'] eqn:Hf; [done|]. exfalso.
      assert (Hin : h ∈ fetch) by (rewrite Hf; left).
      apply list_elem_of_In, filter_In in Hin as [Hin Hf'].
      apply list_elem_of_In, Hall in Hin as [op Hop].
      unfold toFetch in Hf'. rewrite Hop in Hf'.
      by destruct (bool_decide (is_Some (incompleteOps t !! h))).
  - intros ->. done.
Qed.

(** *** Rule 1: only what hangs off an accepted op is sent *)

(** An op is accepted when its target is the synchronized object and its
    class is one of the accepted classes. *)
Lemma shouldAcceptMutationOp_spec (op : HashedObject) :
  shouldAcceptMutationOp op = true <->
  targetObjectHash op = Some objHash /\
  getClassName op ∈ acceptedMutationOpClasses.
Proof.
  unfold shouldAcceptMutationOp.
  rewrite andb_true_iff, bool_decide_eq_true, Z.leb_le.
  pose proof (JSArray.indexOf_neg_iff acceptedMutationOpClasses
                                      (getClassName op)) as Hidx.
  split.
  - intros [Ht Hc]. split; [done|].
    destruct (decide (getClassName op ∈ acceptedMutationOpClasses)); [done|].
    apply Hidx in n. lia.
  - intros [Ht Hc]. split; [done|].
    destruct (Z.le_gt_cases 0 (JSArray.indexOf acceptedMutationOpClasses
                                               (getClassName op)));
      [done|]. by apply Hidx in H.
Qed.

(** The request's chain leads from the requested hash, through literals
    of the store, to an op of the store that [shouldAcceptMutationOp]
    accepts. *)
Definition RootedInAcceptedOp (store : Store) (req : ObjectRequest) : Prop :=
  exists top op,
    ChainWalk (loadLiteral store) (req_hash req) (req_dependencyChain req) top
    /\ load store top = Some op
    /\ shouldAcceptMutationOp op = true.

Lemma existsb_dep_hash (deps : list Dependency) (h : Hash) :
  existsb (fun dep => bool_decide (dep_hash dep = h)) deps = true <->
  h ∈ dep_hash <$> deps.
Proof.
  rewrite existsb_exists, list_elem_of_fmap. split.
  - intros (dep & Hin & Hd). apply bool_decide_eq_true in Hd.
    exists dep. split; [done | by apply list_elem_of_In].
  - intros (dep & -> & Hin). exists dep. split; [by apply list_elem_of_In|].
    by apply bool_decide_eq_true.
Qed.

Lemma followDependencyChain_walk store chain :
  forall h top,
    followDependencyChain store h chain = (top, true, false) <->
    ChainWalk (loadLiteral store) h chain top.
Proof.
  induction chain as [|depHash rest IH]; intros h top; cbn [followDependencyChain].
  - split.
    + intros [= <-]. constructor.
    + intros Hw. inversion Hw; subst. done.
  - destruct (loadLiteral store depHash) as [depLiteral|] eqn:Hl.
    + destruct (existsb _ (dependencies depLiteral)) eqn:Hex.
      * rewrite IH. apply existsb_dep_hash in Hex. split.
        -- intros Hw. by econstructor.
        -- intros Hw. inversion Hw; subst. congruence.
      * split; [done|]. intros Hw. inversion Hw; subst.
        assert (depLiteral0 = depLiteral) as -> by congruence.
        match goal with H : h ∈ _ |- _ => apply existsb_dep_hash in H end.
        congruence.
    + split; [done|]. intros Hw. inversion Hw; subst. congruence.
Qed.

Lemma checkRequest_rooted store req :
  checkRequest store req = (true, false) <-> RootedInAcceptedOp store req.
Proof.
  unfold checkRequest, RootedInAcceptedOp.
  destruct (followDependencyChain store (req_hash req)
              (req_dependencyChain req)) as [[top valid] missing] eqn:Hf.
  split.
  - destruct missing; cbn [negb andb]; [by intros [= ? ?]|].
    destruct valid; [|by intros [= ? ?]].
    apply followDependencyChain_walk in Hf.
    destruct (load store top) as [op|] eqn:Hop; [|by intros [= ?]].
    destruct (shouldAcceptMutationOp op) eqn:Hacc; [|by intros [= ?]].
    intros _. eauto.
  - intros (top' & op & Hw & Hop & Hacc).
    apply followDependencyChain_walk in Hw. rewrite Hw in Hf.
    injection Hf as <- <- <-. cbn [negb andb]. by rewrite Hop, Hacc.
Qed.

(** The requests whose object goes into the reply. *)
Definition served (store : Store) (req : ObjectRequest) : bool :=
  (let '(valid, missing) := checkRequest store req in valid && negb missing)
  && bool_decide (is_Some (load store (req_hash req))).

Lemma served_spec store req :
  served store req = true <->
  RootedInAcceptedOp store req /\ is_Some (load store (req_hash req)).
Proof.
  unfold served. rewrite andb_true_iff, bool_decide_eq_true.
  rewrite <- checkRequest_rooted.
  destruct (checkRequest store req) as [[|] [|]]; cbn; split;
    intros [? ?]; done.
Qed.

(** The part of the accumulator that ends up in the reply. *)
Definition replyPart (acc : Sending)
  : Ctx * gset Hash * list OwnershipProof :=
  (sendingContext acc, provenReferences acc, ownershipProofs acc).

Lemma serveRequest_unserved store secret acc req :
  served store req = false ->
  exists acc', serveRequest store secret acc req = Normal acc' /\
               replyPart acc' = replyPart acc.
Proof.
  unfold served, serveRequest. destruct (checkRequest store req) as [valid missing].
  destruct (valid && negb missing) eqn:Hv; cbn [andb].
  - intros Hl. apply bool_decide_eq_false in Hl.
    destruct (load store (req_hash req)) as [obj|]; [by destruct Hl|].
    by eexists.
  - intros _. destruct (valid && missing); by eexists.
Qed.

Lemma serveRequest_served store secret acc1 acc2 req :
  served store req = true ->
  replyPart acc1 = replyPart acc2 ->
  match serveRequest store secret acc1 req,
        serveRequest store secret acc2 req with
  | Normal acc1', Normal acc2' =>
      replyPart acc1' = replyPart acc2' /\
      sendLater acc2' = sendLater acc2 /\
      exists obj, load store (req_hash req) = Some obj /\
                  sendingContext acc1' = toContext obj (sendingContext acc1)
  | Thrown e1, Thrown e2 => e1 = e2
  | _, _ => False
  end.
Proof.
  unfold served, serveRequest. destruct (checkRequest store req) as [valid missing].
  destruct (valid && negb missing) eqn:Hv; cbn [andb]; [|done].
  intros Hl Heq. apply bool_decide_eq_true in Hl as [obj Hobj].
  rewrite Hobj. destruct acc1 as [c1 p1 o1 l1], acc2 as [c2 p2 o2 l2].
  injection Heq as -> -> ->. cbn [sendingContext provenReferences ownershipProofs sendLater].
  destruct (last _ ≫= _) as [literal|]; [|done].
  destruct (proveReferences store secret (dependencies literal) p2 o2)
    as [[proven proofs]|e]; [|done].
  cbn. eauto.
Qed.

Lemma serveRequests_served_only store secret reqs :
  forall acc accF acc',
    replyPart acc = replyPart accF ->
    serveRequests store secret acc reqs = Normal acc' ->
    exists accF',
      serveRequests store secret accF (List.filter (served store) reqs)
      = Normal accF' /\
      replyPart accF' = replyPart acc' /\
      sendLater accF' = sendLater accF /\
      sendingContext acc' =
      foldl (fun c obj => toContext obj c) (sendingContext acc)
            (omap (fun r => load store (req_hash r))
                  (List.filter (served store) reqs)).
Proof.
  induction reqs as [|req reqs IH]; intros acc accF acc' Heq;
    cbn [serveRequests List.filter].
  - intros [= <-]. exists accF. by rewrite Heq.
  - destruct (served store req) eqn:Hs.
    + pose proof (serveRequest_served store secret acc accF req Hs Heq) as H.
      cbn [serveRequests omap foldl].
      destruct (serveRequest store secret acc req) as [acc1|e1];
        destruct (serveRequest store secret accF req) as [accF1|e2];
        try done.
      destruct H as (Heq1 & Hlater & obj & Hobj & Hctx).
      intros Hrest. destruct (IH acc1 accF1 acc' Heq1 Hrest)
        as (accF' & Hrun & Hpart & Hl & Hfold).
      exists accF'. split; [done|]. split; [done|]. split; [congruence|].
      cbn [omap list_omap]. rewrite Hobj. cbn [foldl]. by rewrite <- Hctx.
    + destruct (serveRequest_unserved store secret acc req Hs)
        as (acc1 & -> & Heq1).
      intros Hrest.
      destruct (IH acc1 accF acc' (eq_trans Heq1 Heq) Hrest)
        as (accF' & Hrun & Hpart & Hl & Hfold).
      exists accF'. repeat (split; [done|]).
      injection Heq1 as Hc _ _. by rewrite <- Hc.
Qed.

Lemma List_filter_sublist {A : Type} (f : A -> bool) (l : list A) :
  List.filter f l `sublist_of` l.
Proof.
  induction l as [|x l IH]; cbn [List.filter]; [constructor|].
  destruct (f x); [by apply sublist_skip | by apply sublist_cons].
Qed.

(** C1.  Whatever a [send-objs] reply carries comes from requests whose
    dependency chain walks, link by link through literals of the store, up
    to a stored op that [shouldAcceptMutationOp] accepts: the reply is the
    one the served requests alone would get, its context is made of their
    objects, and a request is served exactly if it is so rooted and its
    object is in the store. *)
Theorem only_rooted_requests_are_served
    (store : Store) (destination : Endpoint)
    (requestedObjects : list ObjectRequest) (secret : string)
    (actions : list Action) (later : list ObjectRequest) :
  tryToSendObjects store destination requestedObjects secret
  = Normal (actions, later) ->
  exists servedRequests,
    servedRequests `sublist_of` requestedObjects /\
    (forall req, req ∈ servedRequests <->
                 req ∈ requestedObjects /\ RootedInAcceptedOp store req /\
                 is_Some (load store (req_hash req))) /\
    tryToSendObjects store destination servedRequests secret
    = Normal (actions, []) /\
    (forall target sent proofs s,
        ActSend destination (SendObjs target sent proofs s) ∈ actions ->
        sent = Context.toLiteralContext _
                 (foldl (fun c obj => toContext obj c)
                        (Context.new HashedObject)
                        (omap (fun r => load store (req_hash r))
                              servedRequests))).
Proof.
  unfold tryToSendObjects.
  destruct (serveRequests store secret startSending requestedObjects)
    as [acc|e] eqn:Hrun; [|done].
  intros [= <- <-].
  destruct (serveRequests_served_only store secret requestedObjects
              startSending startSending acc eq_refl Hrun)
    as (accF & HrunF & Hpart & Hlater & Hfold).
  injection Hpart as Hc Hp Ho.
  exists (List.filter (served store) requestedObjects).
  split; [apply List_filter_sublist|]. split.
  - intros req. rewrite <- served_spec, list_elem_of_In, filter_In.
    by rewrite list_elem_of_In.
  - rewrite HrunF, Hc, Ho, Hlater. split; [done|].
    intros target sent proofs s Hin.
    destruct (Context.rootHashes HashedObject (sendingContext acc));
      [by apply not_elem_of_nil in Hin|].
    apply list_elem_of_singleton in Hin. inversion Hin; subst.
    by rewrite Hfold.
Qed.

(** *** Rule 2: omitted dependencies are proven or asked for *)

Definition literalIn (c : Ctx) (h : Hash) : option Literal :=
  Context.literals _ c !! h.

(** [d] is reached from [h] along the dependencies of literals of the
    context. *)
Inductive Reaches (c : Ctx) : Hash -> Hash -> Prop :=
| reaches_here h : Reaches c h h
| reaches_step h literal x d :
    literalIn c h = Some literal ->
    x ∈ dep_hash <$> dependencies literal ->
    Reaches c x d ->
    Reaches c h d.

(** A transitive dependency of [root] that the context has no literal
    for. *)
Definition MissingFrom (c : Ctx) (root d : Hash) : Prop :=
  Reaches c root d /\ literalIn c d = None.

Lemma getMissing_None missing h :
  Context.getMissing missing h = None <-> (h ∉ missing.*1).
Proof.
  induction missing as [|[h' ch] missing IH]; cbn.
  - split; [intros _; apply not_elem_of_nil | done].
  - destruct (decide (h' = h)) as [->|Hne].
    + split; [done|]. intros Hnin. exfalso. apply Hnin. left.
    + rewrite IH. split.
      * intros Hnin Hin. apply elem_of_cons in Hin as [?|?]; [congruence|done].
      * intros Hnin Hin. apply Hnin. by right.
Qed.

Lemma setMissing_keys missing h ch d :
  d ∈ (Context.setMissing missing h ch).*1 <-> d = h \/ d ∈ missing.*1.
Proof.
  induction missing as [|[h' ch'] missing IH]; cbn.
  - rewrite list_elem_of_singleton. split; [by left|].
    intros [?|Hin]; [done | by apply not_elem_of_nil in Hin].
  - destruct (decide (h' = h)) as [->|Hne]; cbn.
    + rewrite elem_of_cons. tauto.
    + rewrite !elem_of_cons, IH. tauto.
Qed.

Lemma setMissing_entries missing h ch d ch' :
  (d, ch') ∈ Context.setMissing missing h ch ->
  (d = h /\ ch' = ch) \/ (d, ch') ∈ missing.
Proof.
  induction missing as [|[h0 ch0] missing IH]; cbn.
  - intros Hin. apply list_elem_of_singleton in Hin. left. by injection Hin.
  - destruct (decide (h0 = h)) as [->|Hne].
    + intros Hin. apply elem_of_cons in Hin as [Heq|Hin].
      * left. by injection Heq.
      * right. by right.
    + intros Hin. apply elem_of_cons in Hin as [Heq|Hin].
      * right. rewrite Heq. left.
      * destruct (IH Hin) as [?|?]; [by left|]. right. by right.
Qed.

(** What a call of [findMissingDeps] promises about the map it returns,
    given the map it was handed. *)
Record MissingPost (c : Ctx) (root h : Hash)
    (before after : list (Hash * list Hash)) : Prop := {
  post_keys : forall d,
      d ∈ after.*1 <-> d ∈ before.*1 \/ MissingFrom c h d;
  post_entries : forall d ch,
      (d, ch) ∈ after ->
      (d, ch) ∈ before \/
      (literalIn c d = None /\ ChainWalk (literalIn c) d ch root)
}.

Lemma MissingFrom_no_literal c h d :
  literalIn c h = None -> MissingFrom c h d <-> d = h.
Proof.
  intros Hnone. split.
  - intros [Hr _]. inversion Hr; subst; [done | congruence].
  - intros ->. split; [constructor | done].
Qed.

Lemma MissingFrom_literal c h literal d :
  literalIn c h = Some literal ->
  MissingFrom c h d <->
  exists x, x ∈ dep_hash <$> dependencies literal /\ MissingFrom c x d.
Proof.
  intros Hlit. split.
  - intros [Hr Hnone]. inversion Hr; subst; [congruence|].
    assert (literal0 = literal) as -> by congruence.
    eexists. split; [done|]. by split.
  - intros (x & Hx & Hr & Hnone). split; [|done]. by econstructor.
Qed.

Section FindMissingDeps.

Variable c : Ctx.
Variable root : Hash.

(** The literals of the context do not depend on themselves: some rank
    goes down along every dependency. *)
Variable rank : Hash -> nat.
Hypothesis rank_decreases : forall h literal x,
    literalIn c h = Some literal ->
    x ∈ dep_hash <$> dependencies literal ->
    (rank x < rank h)%nat.

Lemma findMissingDeps_post fuel :
  forall h chain missing,
    (rank h < fuel)%nat ->
    ChainWalk (literalIn c) h chain root ->
    exists missing',
      Context.findMissingDeps _ fuel c h chain missing = Some missing' /\
      MissingPost c root h missing missing'.
Proof.
  induction fuel as [|fuel IH]; intros h chain missing Hfuel Hwalk; [lia|].
  cbn [Context.findMissingDeps].
  change (Context.literals HashedObject c !! h) with (literalIn c h).
  destruct (literalIn c h) as [literal|] eqn:Hlit.
  - (* the loop over the dependencies of the literal *)
    assert (Hloop : forall deps missing0,
      (forall x, x ∈ dep_hash <$> deps ->
                 x ∈ dep_hash <$> dependencies literal) ->
      exists missing',
        foldl (fun acc dep =>
                 match acc with
                 | None => None
                 | Some missing =>
                     Context.findMissingDeps _ fuel c (dep_hash dep)
                                             (h :: chain) missing
                 end) (Some missing0) deps = Some missing' /\
        (forall d, d ∈ missing'.*1 <->
                   d ∈ missing0.*1 \/
                   exists x, x ∈ dep_hash <$> deps /\ MissingFrom c x d) /\
        (forall d ch, (d, ch) ∈ missing' ->
                      (d, ch) ∈ missing0 \/
                      (literalIn c d = None /\
                       ChainWalk (literalIn c) d ch root))).
    { induction deps as [|dep deps IHdeps]; intros missing0 Hsub.
      - exists missing0. cbn. split; [done|]. split; [|by left].
        intros d. split; [by left|]. intros [?|(x & Hx & _)]; [done|].
        by apply not_elem_of_nil in Hx.
      - cbn [foldl].
        assert (Hdep : dep_hash dep ∈ dep_hash <$> dependencies literal)
          by (apply Hsub; cbn; left).
        destruct (IH (dep_hash dep) (h :: chain) missing0) as (m1 & -> & [Hk1 He1]).
        { pose proof (rank_decreases h literal _ Hlit Hdep). lia. }
        { by econstructor. }
        destruct (IHdeps m1) as (m2 & -> & Hk2 & He2).
        { intros x Hx. apply Hsub. cbn. by right. }
        exists m2. split; [done|]. split.
        + intros d. rewrite Hk2, Hk1. cbn. split.
          * intros [[?|?]|(x & Hx & Hm)]; [by left | | ].
            -- right. exists (dep_hash dep). split; [left | done].
            -- right. exists x. split; [by right | done].
          * intros [?|(x & Hx & Hm)]; [by left; left|].
            apply elem_of_cons in Hx as [->|Hx]; [by left; right|].
            right. eauto.
        + intros d ch Hin. destruct (He2 d ch Hin) as [Hin1|?]; [|by right].
          apply He1 in Hin1. done. }
    destruct (Hloop (dependencies literal) missing) as (m' & -> & Hk & He);
      [done|].
    exists m'. split; [done|]. split; [|done].
    intros d. rewrite Hk. by rewrite (MissingFrom_literal c h literal d Hlit).
  - (* no literal: the hash itself is missing *)
    assert (Hset : MissingPost c root h missing
                     (Context.setMissing missing h chain)).
    { split.
      - intros d. rewrite setMissing_keys, MissingFrom_no_literal by done. tauto.
      - intros d ch Hin. apply setMissing_entries in Hin as [[-> ->]|?];
          [by right | by left]. }
    destruct (Context.getMissing missing h) as [prevChain|] eqn:Hprev.
    + destruct (length chain <? length prevChain)%nat; [by eexists|].
      exists missing. split; [done|]. split; [|by left].
      intros d. rewrite MissingFrom_no_literal by done.
      split; [by left|]. intros [?| ->]; [done|].
      destruct (decide (h ∈ missing.*1)) as [?|Hnin]; [done|].
      apply getMissing_None in Hnin. congruence.
    + by eexists.
Qed.

End FindMissingDeps.

(** A chain built over the literals of a context is a chain over the
    literals of any store that holds these literals: the chains that
    [findMissingDeps] builds are chains that [followDependencyChain] can
    follow at a sender that holds what it sent. *)
Lemma ChainWalk_mono (lookup1 lookup2 : Hash -> option Literal) h chain top :
  (forall x literal, lookup1 x = Some literal -> lookup2 x = Some literal) ->
  ChainWalk lookup1 h chain top -> ChainWalk lookup2 h chain top.
Proof.
  intros Hsub. induction 1 as [h|h depHash depLiteral rest top Hl Hin _ IH].
  - constructor.
  - econstructor; eauto.
Qed.

Definition requestFor (entry : Hash * list Hash) : ObjectRequest :=
  {| req_hash := entry.1; req_dependencyChain := entry.2 |}.





Lemma receiveRoot_unexpected
    fuel store source proofFor secret freshSecret now t context actions hash :
  incomingObjects t !! hash ≫= (.!! source) = None ->
  exists actions',
    receiveRoot fuel store source proofFor secret freshSecret now
                (t, context, actions) hash
    = Some (t, context, actions') /\
    forall destination msg, ActSend destination msg ∈ actions' ->
                            ActSend destination msg ∈ actions.
Proof.
  intros Hinc. unfold receiveRoot. rewrite Hinc.
  destruct (load store hash); eexists; (split; [done|]); [done|].
  intros destination msg Hin. apply elem_of_app in Hin as [?|Hin]; [done|].
  apply list_elem_of_singleton in Hin. done.
Qed.


(** *** Object movements: registration and expiry *)

(** The movement on record for a hash and an endpoint. *)
Definition movementAt (m : ObjectMovements) (h : Hash) (ep : Endpoint)
  : option Movement :=
  m !! h ≫= (.!! ep).

Lemma movementAt_insert m h d h' ep :
  movementAt (<[h := d]> m) h' ep
  = if decide (h = h') then d !! ep else movementAt m h' ep.
Proof.
  unfold movementAt. destruct (decide (h = h')) as [<-|Hne].
  - by rewrite lookup_insert_eq.
  - by rewrite lookup_insert_ne.
Qed.

Lemma movementAt_default m h ep :
  default ∅ (m !! h) !! ep = movementAt m h ep.
Proof. unfold movementAt. by destruct (m !! h). Qed.

(** X10.  [insertObjectMovement] registers a movement for a hash and an
    endpoint only if none is on record for them: it returns true exactly in
    that case; a movement already on record stays as it is, deadline
    included, and the table is then unchanged; every other pair of hash and
    endpoint keeps what it had; and registering the same pair again, with
    whatever chain, secret and deadline, is refused. *)
Theorem insertObjectMovement_first_registration_wins
    (allMovements : ObjectMovements) (endpoint : Endpoint) (hash : Hash)
    (dependencyChain : list Hash) (secret : string) (timeout now : Z) :
  let result :=
    insertObjectMovement allMovements endpoint hash dependencyChain secret
                         timeout now in
  (result.1 = true <-> movementAt allMovements hash endpoint = None) /\
  (result.1 = false -> result.2 = allMovements) /\
  movementAt result.2 hash endpoint
  = Some (default {| mv_dependencyChain := dependencyChain;
                     mv_secret := secret;
                     mv_timeout := now + timeout * 1000 |}
                  (movementAt allMovements hash endpoint)) /\
  (forall h ep, (h, ep) <> (hash, endpoint) ->
                movementAt result.2 h ep = movementAt allMovements h ep) /\
  (forall chain' secret' timeout' now',
      insertObjectMovement result.2 endpoint hash chain' secret' timeout' now'
      = (false, result.2)).
Proof.
  intros result.
  assert (Hat : movementAt result.2 hash endpoint
                = Some (default {| mv_dependencyChain := dependencyChain;
                                   mv_secret := secret;
                                   mv_timeout := now + timeout * 1000 |}
                                (movementAt allMovements hash endpoint))).
  { subst result. unfold insertObjectMovement.
    rewrite movementAt_default.
    destruct (movementAt allMovements hash endpoint) as [mv|] eqn:Hmv.
    - rewrite bool_decide_eq_true_2 by eauto. cbn [snd].
      rewrite movementAt_insert, decide_True by done.
      by rewrite movementAt_default.
    - rewrite bool_decide_eq_false_2 by (by intros [? ?]). cbn [snd].
      rewrite movementAt_insert, decide_True by done.
      by rewrite lookup_insert_eq. }
  assert (Hsame : result.1 = false -> result.2 = allMovements).
  { subst result. unfold insertObjectMovement.
    destruct (bool_decide (is_Some (default ∅ (allMovements !! hash)
                                      !! endpoint))) eqn:Hb; [|done].
    intros _. cbn [snd]. apply bool_decide_eq_true in Hb as [mv Hmv].
    destruct (allMovements !! hash) as [d|] eqn:Hd; [|done].
    by apply insert_id. }
  split; [|split; [exact Hsame|split; [exact Hat|split]]].
  - subst result. unfold insertObjectMovement.
    rewrite movementAt_default.
    destruct (movementAt allMovements hash endpoint) as [mv|].
    + rewrite bool_decide_eq_true_2 by eauto. done.
    + rewrite bool_decide_eq_false_2 by (by intros [? ?]). done.
  - intros h ep Hne. subst result. unfold insertObjectMovement.
    destruct (bool_decide (is_Some (default ∅ (allMovements !! hash)
                                      !! endpoint))); cbn [snd];
      rewrite movementAt_insert.
    + destruct (decide (hash = h)) as [<-|?]; [|done].
      by rewrite movementAt_default.
    + destruct (decide (hash = h)) as [<-|?]; [|done].
      rewrite lookup_insert_ne by (intros <-; done).
      by rewrite movementAt_default.
  - intros chain' secret' timeout' now'.
    unfold insertObjectMovement at 1.
    rewrite movementAt_default, Hat.
    rewrite bool_decide_eq_true_2 by eauto. f_equal.
    apply insert_id. unfold movementAt in Hat.
    destruct (result.2 !! hash) as [d|] eqn:Hd; [done|done].
Qed.

(** What the sweep leaves of the movements of one hash. *)
Lemma lookup_deleteAll_outdated now (destinations : gmap Endpoint Movement) ep :
  deleteAll (outdatedEndpoints now destinations) destinations !! ep
  = match destinations !! ep with
    | Some mv => if now >? mv_timeout mv then None else Some mv
    | None => None
    end.
Proof.
  rewrite lookup_deleteAll.
  assert (Hin : ep ∈ outdatedEndpoints now destinations <->
                exists mv, destinations !! ep = Some mv /\
                           (now >? mv_timeout mv) = true).
  { unfold outdatedEndpoints. rewrite list_elem_of_fmap. split.
    - intros ([ep' mv] & -> & Hin). apply elem_of_map_to_list in Hin.
      apply map_lookup_filter_Some in Hin as [? ?]. eauto.
    - intros (mv & Hmv & Ht). exists (ep, mv). split; [done|].
      apply elem_of_map_to_list. by apply map_lookup_filter_Some. }
  destruct (decide (ep ∈ outdatedEndpoints now destinations)) as [Ho|Ho].
  - apply Hin in Ho as (mv & -> & ->). done.
  - destruct (destinations !! ep) as [mv|] eqn:Hmv; [|done].
    destruct (now >? mv_timeout mv) eqn:Ht; [|done].
    exfalso. apply Ho, Hin. eauto.
Qed.

Lemma sweepMovements_lookup now objs h :
  (sweepMovements now objs).1 !! h
  = match objs !! h with
    | Some d =>
        let d' := deleteAll (outdatedEndpoints now d) d in
        if decide (size d' = 0%nat) then None else Some d'
    | None => None
    end.
Proof.
  unfold sweepMovements. cbn [fst]. rewrite lookup_deleteAll.
  set (objs1 := (fun destinations =>
                   deleteAll (outdatedEndpoints now destinations) destinations)
                  <$> objs).
  assert (Hin : h ∈ (map_to_list
                       (filter (fun kv => size kv.2 = 0%nat) objs1)).*1 <->
                exists d, objs1 !! h = Some d /\ size d = 0%nat).
  { rewrite list_elem_of_fmap. split.
    - intros ([h' d] & -> & Hin). apply elem_of_map_to_list in Hin.
      apply map_lookup_filter_Some in Hin as [? ?]. eauto.
    - intros (d & Hd & Hs). exists (h, d). split; [done|].
      apply elem_of_map_to_list. by apply map_lookup_filter_Some. }
  assert (H1 : objs1 !! h
               = (fun d => deleteAll (outdatedEndpoints now d) d)
                   <$> objs !! h) by apply lookup_fmap.
  destruct (decide (h ∈ _)) as [Ho|Ho].
  - apply Hin in Ho as (d & Hd & Hs). rewrite H1 in Hd.
    destruct (objs !! h) as [d0|]; [|done]. injection Hd as <-.
    cbn zeta. by rewrite decide_True.
  - rewrite H1. destruct (objs !! h) as [d0|] eqn:Hd0; [|done].
    cbn [fmap option_fmap option_map]. cbn zeta.
    destruct (decide (size (deleteAll (outdatedEndpoints now d0) d0) = 0%nat))
      as [Hs|Hs]; [|done].
    exfalso. apply Ho, Hin. rewrite H1. eauto.
Qed.

(** X11.  The sweep of a movements table removes exactly the movements
    whose deadline has passed ([now > timeout]) and keeps the others as
    they are; no hash is left with an empty set of movements; the hashes it
    reports are those it removes altogether; and a second sweep at the same
    instant changes nothing. *)
Theorem sweepMovements_keeps_exactly_the_live_movements
    (now : Z) (objs : ObjectMovements) :
  let result := sweepMovements now objs in
  (forall h ep,
      movementAt result.1 h ep
      = match movementAt objs h ep with
        | Some mv => if now >? mv_timeout mv then None else Some mv
        | None => None
        end) /\
  (forall h d, result.1 !! h = Some d -> d <> ∅) /\
  (forall h, h ∈ result.2 <->
             is_Some (objs !! h) /\ result.1 !! h = None) /\
  (sweepMovements now result.1).1 = result.1.
Proof.
  intros result.
  assert (Hat : forall h ep,
             movementAt result.1 h ep
             = match movementAt objs h ep with
               | Some mv => if now >? mv_timeout mv then None else Some mv
               | None => None
               end).
  { intros h ep. subst result. unfold movementAt.
    rewrite sweepMovements_lookup.
    destruct (objs !! h) as [d|]; [|done]. cbn zeta.
    pose proof (lookup_deleteAll_outdated now d ep) as Hl.
    destruct (decide (size (deleteAll (outdatedEndpoints now d) d) = 0%nat))
      as [Hs|Hs]; cbn [mbind option_bind]; [|done].
    apply map_size_empty_iff in Hs. rewrite Hs, lookup_empty in Hl.
    done. }
  assert (Hne : forall h d, result.1 !! h = Some d -> d <> ∅).
  { intros h d. subst result. rewrite sweepMovements_lookup.
    destruct (objs !! h) as [d0|]; [|done]. cbn zeta.
    destruct (decide _) as [|Hs]; [done|]. intros [= <-] He.
    apply Hs. rewrite He. apply map_size_empty. }
  split; [exact Hat|]. split; [exact Hne|]. split.
  - intros h. subst result. rewrite sweepMovements_lookup.
    unfold sweepMovements. cbn [snd].
    rewrite list_elem_of_fmap. split.
    + intros ([h' d] & -> & Hin). apply elem_of_map_to_list in Hin.
      apply map_lookup_filter_Some in Hin as [Hd Hs]. cbn in *.
      rewrite lookup_fmap in Hd.
      destruct (objs !! h') as [d0|]; [|done]. injection Hd as <-.
      split; [eauto|]. cbn zeta. by rewrite decide_True.
    + intros [[d0 Hd0] Hnone]. rewrite Hd0 in Hnone. cbn zeta in Hnone.
      destruct (decide _) as [Hs|]; [|done].
      exists (h, deleteAll (outdatedEndpoints now d0) d0). split; [done|].
      apply elem_of_map_to_list. apply map_lookup_filter_Some.
      split; [|done]. by rewrite lookup_fmap, Hd0.
  - apply map_eq. intros h. rewrite sweepMovements_lookup.
    destruct (result.1 !! h) as [d|] eqn:Hd; [|done]. cbn zeta.
    assert (Hfix : deleteAll (outdatedEndpoints now d) d = d).
    { apply map_eq. intros ep. rewrite lookup_deleteAll_outdated.
      destruct (d !! ep) as [mv|] eqn:Hmv; [|done].
      destruct (now >? mv_timeout mv) eqn:Ht; [|done].
      exfalso. specialize (Hat h ep). unfold movementAt at 1 in Hat.
      rewrite Hd in Hat. cbn in Hat. rewrite Hmv in Hat.
      destruct (movementAt objs h ep) as [mv0|]; [|done].
      destruct (now >? mv_timeout mv0) eqn:Ht0; [done|]. congruence. }
    rewrite Hfix. rewrite decide_False; [done|].
    intros Hs. apply map_size_empty_iff in Hs. by eapply Hne.
Qed.

(** *** Requests that are sent are expected *)

(** The movement [expectIncomingObject] records for a request. *)
Definition expectedMovement (secret : string) (now : Z) (req : ObjectRequest)
  : Movement :=
  {| mv_dependencyChain := req_dependencyChain req;
     mv_secret := secret;
     mv_timeout := now + receiveTimeout params * 1000 |}.

Lemma requestLoop_registered destination secret now incoming0 reqs :
  let r := foldl (requestStep destination secret now) (incoming0, []) reqs in
  r.2 `sublist_of` reqs /\
  NoDup (req_hash <$> r.2) /\
  (forall req, req ∈ r.2 ->
     movementAt incoming0 (req_hash req) destination = None /\
     movementAt r.1 (req_hash req) destination
     = Some (expectedMovement secret now req)) /\
  (forall h ep mv, movementAt incoming0 h ep = Some mv ->
                   movementAt r.1 h ep = Some mv) /\
  (forall h ep mv,
      movementAt r.1 h ep = Some mv ->
      movementAt incoming0 h ep = Some mv \/
      (ep = destination /\
       exists req, req ∈ r.2 /\ req_hash req = h /\
                   mv = expectedMovement secret now req)).
Proof.
  induction reqs as [|req reqs IH] using rev_ind.
  - cbn. split; [done|]. split; [constructor|].
    split; [by intros ? ?%not_elem_of_nil|]. split; [done|]. by left.
  - cbn zeta. rewrite foldl_app. cbn [foldl].
    destruct (foldl (requestStep destination secret now) (incoming0, []) reqs)
      as [inc news].
    cbn zeta in IH. cbn [fst snd] in IH.
    destruct IH as (Hsub & Hnd & Hnew & Hkept & Hfrom).
    rewrite requestStep_unfold.
    destruct (registers inc destination (req_hash req)) eqn:Hreg; cbn [fst snd].
    2:{ split; [by apply sublist_inserts_r|]. done. }
    apply andb_true_iff in Hreg as [Hfresh _].
    apply bool_decide_eq_true in Hfresh. rewrite movementAt_default in Hfresh.
    assert (Hnotin : req_hash req ∉ req_hash <$> news).
    { intros (r' & Heq & Hin)%list_elem_of_fmap.
      destruct (Hnew r' Hin) as [_ Hr']. rewrite <- Heq in Hr'. congruence. }
    assert (Hat : forall h ep,
      movementAt (<[req_hash req :=
                      <[destination := expectedMovement secret now req]>
                        (default ∅ (inc !! req_hash req))]> inc) h ep
      = if decide (req_hash req = h /\ destination = ep)
        then Some (expectedMovement secret now req)
        else movementAt inc h ep).
    { intros h ep. rewrite movementAt_insert.
      destruct (decide (req_hash req = h)) as [<-|Hne].
      - destruct (decide (destination = ep)) as [<-|Hne'].
        + rewrite lookup_insert_eq. by rewrite decide_True.
        + rewrite lookup_insert_ne by done. rewrite movementAt_default.
          by rewrite decide_False by (intros [? ?]; done).
      - by rewrite decide_False by (intros [? ?]; done). }
    change {| mv_dependencyChain := req_dependencyChain req;
              mv_secret := secret;
              mv_timeout := now + receiveTimeout params * 1000 |}
      with (expectedMovement secret now req).
    split; [by apply sublist_app|]. split; [|split; [|split]].
    + rewrite fmap_app. apply NoDup_app. split; [done|].
      split; [|apply NoDup_singleton].
      intros h Hh Hh'. apply list_elem_of_singleton in Hh'. by subst h.
    + intros r' Hin. rewrite Hat.
      apply elem_of_app in Hin as [Hin|Hin].
      * destruct (Hnew r' Hin) as [H0 H1]. split; [done|].
        rewrite decide_False; [done|]. intros [Heq _].
        apply Hnotin. rewrite Heq. apply list_elem_of_fmap. eauto.
      * apply list_elem_of_singleton in Hin as ->.
        rewrite decide_True by done. split; [|done].
        destruct (movementAt incoming0 (req_hash req) destination) as [mv|]
          eqn:Hmv; [|done].
        apply Hkept in Hmv. congruence.
    + intros h ep mv Hmv. rewrite Hat.
      rewrite decide_False; [by apply Hkept|].
      intros [<- <-]. apply Hkept in Hmv. congruence.
    + intros h ep mv. rewrite Hat.
      destruct (decide (req_hash req = h /\ destination = ep)) as [[<- <-]|_].
      * intros [= <-]. right. split; [done|]. exists req.
        split; [|done]. apply elem_of_app. right. left.
      * intros Hmv. destruct (Hfrom h ep mv Hmv) as [?|(-> & r' & Hin & ? & ?)];
          [by left|].
        right. split; [done|]. exists r'. split; [|done].
        apply elem_of_app. by left.
Qed.

(** X12.  Whatever [sendRequestObjsMessage] sends is one [request-objs]
    message to the destination, for this object and with the secret drawn
    for it.  It asks for a non-empty part of the requests it was given, no
    hash twice, none of them on record for the destination before; and
    every request in it is on record afterwards as expected from the
    destination, with the chain of the request and the secret of the
    message, which is what [receiveObjects] checks when the reply comes.
    The movements on record before stay, and no other movement is
    added. *)
Theorem every_request_sent_is_expected
    (incoming : ObjectMovements) (destination : Endpoint)
    (reqs : list ObjectRequest) (secret : string) (now : Z) :
  let result := sendRequestObjsMessage incoming destination reqs secret now in
  (exists requested,
      requested `sublist_of` reqs /\
      NoDup (req_hash <$> requested) /\
      result.2 = match requested with
                 | [] => []
                 | _ => [ActSend destination
                                 (RequestObjs objHash requested secret)]
                 end /\
      (forall req, req ∈ requested ->
         movementAt incoming (req_hash req) destination = None /\
         movementAt result.1 (req_hash req) destination
         = Some (expectedMovement secret now req)) /\
      (forall h ep mv,
          movementAt result.1 h ep = Some mv ->
          movementAt incoming h ep = Some mv \/
          (ep = destination /\
           exists req, req ∈ requested /\ req_hash req = h /\
                       mv = expectedMovement secret now req))) /\
  (forall h ep mv, movementAt incoming h ep = Some mv ->
                   movementAt result.1 h ep = Some mv).
Proof.
  intros result. subst result. unfold sendRequestObjsMessage.
  pose proof (requestLoop_registered destination secret now incoming reqs)
    as H.
  cbn zeta in H.
  destruct (foldl (requestStep destination secret now) (incoming, []) reqs)
    as [inc news].
  cbn [fst snd] in *. destruct H as (Hsub & Hnd & Hnew & Hkept & Hfrom).
  split; [|exact Hkept]. exists news. done.
Qed.

(** *** Ownership proofs *)

(** The proofs gathered so far are for different hashes, the hashes on
    record as proven are theirs, and each proof is the hash of the stored
    object keyed with the secret. *)
Definition ProofsHonest (store : Store) (secret : string)
    (proven : gset Hash) (proofs : list OwnershipProof) : Prop :=
  NoDup (proof_hash <$> proofs) /\
  (forall h, h ∈ proven <-> h ∈ proof_hash <$> proofs) /\
  (forall p, p ∈ proofs ->
     exists ref, load store (proof_hash p) = Some ref /\
                 ownershipProofHash p = hashWithSeed ref secret).

Lemma proveReferences_honest store secret deps :
  forall proven proofs proven' proofs',
    ProofsHonest store secret proven proofs ->
    proveReferences store secret deps proven proofs
    = Normal (proven', proofs') ->
    ProofsHonest store secret proven' proofs'.
Proof.
  induction deps as [|dep deps IH]; intros proven proofs proven' proofs' Hinv;
    cbn [proveReferences].
  - by intros [= <- <-].
  - destruct (decide (dep_type dep = reference)); [|by apply IH].
    destruct (decide (dep_hash dep ∈ proven)) as [|Hnew]; [by apply IH|].
    destruct (load store (dep_hash dep)) as [ref|] eqn:Href; [|done].
    apply IH. destruct Hinv as (Hnd & Hset & Hproofs).
    split; [|split].
    + rewrite fmap_app. apply NoDup_app. split; [done|].
      split; [|apply NoDup_singleton].
      intros h Hh Hh'. apply list_elem_of_singleton in Hh'. cbn in Hh'.
      subst h. by apply Hnew, Hset.
    + intros h. rewrite elem_of_union, elem_of_singleton, fmap_app,
        elem_of_app, Hset. cbn. rewrite list_elem_of_singleton.
      split; intros [?|?]; eauto.
    + intros p Hp. apply elem_of_app in Hp as [Hp|Hp]; [by apply Hproofs|].
      apply list_elem_of_singleton in Hp as ->. cbn. eauto.
Qed.

Lemma serveRequest_honest store secret acc req acc' :
  ProofsHonest store secret (provenReferences acc) (ownershipProofs acc) ->
  serveRequest store secret acc req = Normal acc' ->
  ProofsHonest store secret (provenReferences acc') (ownershipProofs acc').
Proof.
  intros Hinv. unfold serveRequest.
  destruct (checkRequest store req) as [valid missing].
  destruct (valid && negb missing).
  - destruct (load store (req_hash req)) as [obj|]; [|by intros [= <-]].
    destruct (last _ ≫= _) as [literal|]; [|done].
    destruct (proveReferences store secret (dependencies literal)
                (provenReferences acc) (ownershipProofs acc))
      as [[proven proofs]|e] eqn:Hp; [|done].
    intros [= <-]. cbn. by eapply proveReferences_honest.
  - destruct (valid && missing); by intros [= <-].
Qed.

Lemma serveRequests_honest store secret reqs :
  forall acc acc',
    ProofsHonest store secret (provenReferences acc) (ownershipProofs acc) ->
    serveRequests store secret acc reqs = Normal acc' ->
    ProofsHonest store secret (provenReferences acc') (ownershipProofs acc').
Proof.
  induction reqs as [|req reqs IH]; intros acc acc' Hinv; cbn [serveRequests].
  - by intros [= <-].
  - destruct (serveRequest store secret acc req) as [acc1|e] eqn:E; [|done].
    apply IH. by eapply serveRequest_honest.
Qed.

Lemma ownershipProofForHash_lookup (proofs : list OwnershipProof) p :
  NoDup (proof_hash <$> proofs) -> p ∈ proofs ->
  ownershipProofForHash proofs !! proof_hash p = Some (ownershipProofHash p).
Proof.
  unfold ownershipProofForHash.
  induction proofs as [|q proofs IH] using rev_ind; intros Hnd Hin.
  - by apply not_elem_of_nil in Hin.
  - rewrite foldl_app. cbn [foldl].
    rewrite fmap_app in Hnd. apply NoDup_app in Hnd as (Hnd & Hdisj & _).
    apply elem_of_app in Hin as [Hin|Hin].
    + rewrite lookup_insert_ne; [by apply IH|].
      intros Heq. apply (Hdisj (proof_hash p));
        [apply list_elem_of_fmap; eauto|].
      rewrite <- Heq. cbn. left.
    + apply list_elem_of_singleton in Hin as ->. by rewrite lookup_insert_eq.
Qed.

(** X13.  A [send-objs] reply of [tryToSendObjects] goes to the requesting
    peer, for this object, under the secret of the request.  Its ownership
    proofs are for different hashes, and each one is the hash, keyed with
    that secret, of the object the store holds under the hash; so a
    receiver that holds the same object under the hash finds the proof
    correct when it checks it the way [receiveObjects] does. *)
Theorem ownership_proofs_are_keyed_hashes_of_stored_objects
    (store : Store) (destination : Endpoint)
    (requestedObjects : list ObjectRequest) (secret : string)
    (actions : list Action) (later : list ObjectRequest) :
  tryToSendObjects store destination requestedObjects secret
  = Normal (actions, later) ->
  (length actions <= 1)%nat /\
  forall d msg,
    ActSend d msg ∈ actions ->
    d = destination /\
    exists sent proofs,
      msg = SendObjs objHash sent proofs (Some secret) /\
      lc_rootHashes sent <> [] /\
      NoDup (proof_hash <$> proofs) /\
      (forall p, p ∈ proofs ->
         exists ref, load store (proof_hash p) = Some ref /\
                     ownershipProofHash p = hashWithSeed ref secret) /\
      (forall receiverStore p,
          p ∈ proofs ->
          load receiverStore (proof_hash p) = load store (proof_hash p) ->
          provenLocally receiverStore secret (ownershipProofForHash proofs)
                        (proof_hash p)
          = load store (proof_hash p)).
Proof.
  unfold tryToSendObjects.
  destruct (serveRequests store secret startSending requestedObjects)
    as [acc|e] eqn:Hrun; [|done].
  intros [= <- <-].
  assert (Hinv : ProofsHonest store secret (provenReferences acc)
                              (ownershipProofs acc)).
  { eapply serveRequests_honest; [|exact Hrun]. cbn.
    split; [constructor|]. split; [|by intros ? ?%not_elem_of_nil].
    intros h. cbn. split; [by intros ?%not_elem_of_empty|].
    by intros ?%not_elem_of_nil. }
  destruct Hinv as (Hnd & _ & Hproofs).
  destruct (Context.rootHashes HashedObject (sendingContext acc))
    as [|root roots] eqn:Hroots.
  { split; [cbn; lia|]. by intros ? ? ?%not_elem_of_nil. }
  split; [cbn; lia|]. intros d msg Hin.
  apply list_elem_of_singleton in Hin. injection Hin as -> ->.
  split; [done|]. eexists _, _. split; [done|].
  split; [cbn; by rewrite Hroots|]. split; [done|]. split; [done|].
  intros receiverStore p Hp Hsame. unfold provenLocally.
  destruct (Hproofs p Hp) as (ref & Href & Hhash).
  rewrite Hsame, Href, (ownershipProofForHash_lookup _ p Hnd Hp), Hhash.
  by rewrite bool_decide_eq_true_2.
Qed.

(** *** Requests that cannot be served yet *)

(** [sendOrScheduleObjects].  The calls of [Date.now()] of one run are
    taken at the one instant [now]. *)
Definition sendOrScheduleObjects (store : Store) (outgoing : ObjectMovements)
    (destination : Endpoint) (requestedObjects : list ObjectRequest)
    (secret : string) (now : Z)
  : Completion (ObjectMovements * list Action) :=
  match tryToSendObjects store destination requestedObjects secret with
  | Thrown e => Thrown e
  | Normal (actions, missing) =>
      Normal
        (foldl (fun outgoing req =>
                  (scheduleOutgoingObject outgoing destination (req_hash req)
                     (req_dependencyChain req) secret now).2)
               outgoing missing,
         actions)
  end.

(** The requests [tryToSendObjects] hands back: every link that could be
    checked is in order, and a literal of the chain, the op at its end or
    the requested object itself is not in the store. *)
Definition deferred (store : Store) (req : ObjectRequest) : bool :=
  let '(valid, missing) := checkRequest store req in
  valid && (missing || negb (bool_decide (is_Some (load store (req_hash req))))).







(** *** The chains [findMissingDeps] picks *)

Lemma foldl_findMissingDeps_None fuel (c : Ctx) h chain deps :
  foldl (fun acc dep =>
           match acc with
           | None => None
           | Some missing =>
               Context.findMissingDeps HashedObject fuel c (dep_hash dep)
                                       (h :: chain) missing
           end) None deps = None.
Proof. induction deps as [|dep deps IH]; [done | exact IH]. Qed.

(** Whatever a call of [findMissingDeps] that comes back adds to the map
    is a hash without literal, filed with a chain that walks from it up to
    the root. *)
Lemma findMissingDeps_sound (c : Ctx) (root : Hash) fuel :
  forall h chain missing missing',
    Context.findMissingDeps _ fuel c h chain missing = Some missing' ->
    ChainWalk (literalIn c) h chain root ->
    forall d ch, (d, ch) ∈ missing' ->
                 (d, ch) ∈ missing \/
                 (literalIn c d = None /\ ChainWalk (literalIn c) d ch root).
Proof.
  induction fuel as [|fuel IH]; intros h chain missing missing'; [done|].
  cbn [Context.findMissingDeps].
  change (Context.literals HashedObject c !! h) with (literalIn c h).
  destruct (literalIn c h) as [literal|] eqn:Hlit.
  - intros Hrun Hwalk.
    assert (Hloop : forall deps m0 m',
      (forall x, x ∈ dep_hash <$> deps ->
                 x ∈ dep_hash <$> dependencies literal) ->
      foldl (fun acc dep =>
               match acc with
               | None => None
               | Some missing =>
                   Context.findMissingDeps _ fuel c (dep_hash dep)
                                           (h :: chain) missing
               end) (Some m0) deps = Some m' ->
      forall d ch, (d, ch) ∈ m' ->
                   (d, ch) ∈ m0 \/
                   (literalIn c d = None /\
                    ChainWalk (literalIn c) d ch root)).
    { induction deps as [|dep deps IHdeps]; intros m0 m' Hsub; cbn [foldl].
      - intros [= <-] d ch Hin. by left.
      - destruct (Context.findMissingDeps _ fuel c (dep_hash dep)
                    (h :: chain) m0) as [m1|] eqn:E1;
          [|by rewrite foldl_findMissingDeps_None].
        intros Hrest d ch Hin.
        destruct (IHdeps m1 m' (fun x Hx => Hsub x (list_elem_of_further _ _ _ Hx))
                    Hrest d ch Hin) as [Hin1|?]; [|by right].
        eapply (IH _ _ _ _ E1); [|exact Hin1].
        econstructor; [exact Hlit | | exact Hwalk].
        apply Hsub. cbn. left. }
    by eapply (Hloop (dependencies literal) missing missing').
  - intros Hrun Hwalk d ch Hin.
    assert (Hset : (d, ch) ∈ Context.setMissing missing h chain ->
                   (d, ch) ∈ missing \/
                   (literalIn c d = None /\
                    ChainWalk (literalIn c) d ch root)).
    { intros [[-> ->]|?]%setMissing_entries; [by right | by left]. }
    destruct (Context.getMissing missing h) as [prevChain|].
    + destruct (length chain <? length prevChain)%nat;
        injection Hrun as <-; [by apply Hset | by left].
    + injection Hrun as <-. by apply Hset.
Qed.

Lemma getMissing_setMissing missing h ch d :
  Context.getMissing (Context.setMissing missing h ch) d
  = if decide (d = h) then Some ch else Context.getMissing missing d.
Proof.
  induction missing as [|[h0 ch0] missing IH]; cbn.
  - destruct (decide (h = d)) as [->|?].
    + by rewrite decide_True.
    + by rewrite decide_False by congruence.
  - destruct (decide (h0 = h)) as [->|Hne]; cbn.
    + destruct (decide (h = d)) as [->|?].
      * by rewrite decide_True.
      * by rewrite decide_False by congruence.
    + destruct (decide (h0 = d)) as [->|?].
      * by rewrite decide_False by congruence.
      * exact IH.
Qed.

Lemma setMissing_NoDup missing h ch :
  NoDup missing.*1 -> NoDup (Context.setMissing missing h ch).*1.
Proof.
  induction missing as [|[h0 ch0] missing IH]; cbn.
  - intros _. apply NoDup_singleton.
  - intros [Hnin Hnd]%NoDup_cons.
    destruct (decide (h0 = h)) as [->|Hne]; cbn.
    + by apply NoDup_cons.
    + apply NoDup_cons. split; [|by apply IH].
      rewrite setMissing_keys. intros [?|?]; done.
Qed.

Lemma getMissing_elem missing d ch :
  NoDup missing.*1 -> (d, ch) ∈ missing ->
  Context.getMissing missing d = Some ch.
Proof.
  induction missing as [|[h0 ch0] missing IH]; cbn.
  - by intros _ ?%not_elem_of_nil.
  - intros [Hnin Hnd]%NoDup_cons Hin.
    apply elem_of_cons in Hin as [[= -> ->]|Hin].
    + by rewrite decide_True.
    + rewrite decide_False; [by apply IH|].
      intros ->. apply Hnin. apply list_elem_of_fmap. by exists (d, ch).
Qed.

Lemma ChainWalk_top_inv (lookupLiteral : Hash -> option Literal) d w top :
  ChainWalk lookupLiteral d w top ->
  (w = [] /\ d = top) \/
  exists x w' literal,
    w = w' ++ [top] /\ lookupLiteral top = Some literal /\
    x ∈ dep_hash <$> dependencies literal /\
    ChainWalk lookupLiteral d w' x.
Proof.
  induction 1 as [h|h depHash depLiteral rest top Hl Hin Hw IH].
  - by left.
  - right. destruct IH as [[-> ->]|(x & w' & literal & -> & Hlit & Hx & Hw')].
    + exists h, [], depLiteral. split; [done|]. split; [done|].
      split; [done|]. constructor.
    + exists x, (depHash :: w'), literal. split; [done|]. split; [done|].
      split; [done|]. by econstructor.
Qed.

(** What a call of [findMissingDeps] that comes back keeps of the map: the
    keys stay distinct, no chain on file gets longer, and a hash without
    literal is filed with a chain no longer than any walk from it up to
    the hash of the call, continued by the chain of the call. *)
Lemma findMissingDeps_shortest (c : Ctx) fuel :
  forall h chain missing missing',
    Context.findMissingDeps _ fuel c h chain missing = Some missing' ->
    (NoDup missing.*1 -> NoDup missing'.*1) /\
    (forall d ch0, Context.getMissing missing d = Some ch0 ->
       exists ch, Context.getMissing missing' d = Some ch /\
                  (length ch <= length ch0)%nat) /\
    (forall d w, literalIn c d = None -> ChainWalk (literalIn c) d w h ->
       exists ch, Context.getMissing missing' d = Some ch /\
                  (length ch <= length w + length chain)%nat).
Proof.
  induction fuel as [|fuel IH]; intros h chain missing missing'; [done|].
  cbn [Context.findMissingDeps].
  change (Context.literals HashedObject c !! h) with (literalIn c h).
  destruct (literalIn c h) as [literal|] eqn:Hlit.
  - intros Hrun.
    assert (Hloop : forall deps m0 m',
      foldl (fun acc dep =>
               match acc with
               | None => None
               | Some missing =>
                   Context.findMissingDeps _ fuel c (dep_hash dep)
                                           (h :: chain) missing
               end) (Some m0) deps = Some m' ->
      (NoDup m0.*1 -> NoDup m'.*1) /\
      (forall d ch0, Context.getMissing m0 d = Some ch0 ->
         exists ch, Context.getMissing m' d = Some ch /\
                    (length ch <= length ch0)%nat) /\
      (forall x d w, x ∈ dep_hash <$> deps -> literalIn c d = None ->
         ChainWalk (literalIn c) d w x ->
         exists ch, Context.getMissing m' d = Some ch /\
                    (length ch <= length w + S (length chain))%nat)).
    { induction deps as [|dep deps IHdeps]; intros m0 m'; cbn [foldl].
      - intros [= <-]. split; [done|]. split; [by eauto|].
        by intros x d w ?%not_elem_of_nil.
      - destruct (Context.findMissingDeps _ fuel c (dep_hash dep)
                    (h :: chain) m0) as [m1|] eqn:E1;
          [|by rewrite foldl_findMissingDeps_None].
        intros Hrest.
        destruct (IH _ _ _ _ E1) as (Hnd1 & Hmono1 & Hbest1).
        destruct (IHdeps m1 m' Hrest) as (Hnd2 & Hmono2 & Hbest2).
        split; [by auto|]. split.
        + intros d ch0 Hd. destruct (Hmono1 d ch0 Hd) as (ch1 & Hd1 & Hle1).
          destruct (Hmono2 d ch1 Hd1) as (ch2 & Hd2 & Hle2).
          exists ch2. split; [done | lia].
        + intros x d w Hx Hnone Hw. cbn in Hx.
          apply elem_of_cons in Hx as [->|Hx]; [|by eapply Hbest2].
          destruct (Hbest1 d w Hnone Hw) as (ch1 & Hd1 & Hle1).
          destruct (Hmono2 d ch1 Hd1) as (ch2 & Hd2 & Hle2).
          exists ch2. split; [done|]. cbn [length] in Hle1. lia. }
    destruct (Hloop _ _ _ Hrun) as (Hnd & Hmono & Hbest).
    split; [done|]. split; [done|].
    intros d w Hnone Hw.
    apply ChainWalk_top_inv in Hw
      as [[-> ->]|(x & w' & literal' & -> & Hlit' & Hx & Hw')];
      [congruence|].
    assert (literal' = literal) as -> by congruence.
    destruct (Hbest x d w' Hx Hnone Hw') as (ch & Hd & Hle).
    exists ch. split; [done|]. rewrite length_app. cbn. lia.
  - intros Hrun.
    assert (Hhere : forall d w, ChainWalk (literalIn c) d w h ->
                                w = [] /\ d = h).
    { intros d w [?|(x & w' & literal & _ & Hl & _)]%ChainWalk_top_inv;
        [done | congruence]. }
    destruct (Context.getMissing missing h) as [prevChain|] eqn:Hprev.
    + destruct (Nat.ltb_spec (length chain) (length prevChain));
        injection Hrun as <-.
      * split; [apply setMissing_NoDup|]. split.
        -- intros d ch0 Hd. rewrite getMissing_setMissing.
           destruct (decide (d = h)) as [->|?]; [|by eauto].
           exists chain. split; [done|].
           assert (ch0 = prevChain) as -> by congruence. lia.
        -- intros d w _ [-> ->]%Hhere. rewrite getMissing_setMissing.
           rewrite decide_True by done. exists chain. split; [done|].
           cbn. lia.
      * split; [done|]. split; [by eauto|].
        intros d w _ [-> ->]%Hhere. exists prevChain. split; [done|].
        cbn. lia.
    + injection Hrun as <-.
      split; [apply setMissing_NoDup|]. split.
      * intros d ch0 Hd. rewrite getMissing_setMissing.
        destruct (decide (d = h)) as [->|?]; [congruence | by eauto].
      * intros d w _ [-> ->]%Hhere. rewrite getMissing_setMissing.
        rewrite decide_True by done. exists chain. split; [done|]. cbn. lia.
Qed.

(** X15.  For a context whose literals do not depend on themselves,
    [findMissingDeps] of a root comes back with a map whose keys are,
    each once, the transitive dependencies of the root that the context has
    no literal for; the chain filed for a key walks from it up to the
    root, and no walk from it up to the root is shorter: of the chains
    that lead to a dependency, one of the shortest is picked. *)
Theorem findMissingDeps_picks_a_shortest_chain
    (c : Ctx) (root : Hash) (rank : Hash -> nat) (fuel : nat) :
  (forall h literal x,
      literalIn c h = Some literal ->
      x ∈ dep_hash <$> dependencies literal ->
      (rank x < rank h)%nat) ->
  (rank root < fuel)%nat ->
  exists missing,
    Context.findMissingDeps _ fuel c root [] [] = Some missing /\
    NoDup missing.*1 /\
    (forall d, d ∈ missing.*1 <-> MissingFrom c root d) /\
    (forall d ch, (d, ch) ∈ missing ->
       ChainWalk (literalIn c) d ch root /\
       forall ch', ChainWalk (literalIn c) d ch' root ->
                   (length ch <= length ch')%nat).
Proof.
  intros Hrank Hfuel.
  destruct (findMissingDeps_post c root rank Hrank fuel root [] [] Hfuel
              (walk_done _ _)) as (missing & Hrun & [Hkeys Hentries]).
  destruct (findMissingDeps_shortest c fuel root [] [] missing Hrun)
    as (Hnd & _ & Hbest).
  exists missing. split; [done|]. split; [apply Hnd; constructor|].
  split.
  - intros d. rewrite Hkeys. split; [|by right].
    intros [Hin|?]; [by apply not_elem_of_nil in Hin | done].
  - intros d ch Hin.
    destruct (Hentries d ch Hin) as [Hin0|[Hnone Hw]];
      [by apply not_elem_of_nil in Hin0|].
    split; [done|]. intros ch' Hw'.
    destruct (Hbest d ch' Hnone Hw') as (ch2 & Hd & Hle).
    assert (Hd' : Context.getMissing missing d = Some ch).
    { apply getMissing_elem; [apply Hnd; constructor | done]. }
    rewrite Hd' in Hd. injection Hd as <-. cbn in Hle. lia.
Qed.

(** *** The two halves of the exchange fit *)

Lemma classifyMissingDeps_requests store secret proofFor missing context :
  let result := classifyMissingDeps store secret proofFor missing context in
  (forall req, req ∈ result.1 ->
     exists entry, entry ∈ missing /\ req = requestFor entry) /\
  Context.literals _ result.2 = Context.literals _ context.
Proof.
  unfold classifyMissingDeps.
  assert (H : forall toRequest context0,
    let result :=
      foldl (fun acc entry =>
               let '(toRequest, context) := acc in
               match provenLocally store secret proofFor entry.1 with
               | None =>
                   (toRequest ++ [{| req_hash := entry.1;
                                     req_dependencyChain := entry.2 |}],
                    context)
               | Some dep =>
                   (toRequest, Context.setObject _ context entry.1 dep)
               end) (toRequest, context0) missing in
    (forall req, req ∈ result.1 ->
       req ∈ toRequest \/
       exists entry, entry ∈ missing /\ req = requestFor entry) /\
    Context.literals _ result.2 = Context.literals _ context0).
  { induction missing as [|entry missing IH]; intros toRequest context0;
      cbn zeta; cbn [foldl].
    - split; [by left | done].
    - destruct (provenLocally store secret proofFor entry.1) as [dep|].
      + destruct (IH toRequest (Context.setObject _ context0 entry.1 dep))
          as [Hreq Hlit].
        split; [|exact Hlit].
        intros req Hin. destruct (Hreq req Hin) as [?|(e & He & ->)];
          [by left|].
        right. exists e. split; [by right | done].
      + destruct (IH (toRequest ++ [{| req_hash := entry.1;
                                       req_dependencyChain := entry.2 |}])
                     context0) as [Hreq Hlit].
        split; [|exact Hlit].
        intros req Hin. destruct (Hreq req Hin) as [Hin'|(e & He & ->)].
        * apply elem_of_app in Hin' as [?|Hin']; [by left|].
          apply list_elem_of_singleton in Hin' as ->.
          right. exists entry. split; [left | done].
        * right. exists e. split; [by right | done]. }
  destruct (H [] context) as [Hreq Hlit]. cbn zeta in *.
  split; [|exact Hlit].
  intros req Hin. destruct (Hreq req Hin) as [Hin'|?]; [|done].
  by apply not_elem_of_nil in Hin'.
Qed.

Lemma resolveMissingDeps_requests
    fuel store secret proofFor context hash toRequest context' :
  resolveMissingDeps fuel store secret proofFor context hash
  = Some (toRequest, context') ->
  Context.literals _ context' = Context.literals _ context /\
  forall req, req ∈ toRequest ->
    literalIn context (req_hash req) = None /\
    ChainWalk (literalIn context) (req_hash req) (req_dependencyChain req)
              hash.
Proof.
  unfold resolveMissingDeps.
  destruct (Context.findMissingDeps _ fuel context hash [] [])
    as [missing|] eqn:Hrun; [|done].
  intros [= Hres].
  pose proof (classifyMissingDeps_requests store secret proofFor missing
                context) as H.
  cbn zeta in H. rewrite Hres in H. cbn [fst snd] in H.
  destruct H as [Hreq Hlit]. split; [done|].
  intros req Hin. destruct (Hreq req Hin) as ([d ch] & He & ->). cbn.
  destruct (findMissingDeps_sound context hash fuel hash [] [] missing Hrun
              (walk_done _ _) d ch He) as [Hin0|?]; [|done].
  by apply not_elem_of_nil in Hin0.
Qed.

(** X16.  The follow-up requests a receiver builds for the dependencies
    it lacks pass the check of the sender: at a sender whose store has the
    literals of the context it sent and holds the root as an op that
    [shouldAcceptMutationOp] accepts, the chain of every such request walks
    up to that op, so the request is served if the sender holds the object
    and is scheduled if it does not; it is never dropped. *)
Theorem follow_up_requests_pass_the_check_of_the_sender
    (fuel : nat) (store senderStore : Store) (secret : string)
    (proofFor : gmap Hash Hash) (context context' : Ctx) (hash : Hash)
    (toRequest : list ObjectRequest) (op : HashedObject) :
  resolveMissingDeps fuel store secret proofFor context hash
  = Some (toRequest, context') ->
  (forall x literal, literalIn context x = Some literal ->
                     loadLiteral senderStore x = Some literal) ->
  load senderStore hash = Some op ->
  shouldAcceptMutationOp op = true ->
  forall req, req ∈ toRequest ->
    literalIn context (req_hash req) = None /\
    RootedInAcceptedOp senderStore req /\
    (is_Some (load senderStore (req_hash req)) ->
     served senderStore req = true) /\
    (load senderStore (req_hash req) = None ->
     deferred senderStore req = true).
Proof.
  intros Hres Hsub Hop Hacc req Hin.
  destruct (resolveMissingDeps_requests _ _ _ _ _ _ _ _ Hres) as [_ Hreq].
  destruct (Hreq req Hin) as [Hnone Hw].
  assert (Hrooted : RootedInAcceptedOp senderStore req).
  { exists hash, op. split; [|done].
    by apply (ChainWalk_mono (literalIn context)). }
  split; [done|]. split; [done|]. split.
  - intros Hobj. by apply served_spec.
  - intros Hobj. unfold deferred.
    apply checkRequest_rooted in Hrooted. rewrite Hrooted, Hobj.
    by rewrite bool_decide_eq_false_2 by (by intros [? ?]).
Qed.

(** *** What [receiveObjects] ignores *)

Definition onlyWarnings (actions : list Action) : Prop :=
  forall a, a ∈ actions -> exists text, a = ActWarning text.

(** The object [h] is expected from [source] under the secret of the
    message. *)
Definition expectedFrom (t : Tables) (source : Endpoint)
    (secret : option string) (h : Hash) : Prop :=
  exists mv, movementAt (incomingObjects t) h source = Some mv /\
             Some (mv_secret mv) = secret.

Lemma receiveRoot_ignored
    fuel store source proofFor secret freshSecret now t context actions hash :
  ~ expectedFrom t source secret hash ->
  exists warnings,
    receiveRoot fuel store source proofFor secret freshSecret now
                (t, context, actions) hash
    = Some (t, context, actions ++ warnings) /\
    onlyWarnings warnings.
Proof.
  intros Hnot. unfold receiveRoot.
  change (incomingObjects t !! hash ≫= (.!! source))
    with (movementAt (incomingObjects t) hash source).
  destruct (movementAt (incomingObjects t) hash source) as [mv|] eqn:Hmv.
  - rewrite bool_decide_eq_false_2 by (intros ?; apply Hnot; by exists mv).
    eexists. split; [done|].
    intros a Ha. apply list_elem_of_singleton in Ha. eauto.
  - destruct (load store hash).
    + exists []. split; [by rewrite app_nil_r|]. by intros ? ?%not_elem_of_nil.
    + eexists. split; [done|].
      intros a Ha. apply list_elem_of_singleton in Ha. eauto.
Qed.

Lemma receiveRoots_ignored
    fuel store source proofFor secret rng now t context roots :
  (forall h, h ∈ roots -> ~ expectedFrom t source secret h) ->
  forall n actions,
  exists warnings,
    receiveRoots fuel store source proofFor secret rng now n
                 (t, context, actions) roots
    = Some (t, context, actions ++ warnings) /\
    onlyWarnings warnings.
Proof.
  induction roots as [|hash roots IH]; intros Hnot n actions;
    cbn [receiveRoots].
  - exists []. split; [by rewrite app_nil_r|]. by intros ? ?%not_elem_of_nil.
  - destruct (receiveRoot_ignored fuel store source proofFor secret (rng n)
                now t context actions hash) as (w1 & -> & Hw1);
      [apply Hnot; left|].
    destruct (IH (fun h Hh => Hnot h (list_elem_of_further _ _ _ Hh))
                 (S n) (actions ++ w1)) as (w2 & -> & Hw2).
    exists (w1 ++ w2). split; [by rewrite app_assoc|].
    intros a [?|?]%elem_of_app; eauto.
Qed.

(** X17.  [receiveObjects] acts on what was asked for only.  A message
    whose context fails the root or literal hash check, or none of whose
    roots is expected from the source under the secret of the message,
    leaves the tables as they are, whatever else it carries: nothing is
    sent, nothing is handed on for processing, and all that happens is
    warnings. *)
Theorem receiveObjects_ignores_what_was_not_asked_for
    (fuel : nat) (store : Store) (t : Tables) (source : Endpoint)
    (literalContext : LiteralContext) (omittedDeps : list OwnershipProof)
    (secret : option string) (rng : nat -> string) (now : Z) :
  (let context := Context.fromLiteralContext HashedObject literalContext in
   Context.checkRootHashes _ context
   && Context.checkLiteralHashes _ forValue context = false) \/
  (forall h, h ∈ lc_rootHashes literalContext ->
             ~ expectedFrom t source secret h) ->
  exists warnings,
    receiveObjects fuel store t source literalContext omittedDeps secret
                   rng now = Some (t, warnings) /\
    onlyWarnings warnings.
Proof.
  intros Hcase. unfold receiveObjects.
  destruct (Context.checkRootHashes _ _ && Context.checkLiteralHashes _ _ _)
    eqn:Hchecks.
  - destruct Hcase as [Hfail|Hnot]; [cbn zeta in Hfail; congruence|].
    destruct (receiveRoots_ignored fuel store source
                (ownershipProofForHash omittedDeps) secret rng now t
                (Context.fromLiteralContext HashedObject literalContext)
                (lc_rootHashes literalContext) Hnot 0%nat [])
      as (warnings & Hrun & Hw).
    cbn [Context.fromLiteralContext Context.rootHashes] in *.
    rewrite Hrun. by exists warnings.
  - eexists. split; [done|].
    intros a Ha. apply list_elem_of_singleton in Ha. eauto.
Qed.

Lemma sendRequestObjsMessage_from incoming destination reqs secret now h ep mv :
  movementAt (sendRequestObjsMessage incoming destination reqs secret now).1
             h ep = Some mv ->
  movementAt incoming h ep = Some mv \/ h ∈ req_hash <$> reqs.
Proof.
  unfold sendRequestObjsMessage.
  pose proof (requestLoop_registered destination secret now incoming reqs)
    as H.
  cbn zeta in H.
  destruct (foldl (requestStep destination secret now) (incoming, []) reqs)
    as [inc news].
  cbn [fst snd] in *. destruct H as (Hsub & _ & _ & _ & Hfrom).
  intros Hmv. destruct (Hfrom h ep mv Hmv) as [?|(_ & req & Hin & <- & _)];
    [by left|].
  right. apply list_elem_of_fmap. exists req. split; [done|].
  by eapply elem_of_sublist.
Qed.

Lemma movementAt_delete (m : ObjectMovements) h h' ep :
  movementAt (delete h m) h' ep
  = if decide (h = h') then None else movementAt m h' ep.
Proof.
  unfold movementAt. destruct (decide (h = h')) as [<-|Hne].
  - by rewrite lookup_delete_eq.
  - by rewrite lookup_delete_ne.
Qed.

(** One root of a message: the literals of the context stay, the root is
    not expected afterwards, and a hash the context has a literal for does
    not become expected. *)
Lemma receiveRoot_consumes
    fuel store source proofFor secret freshSecret now t context actions hash
    t' context' actions' :
  receiveRoot fuel store source proofFor secret freshSecret now
              (t, context, actions) hash = Some (t', context', actions') ->
  Context.literals _ context' = Context.literals _ context /\
  ~ expectedFrom t' source secret hash /\
  forall h', is_Some (literalIn context h') ->
             ~ expectedFrom t source secret h' ->
             ~ expectedFrom t' source secret h'.
Proof.
  unfold receiveRoot.
  change (incomingObjects t !! hash ≫= (.!! source))
    with (movementAt (incomingObjects t) hash source).
  destruct (movementAt (incomingObjects t) hash source) as [incoming|] eqn:Hinc.
  2:{ intros [= <- <- _]. split; [done|]. split; [|done].
      intros (mv & Hmv & _). congruence. }
  destruct (bool_decide (Some (mv_secret incoming) = secret)) eqn:Hsec.
  2:{ intros [= <- <- _]. split; [done|]. split; [|done].
      apply bool_decide_eq_false in Hsec.
      intros (mv & Hmv & Hs). congruence. }
  destruct (resolveMissingDeps fuel store (mv_secret incoming) proofFor
              context hash) as [[toRequest context1]|] eqn:Hres; [|done].
  destruct (resolveMissingDeps_requests _ _ _ _ _ _ _ _ Hres) as [Hlit Hreq].
  assert (Hdel : forall (t1 : Tables) (incoming1 : ObjectMovements),
    (forall h' mv, movementAt incoming1 h' source = Some mv ->
                   movementAt (incomingObjects t) h' source = Some mv \/
                   h' ∈ req_hash <$> toRequest) ->
    let t2 := withIncoming t1 (delete hash incoming1) in
    ~ expectedFrom t2 source secret hash /\
    forall h', is_Some (literalIn context h') ->
               ~ expectedFrom t source secret h' ->
               ~ expectedFrom t2 source secret h').
  { intros t1 incoming1 Hfrom t2. split.
    - intros (mv & Hmv & _). subst t2. cbn [withIncoming incomingObjects] in Hmv.
      rewrite movementAt_delete, decide_True in Hmv by done. done.
    - intros h' [literal Hl] Hnot (mv & Hmv & Hs). subst t2.
      cbn [withIncoming incomingObjects] in Hmv.
      rewrite movementAt_delete in Hmv.
      destruct (decide (hash = h')); [done|].
      destruct (Hfrom h' mv Hmv) as [Hold|Hin].
      + apply Hnot. by exists mv.
      + apply list_elem_of_fmap in Hin as (req & -> & Hin).
        destruct (Hreq req Hin) as [Hnone _]. congruence. }
  destruct toRequest as [|req toRequest].
  { intros [= <- <- _]. split; [done|].
    apply (Hdel t (incomingObjects t)). by left. }
  destruct (match Context.literals _ context1 !! hash with
            | Some literal => shouldAcceptMutationOpLiteral literal
            | None => Thrown "TypeError"
            end) as [accepted|e].
  - destruct (if accepted then _ else _) as [t1 acts] eqn:E1.
    assert (Hinc1 : incomingObjects t1 = incomingObjects t).
    { destruct accepted; [|by injection E1 as <- _].
      pose proof (processIncompleteOp_incoming t source hash context1
                    (req :: toRequest) now) as Hp.
      by rewrite E1 in Hp. }
    destruct (sendRequestObjsMessage (incomingObjects t1) source
                (req :: toRequest) freshSecret now)
      as [incoming' sent] eqn:E2.
    intros [= <- <- _]. split; [done|].
    cbn [withIncoming incomingObjects].
    apply (Hdel (withIncoming t1 incoming') incoming').
    intros h' mv Hmv. rewrite <- Hinc1.
    apply (sendRequestObjsMessage_from _ source _ freshSecret now).
    by rewrite E2.
  - intros [= <- <- _]. split; [done|].
    apply (Hdel t (incomingObjects t)). by left.
Qed.

Lemma receiveRoots_consumes
    fuel store source proofFor secret rng now roots :
  forall n t context actions t' context' actions',
    receiveRoots fuel store source proofFor secret rng now n
                 (t, context, actions) roots = Some (t', context', actions') ->
    (forall h, h ∈ roots -> is_Some (literalIn context h)) ->
    Context.literals _ context' = Context.literals _ context /\
    (forall h, h ∈ roots -> ~ expectedFrom t' source secret h) /\
    (forall h', is_Some (literalIn context h') ->
                ~ expectedFrom t source secret h' ->
                ~ expectedFrom t' source secret h').
Proof.
  induction roots as [|hash roots IH];
    intros n t context actions t' context' actions'; cbn [receiveRoots].
  - intros [= <- <- _] _. split; [done|].
    split; [by intros ? ?%not_elem_of_nil | done].
  - destruct (receiveRoot _ _ _ _ _ _ _ _ _) as [[[t1 c1] a1]|] eqn:E; [|done].
    intros Hrest Hlits.
    destruct (receiveRoot_consumes _ _ _ _ _ _ _ _ _ _ _ _ _ _ E)
      as (Hlit1 & Hgone & Hkeep1).
    assert (Hsame : forall h, literalIn c1 h = literalIn context h)
      by (intros h; unfold literalIn; by rewrite Hlit1).
    destruct (IH _ _ _ _ _ _ _ Hrest) as (Hlit2 & Hgone2 & Hkeep2).
    { intros h Hh. rewrite Hsame. apply Hlits. by right. }
    split; [congruence|]. split.
    + intros h Hh. apply elem_of_cons in Hh as [->|Hh]; [|by apply Hgone2].
      apply Hkeep2; [|done]. rewrite Hsame. apply Hlits. left.
    + intros h' Hl Hnot. apply Hkeep2; [by rewrite Hsame|].
      by apply Hkeep1.
Qed.

(** X18.  A [send-objs] message is consumed once.  After [receiveObjects]
    has dealt with a message, none of its roots is expected from the source
    under its secret any more; so the same message from the same source,
    whenever it comes again and whatever the store holds by then, leaves
    the tables as they are and brings about nothing but warnings. *)
Theorem a_send_objs_message_is_consumed_once
    (fuel : nat) (store : Store) (t : Tables) (source : Endpoint)
    (literalContext : LiteralContext) (omittedDeps : list OwnershipProof)
    (secret : option string) (rng : nat -> string) (now : Z)
    (t' : Tables) (actions : list Action) :
  receiveObjects fuel store t source literalContext omittedDeps secret rng now
  = Some (t', actions) ->
  (Context.checkRootHashes _
     (Context.fromLiteralContext HashedObject literalContext)
   && Context.checkLiteralHashes _ forValue
        (Context.fromLiteralContext HashedObject literalContext) = true ->
   forall h, h ∈ lc_rootHashes literalContext ->
             ~ expectedFrom t' source secret h) /\
  forall fuel' store' omittedDeps' rng' now',
  exists warnings,
    receiveObjects fuel' store' t' source literalContext omittedDeps' secret
                   rng' now' = Some (t', warnings) /\
    onlyWarnings warnings.
Proof.
  intros Hrun.
  assert (Hgone :
    Context.checkRootHashes _
      (Context.fromLiteralContext HashedObject literalContext)
    && Context.checkLiteralHashes _ forValue
         (Context.fromLiteralContext HashedObject literalContext) = true ->
    forall h, h ∈ lc_rootHashes literalContext ->
              ~ expectedFrom t' source secret h).
  { intros Hchecks. unfold receiveObjects in Hrun. rewrite Hchecks in Hrun.
    destruct (receiveRoots _ _ _ _ _ _ _ _ _ _) as [[[t1 c1] a1]|] eqn:E;
      [|done].
    injection Hrun as <- _.
    apply andb_true_iff in Hchecks as [Hroots _].
    unfold Context.checkRootHashes in Hroots.
    rewrite forallb_forall in Hroots.
    destruct (receiveRoots_consumes _ _ _ _ _ _ _ _ _ _ _ _ _ _ _ E)
      as (_ & Hgone & _); [|exact Hgone].
    intros h Hh. apply list_elem_of_In, Hroots in Hh.
    by apply bool_decide_eq_true in Hh. }
  split; [exact Hgone|].
  intros fuel' store' omittedDeps' rng' now'. unfold receiveObjects.
  destruct (Context.checkRootHashes _ _ && Context.checkLiteralHashes _ _ _)
    eqn:Hchecks.
  - destruct (receiveRoots_ignored fuel' store' source
                (ownershipProofForHash omittedDeps') secret rng' now' t'
                (Context.fromLiteralContext HashedObject literalContext)
                (lc_rootHashes literalContext) (Hgone eq_refl) 0%nat [])
      as (warnings & Hrun' & Hw).
    cbn [Context.fromLiteralContext Context.rootHashes] in *.
    rewrite Hrun'. by exists warnings.
  - eexists. split; [done|].
    intros a Ha. apply list_elem_of_singleton in Ha. eauto.
Qed.

(** *** What a remote state sets off *)

Lemma sendRequestObjsMessage_spec
    (incoming : ObjectMovements) (destination : Endpoint)
    (reqs : list ObjectRequest) (secret : string) (now : Z) :
  let result := sendRequestObjsMessage incoming destination reqs secret now in
  exists requested,
    requested `sublist_of` reqs /\
    result.2 = match requested with
               | [] => []
               | _ => [ActSend destination
                               (RequestObjs objHash requested secret)]
               end /\
    (forall req, req ∈ requested ->
       movementAt result.1 (req_hash req) destination
       = Some (expectedMovement secret now req)) /\
    (forall h ep mv, movementAt incoming h ep = Some mv ->
                     movementAt result.1 h ep = Some mv) /\
    (forall h ep mv,
        movementAt result.1 h ep = Some mv ->
        movementAt incoming h ep = Some mv \/
        (ep = destination /\
         exists req, req ∈ requested /\ req_hash req = h /\
                     mv = expectedMovement secret now req)).
Proof.
  intros result. subst result. unfold sendRequestObjsMessage.
  pose proof (requestLoop_registered destination secret now incoming reqs)
    as H.
  cbn zeta in H.
  destruct (foldl (requestStep destination secret now) (incoming, []) reqs)
    as [inc news].
  cbn [fst snd] in *. destruct H as (Hsub & Hnd & Hnew & Hkept & Hfrom).
  exists news. split; [done|]. split; [done|].
  split; [intros req Hin; by apply Hnew|]. done.
Qed.

Lemma toFetch_spec store t h :
  toFetch store t h = true <->
  load store h = None /\ incompleteOps t !! h = None.
Proof.
  unfold toFetch.
  destruct (bool_decide (is_Some (incompleteOps t !! h))) eqn:Hb.
  - apply bool_decide_eq_true in Hb as [io Hio]. rewrite Hio.
    split; [done | by intros [_ ?]].
  - apply bool_decide_eq_false in Hb.
    assert (incompleteOps t !! h = None) as ->
      by (by apply eq_None_not_Some).
    destruct (load store h); split; try done; by intros [? _].
Qed.

(** X19.  [receiveRemoteState] touches nothing but [incomingObjects], and
    there it only adds: what is on record stays, and a movement that is new
    is for the sender, with an empty chain and the fresh secret, for a
    terminal op of the peer that is neither in the store nor among the
    incomplete ops.  What it sends goes to the sender: a [request-state]
    when no state object came along, or one [request-objs] message whose
    requests are all of that kind and are all on record as expected when it
    leaves; and whenever it sends a [request-objs] it reports the state as
    new.  A state object that does not hash to the advertised hash, or that
    names an op the store holds and [shouldAcceptMutationOp] rejects, is
    dropped without any effect. *)
Theorem receiveRemoteState_asks_the_sender_for_missing_ops_only
    (store : Store) (ownStateHash : option Hash) (t : Tables)
    (sender : Endpoint) (stateHash : Hash) (state : option TerminalOpsState)
    (secret : string) (now : Z) :
  let result :=
    receiveRemoteState store ownStateHash t sender stateHash state secret now
  in
  let t' := result.1.2 in
  let newMovement h :=
    expectedMovement secret now {| req_hash := h; req_dependencyChain := [] |}
  in
  (outgoingObjects t' = outgoingObjects t /\
   incompleteOps t' = incompleteOps t /\
   opsForMissingObj t' = opsForMissingObj t) /\
  (forall h ep mv, movementAt (incomingObjects t) h ep = Some mv ->
                   movementAt (incomingObjects t') h ep = Some mv) /\
  (forall h ep mv,
      movementAt (incomingObjects t') h ep = Some mv ->
      movementAt (incomingObjects t) h ep = Some mv \/
      (ep = sender /\ mv = newMovement h /\
       exists s, state = Some s /\ h ∈ terminalOps s /\
                 load store h = None /\ incompleteOps t !! h = None)) /\
  (forall d msg,
      ActSend d msg ∈ result.2 ->
      d = sender /\
      ((state = None /\ msg = RequestState objHash) \/
       exists s requested,
         state = Some s /\ msg = RequestObjs objHash requested secret /\
         result.1.1 = true /\
         forall req, req ∈ requested ->
           req_dependencyChain req = [] /\
           req_hash req ∈ terminalOps s /\
           load store (req_hash req) = None /\
           incompleteOps t !! req_hash req = None /\
           movementAt (incomingObjects t') (req_hash req) sender
           = Some (newMovement (req_hash req)))) /\
  (forall s, state = Some s ->
     stateHashOf s <> stateHash \/
     (exists h op, h ∈ terminalOps s /\ incompleteOps t !! h = None /\
                   load store h = Some op /\
                   shouldAcceptMutationOp op = false) ->
     result.1.1 = false /\ incomingObjects t' = incomingObjects t /\
     result.2 = []).
Proof.
  intros result t' newMovement. subst t' result.
  unfold receiveRemoteState.
  destruct state as [s|].
  2:{ cbn [fst snd]. split; [done|]. split; [done|]. split; [by left|].
      split; [|done]. intros d msg Hin.
      destruct (bool_decide (Some stateHash = ownStateHash));
        [by apply not_elem_of_nil in Hin|].
      apply list_elem_of_singleton in Hin. injection Hin as -> ->.
      split; [done|]. by left. }
  destruct (bool_decide (stateHashOf s = stateHash)) eqn:Hhash.
  2:{ cbn [fst snd]. split; [done|]. split; [done|]. split; [by left|].
      split; [by intros ? ? ?%not_elem_of_nil|]. done. }
  apply bool_decide_eq_true in Hhash.
  rewrite inspectTerminalOps_spec.
  set (fetch := List.filter (toFetch store t) (terminalOps s)).
  set (bad := existsb (badOp store t) (terminalOps s)).
  assert (Hfetch : forall h, h ∈ fetch ->
             h ∈ terminalOps s /\ load store h = None /\
             incompleteOps t !! h = None).
  { intros h Hin. apply list_elem_of_In, filter_In in Hin as [Hin Hf].
    apply list_elem_of_In in Hin. by apply toFetch_spec in Hf. }
  assert (Hbad : (exists h op, h ∈ terminalOps s /\ incompleteOps t !! h = None /\
                               load store h = Some op /\
                               shouldAcceptMutationOp op = false) ->
                 bad = true).
  { intros (h & op & Hin & Hio & Hop & Hacc). apply existsb_exists.
    exists h. split; [by apply list_elem_of_In|]. unfold badOp.
    rewrite Hio, bool_decide_eq_false_2 by (by intros [? ?]).
    by rewrite Hop, Hacc. }
  destruct bad eqn:Ebad.
  { cbn [fst snd withIncoming outgoingObjects incompleteOps opsForMissingObj
         incomingObjects].
    rewrite andb_false_r. split; [done|]. split; [done|]. split; [by left|].
    split; [by intros ? ? ?%not_elem_of_nil|]. done. }
  assert (Hnotbad : forall s', Some s = Some s' ->
             stateHashOf s' <> stateHash \/
             (exists h op, h ∈ terminalOps s' /\ incompleteOps t !! h = None /\
                           load store h = Some op /\
                           shouldAcceptMutationOp op = false) ->
             False).
  { intros s' [= <-] [?|Hex]; [done|]. apply Hbad in Hex. congruence. }
  destruct fetch as [|h0 fetch0] eqn:Efetch.
  { cbn [fst snd withIncoming outgoingObjects incompleteOps opsForMissingObj
         incomingObjects].
    split; [done|]. split; [done|]. split; [by left|].
    split; [by intros ? ? ?%not_elem_of_nil|].
    intros s' Hs Hcase. by destruct (Hnotbad s' Hs Hcase). }
  rewrite <- Efetch in *. clear Efetch.
  destruct (sendRequestObjsMessage_spec (incomingObjects t) sender
              ((fun h => {| req_hash := h; req_dependencyChain := [] |})
                 <$> fetch) secret now)
    as (requested & Hsub & Hsent & Hnew & Hkept & Hfrom).
  destruct (sendRequestObjsMessage (incomingObjects t) sender _ secret now)
    as [incoming' sent].
  cbn [fst snd] in *.
  cbn [fst snd withIncoming outgoingObjects incompleteOps opsForMissingObj
       incomingObjects].
  assert (Hreq : forall req, req ∈ requested ->
             req_dependencyChain req = [] /\ req_hash req ∈ fetch).
  { intros req Hin. eapply elem_of_sublist in Hin; [|exact Hsub].
    apply list_elem_of_fmap in Hin as (h & -> & Hh). done. }
  split; [done|]. split; [exact Hkept|]. split; [|split].
  - intros h ep mv Hmv.
    destruct (Hfrom h ep mv Hmv) as [?|(-> & req & Hin & <- & ->)];
      [by left|].
    right. destruct (Hreq req Hin) as [Hchain Hf]. split; [done|].
    split.
    + subst newMovement. cbn beta. unfold expectedMovement. cbn.
      by rewrite Hchain.
    + exists s. split; [done|]. by apply Hfetch.
  - intros d msg Hin. subst sent.
    destruct requested as [|r rs] eqn:Ereq;
      [by apply not_elem_of_nil in Hin|].
    apply list_elem_of_singleton in Hin. injection Hin as -> ->.
    split; [done|]. right. exists s, (r :: rs).
    split; [done|]. split; [done|]. split.
    + assert (fetch <> []) as Hne.
      { destruct (Hreq r) as [_ Hf]; [left|]. intros He.
        rewrite He in Hf. by apply not_elem_of_nil in Hf. }
      destruct fetch; [done|]. done.
    + intros req Hin. destruct (Hreq req Hin) as [Hchain Hf].
      destruct (Hfetch _ Hf) as (? & ? & ?).
      split; [done|]. split; [done|]. split; [done|]. split; [done|].
      rewrite (Hnew req Hin). subst newMovement. cbn beta.
      unfold expectedMovement. cbn. by rewrite Hchain.
  - intros s' Hs Hcase. by destruct (Hnotbad s' Hs Hcase).
Qed.

(** *** Incoming messages *)

Definition targetObjHashOf (msg : Message) : Hash :=
  match msg with
  | RequestState h | SendState h _ | RequestObjs h _ _ | SendObjs h _ _ _ => h
  end.

Definition withOutgoing (t : Tables) (m : ObjectMovements) : Tables :=
  {| outgoingObjects := m; incomingObjects := incomingObjects t;
     incompleteOps := incompleteOps t;
     opsForMissingObj := opsForMissingObj t |}.

(** [sendState]; [ownState] is the [state] field, whose hash is the
    [stateHash] field. *)
Definition sendState (ownState : option TerminalOpsState) (ep : Endpoint)
  : list Action :=
  match ownState with
  | Some state => [ActSend ep (SendState objHash state)]
  | None => []
  end.

(** [receivePeerMessage].  The state of a [send-state] message is the
    object [HashedObject.fromLiteral] makes of it; [rng] gives the random
    strings drawn in order.  [Thrown] is the rejection of the promise of
    [sendOrScheduleObjects], which nothing handles; [None] is a recursion
    of [findMissingDeps] that did not come back. *)
Definition receivePeerMessage (fuel : nat) (store : Store)
    (ownState : option TerminalOpsState) (t : Tables) (source : Endpoint)
    (msg : Message) (rng : nat -> string) (now : Z)
  : option (Completion (Tables * list Action)) :=
  if decide (targetObjHashOf msg <> objHash) then
    Some (Normal (t, [ActWarning "Received wrong targetObjHash"]))
  else
    match msg with
    | RequestState _ => Some (Normal (t, sendState ownState source))
    | RequestObjs _ requestedObjects secret =>
        match sendOrScheduleObjects store (outgoingObjects t) source
                                    requestedObjects secret now with
        | Thrown e => Some (Thrown e)
        | Normal (outgoing, actions) =>
            Some (Normal (withOutgoing t outgoing, actions))
        end
    | SendState _ state =>
        let '(_, t, actions) :=
          receiveRemoteState store (stateHashOf <$> ownState) t source
                             (stateHashOf state) (Some state) (rng 0%nat) now
        in
        Some (Normal (t, actions))
    | SendObjs _ sentObjects omittedDeps secret =>
        match receiveObjects fuel store t source sentObjects omittedDeps
                             secret rng now with
        | None => None
        | Some (t, actions) => Some (Normal (t, actions))
        end
    end.

Definition repliesTo (source : Endpoint) (actions : list Action) : Prop :=
  forall d msg, ActSend d msg ∈ actions ->
                d = source /\ targetObjHashOf msg = objHash.


Lemma onlyWarnings_repliesTo source actions :
  onlyWarnings actions -> repliesTo source actions.
Proof. intros Hw d msg Hin. by destruct (Hw _ Hin). Qed.







(** *** Incomplete ops *)

Lemma missingObjects_lookup (toRequest : list ObjectRequest) :
  forall (m0 : gmap Hash ObjectRequest) d,
    is_Some (foldl (fun m req => <[req_hash req := req]> m) m0 toRequest !! d)
    <-> is_Some (m0 !! d) \/ d ∈ req_hash <$> toRequest.
Proof.
  induction toRequest as [|req toRequest IH]; intros m0 d; cbn [foldl].
  - split; [by left|]. intros [?|?%not_elem_of_nil]; done.
  - rewrite IH. cbn. rewrite elem_of_cons.
    destruct (decide (req_hash req = d)) as [<-|Hne].
    + rewrite lookup_insert_eq. split; [intros _; right; by left|].
      intros _. left. eauto.
    + rewrite lookup_insert_ne by done. split.
      * intros [?|?]; [by left | by right; right].
      * intros [?|[?|?]]; [by left | congruence | by right].
Qed.

(** The dependencies of an incomplete op that are still missing once a
    context has been merged in. *)
Lemma stillMissing_lookup (merged : Ctx) (missing : gmap Hash ObjectRequest) d :
  deleteAll (List.filter (Context.has _ merged) (map_to_list missing).*1)
            missing !! d
  = if Context.has _ merged d then None else missing !! d.
Proof.
  rewrite lookup_deleteAll.
  destruct (decide (d ∈ List.filter (Context.has _ merged)
                          (map_to_list missing).*1)) as [Hin|Hnin].
  - apply list_elem_of_In, filter_In in Hin as [_ ->]. done.
  - destruct (Context.has _ merged d) eqn:Hhas; [|done].
    destruct (missing !! d) as [req|] eqn:Hd; [|done].
    exfalso. apply Hnin, list_elem_of_In, filter_In. split; [|done].
    apply list_elem_of_In, list_elem_of_fmap. exists (d, req).
    split; [done|]. by apply elem_of_map_to_list.
Qed.

Lemma processIncompleteOp_again
    (t : Tables) (source : Endpoint) (hash : Hash) (context : Ctx)
    (toRequest : list ObjectRequest) (now : Z) (io : IncompleteOp) :
  incompleteOps t !! hash = Some io ->
  let merged := Context.merge _ (io_context io) context in
  let result := processIncompleteOp t source hash context toRequest now in
  ((forall d, is_Some (io_missingObjects io !! d) ->
              Context.has _ merged d = true) ->
   result.2 = [ActProcessReceivedObject hash context] /\
   incompleteOps result.1 !! hash = None) /\
  ((exists d, is_Some (io_missingObjects io !! d) /\
              Context.has _ merged d = false) ->
   result.2 = [] /\
   exists io',
     incompleteOps result.1 !! hash = Some io' /\
     io_source io' = io_source io /\
     io_context io' = merged /\
     (forall d, io_missingObjects io' !! d
                = if Context.has _ merged d then None
                  else io_missingObjects io !! d) /\
     ((exists d, is_Some (io_missingObjects io !! d) /\
                 Context.has _ merged d = true) ->
      io_timeout io' = now + incompleteOpTimeout params * 1000) /\
     ((forall d, is_Some (io_missingObjects io !! d) ->
                 Context.has _ merged d = false) ->
      io_timeout io' = io_timeout io)).
Proof.
  intros Hio merged result. subst result. unfold processIncompleteOp.
  rewrite Hio. fold merged.
  set (still := deleteAll (List.filter (Context.has _ merged)
                             (map_to_list (io_missingObjects io)).*1)
                          (io_missingObjects io)).
  assert (Hstill : forall d,
             still !! d = if Context.has _ merged d then None
                          else io_missingObjects io !! d)
    by (intros d; apply stillMissing_lookup).
  split.
  - intros Hall. rewrite decide_True.
    + cbn [fst snd withIncomplete incompleteOps].
      by rewrite lookup_delete_eq.
    + apply map_size_empty_iff, map_eq. intros d.
      rewrite Hstill, lookup_empty.
      destruct (Context.has _ merged d) eqn:Hhas; [done|].
      destruct (io_missingObjects io !! d) as [req|] eqn:Hd; [|done].
      rewrite Hall in Hhas by eauto. done.
  - intros (d0 & [req0 Hd0] & Hhas0). rewrite decide_False.
    2:{ intros Hsize. apply map_size_empty_iff in Hsize.
        pose proof (Hstill d0) as H0.
        rewrite Hsize, lookup_empty, Hhas0, Hd0 in H0. done. }
    cbn [fst snd withIncomplete incompleteOps].
    split; [done|]. rewrite lookup_insert_eq. eexists. split; [done|].
    cbn [io_source io_context io_missingObjects io_timeout].
    split; [done|]. split; [done|]. split; [exact Hstill|]. split.
    + intros (d & [req Hd] & Hhas).
      assert (Hlt : (size still < size (io_missingObjects io))%nat).
      { apply map_subset_size. split.
        - apply deleteAll_subseteq.
        - intros Hsub.
          pose proof (lookup_weaken _ _ _ _ Hd Hsub) as Hd'.
          rewrite Hstill, Hhas in Hd'. done. }
      apply Nat.ltb_lt in Hlt. by rewrite Hlt.
    + intros Hnone.
      assert (still = io_missingObjects io) as ->.
      { apply map_eq. intros d. rewrite Hstill.
        destruct (Context.has _ merged d) eqn:Hhas; [|done].
        destruct (io_missingObjects io !! d) as [req|] eqn:Hd; [|done].
        rewrite Hnone in Hhas by eauto. done. }
      by rewrite Nat.ltb_irrefl.
Qed.

(** X21.  An op that arrives incomplete is kept, with the source, the
    context and the deadline [now + incompleteOpTimeout], until its
    dependencies have come.  When it arrives again, nothing having touched
    the record in between, the new context is merged into the one kept.  If the merged context then has every
    dependency that was missing, the op is handed on for processing, with
    the context of this last message, and is forgotten.  Otherwise it stays
    on record, from its first source, waiting for exactly the dependencies
    the merged context still lacks, and its deadline is moved only if one
    of them has come; what the later message itself lacks plays no
    part. *)
Theorem incomplete_op_waits_for_its_dependencies
    (t : Tables) (source source2 : Endpoint) (hash : Hash)
    (context context2 : Ctx) (toRequest toRequest2 : list ObjectRequest)
    (now now2 : Z) :
  incompleteOps t !! hash = None ->
  let first := processIncompleteOp t source hash context toRequest now in
  let merged := Context.merge _ context context2 in
  let again :=
    processIncompleteOp first.1 source2 hash context2 toRequest2 now2 in
  let arrived d := Context.has _ merged d = true in
  first.2 = [] /\
  (exists io, incompleteOps first.1 !! hash = Some io /\
              io_source io = source /\ io_context io = context /\
              io_timeout io = now + incompleteOpTimeout params * 1000 /\
              forall d, is_Some (io_missingObjects io !! d) <->
                        d ∈ req_hash <$> toRequest) /\
  ((forall d, d ∈ req_hash <$> toRequest -> arrived d) ->
   again.2 = [ActProcessReceivedObject hash context2] /\
   incompleteOps again.1 !! hash = None) /\
  ((exists d, d ∈ req_hash <$> toRequest /\ ~ arrived d) ->
   again.2 = [] /\
   exists io',
     incompleteOps again.1 !! hash = Some io' /\
     io_source io' = source /\
     io_context io' = merged /\
     (forall d, is_Some (io_missingObjects io' !! d) <->
                d ∈ req_hash <$> toRequest /\ ~ arrived d) /\
     ((exists d, d ∈ req_hash <$> toRequest /\ arrived d) ->
      io_timeout io' = now2 + incompleteOpTimeout params * 1000) /\
     ((forall d, d ∈ req_hash <$> toRequest -> ~ arrived d) ->
      io_timeout io' = now + incompleteOpTimeout params * 1000)) /\
  (forall h, h <> hash ->
             incompleteOps first.1 !! h = incompleteOps t !! h /\
             incompleteOps again.1 !! h = incompleteOps t !! h).
Proof.
  intros Hnew first merged again arrived.
  set (io := {| io_source := source; io_context := context;
                io_missingObjects :=
                  foldl (fun m req => <[req_hash req := req]> m) ∅ toRequest;
                io_timeout := now + incompleteOpTimeout params * 1000 |}).
  assert (Hfirst : first = (withIncomplete t
                              (<[hash := io]> (incompleteOps t))
                              (foldl (fun index objReq =>
                                        MultiMap.add index (req_hash objReq)
                                                     hash)
                                     (opsForMissingObj t) toRequest), [])).
  { subst first. unfold processIncompleteOp. by rewrite Hnew. }
  assert (Hmissing : forall d, is_Some (io_missingObjects io !! d) <->
                               d ∈ req_hash <$> toRequest).
  { intros d. subst io. cbn [io_missingObjects].
    rewrite missingObjects_lookup, lookup_empty. split; [|by right].
    intros [[? ?]|?]; done. }
  assert (Hio : incompleteOps first.1 !! hash = Some io).
  { rewrite Hfirst. cbn [fst withIncomplete incompleteOps].
    by rewrite lookup_insert_eq. }
  pose proof (processIncompleteOp_again first.1 source2 hash context2
                toRequest2 now2 io Hio) as [Hdone Hkept].
  cbn zeta in Hdone, Hkept. fold again in Hdone, Hkept.
  change (Context.merge HashedObject (io_context io) context2)
    with merged in Hdone, Hkept.
  split; [by rewrite Hfirst|]. split; [by exists io|].
  split; [|split].
  - intros Hall. apply Hdone. intros d Hd. by apply Hall, Hmissing.
  - intros (d0 & Hd0 & Hnot0).
    destruct Hkept as (Hacts & io' & Hio' & Hsrc & Hctx & Hmiss & Hmoved & Hsame).
    { exists d0. split; [by apply Hmissing|].
      subst arrived. cbn beta in Hnot0.
      by destruct (Context.has _ merged d0). }
    split; [done|]. exists io'. split; [done|]. split; [done|].
    split; [done|]. split.
    + intros d. rewrite Hmiss. subst arrived. cbn beta.
      destruct (Context.has _ merged d).
      * split; [by intros [? ?] | by intros [_ ?]].
      * rewrite Hmissing. split; [by intros ? | by intros [? _]].
    + split.
      * intros (d & Hd & Ha). apply Hmoved. exists d.
        split; [by apply Hmissing | done].
      * intros Hno. rewrite Hsame; [done|]. intros d Hd.
        destruct (Context.has _ merged d) eqn:Hhas; [|done].
        exfalso. apply (Hno d); [by apply Hmissing | done].
  - intros h Hne.
    assert (H1 : incompleteOps first.1 !! h = incompleteOps t !! h).
    { rewrite Hfirst. cbn [fst withIncomplete incompleteOps].
      by rewrite lookup_insert_ne. }
    split; [done|]. rewrite <- H1. subst again.
    unfold processIncompleteOp. rewrite Hio.
    destruct (decide _); cbn [fst withIncomplete incompleteOps].
    + by rewrite lookup_delete_ne.
    + by rewrite lookup_insert_ne.
Qed.

(** *** Replies and deadlines *)

Lemma movementAt_sweepMovements now objs h ep :
  movementAt (sweepMovements now objs).1 h ep
  = match movementAt objs h ep with
    | Some mv => if now >? mv_timeout mv then None else Some mv
    | None => None
    end.
Proof.
  unfold movementAt. rewrite sweepMovements_lookup.
  destruct (objs !! h) as [d|]; [|done]. cbn zeta.
  pose proof (lookup_deleteAll_outdated now d ep) as Hl.
  destruct (decide (size (deleteAll (outdatedEndpoints now d) d) = 0%nat))
    as [Hs|Hs]; cbn [mbind option_bind]; [|done].
  apply map_size_empty_iff in Hs. rewrite Hs, lookup_empty in Hl. done.
Qed.

(** X23.  A reply is honoured until its deadline and the sweep that
    follows it.  Requests go out to a peer at time [sent] under a secret no
    pending movement of that peer carries.  A housekeeping sweep that runs
    no later than [sent + receiveTimeout] leaves every request of the
    message on record, so its reply is still expected; after a sweep that
    runs later than that, [receiveObjects] ignores whatever that peer sends
    under the secret: the tables stay as they are and there are only
    warnings. *)
Theorem replies_are_honoured_until_the_deadline
    (t : Tables) (source : Endpoint) (reqs : list ObjectRequest)
    (secret : string) (sent now : Z) :
  (forall h mv, movementAt (incomingObjects t) h source = Some mv ->
                mv_secret mv <> secret) ->
  let asked :=
    sendRequestObjsMessage (incomingObjects t) source reqs secret sent in
  let swept := opShippingInterval now (withIncoming t asked.1) in
  (now <= sent + receiveTimeout params * 1000 ->
   forall d requested s req,
     ActSend d (RequestObjs objHash requested s) ∈ asked.2 ->
     req ∈ requested ->
     expectedFrom swept source (Some secret) (req_hash req)) /\
  (now > sent + receiveTimeout params * 1000 ->
   forall fuel store literalContext omittedDeps rng now',
   exists warnings,
     receiveObjects fuel store swept source literalContext omittedDeps
                    (Some secret) rng now' = Some (swept, warnings) /\
     onlyWarnings warnings).
Proof.
  intros Hfresh asked swept.
  destruct (sendRequestObjsMessage_spec (incomingObjects t) source reqs
              secret sent)
    as (requested & Hsub & Hsent & Hnew & Hkept & Hfrom).
  fold asked in Hsent, Hnew, Hkept, Hfrom.
  assert (Hswept : forall h ep,
             movementAt (incomingObjects swept) h ep
             = match movementAt asked.1 h ep with
               | Some mv => if now >? mv_timeout mv then None else Some mv
               | None => None
               end).
  { intros h ep. subst swept. rewrite opShippingInterval_incoming.
    apply movementAt_sweepMovements. }
  split.
  - intros Hearly d requested' s req Hin Hreq.
    rewrite Hsent in Hin.
    destruct requested as [|r rs]; [by apply not_elem_of_nil in Hin|].
    apply list_elem_of_singleton in Hin. injection Hin as _ -> _.
    exists (expectedMovement secret sent req). split; [|done].
    rewrite Hswept, (Hnew req Hreq). cbn [expectedMovement mv_timeout].
    destruct (Z.gtb_spec now (sent + receiveTimeout params * 1000));
      [lia | done].
  - intros Hlate fuel store literalContext omittedDeps rng now'.
    assert (Hnone : forall h, ~ expectedFrom swept source (Some secret) h).
    { intros h (mv & Hmv & Hs). rewrite Hswept in Hmv.
      destruct (movementAt asked.1 h source) as [mv0|] eqn:Hmv0; [|done].
      destruct (now >? mv_timeout mv0) eqn:Ht; [done|].
      injection Hmv as <-.
      destruct (Hfrom h source mv0 Hmv0) as [Hold|(_ & req & _ & _ & ->)].
      - apply (Hfresh h mv0 Hold). by injection Hs.
      - cbn [expectedMovement mv_timeout] in Ht.
        destruct (Z.gtb_spec now (sent + receiveTimeout params * 1000));
          [done | lia]. }
    unfold receiveObjects.
    destruct (Context.checkRootHashes _ _ && Context.checkLiteralHashes _ _ _).
    + destruct (receiveRoots_ignored fuel store source
                  (ownershipProofForHash omittedDeps) (Some secret) rng now'
                  swept
                  (Context.fromLiteralContext HashedObject literalContext)
                  (lc_rootHashes literalContext) (fun h _ => Hnone h) 0%nat [])
        as (warnings & Hrun & Hw).
      cbn [Context.fromLiteralContext Context.rootHashes] in *.
      rewrite Hrun. by exists warnings.
    + eexists. split; [done|].
      intros a Ha. apply list_elem_of_singleton in Ha. eauto.
Qed.

End Agent.


(** *** Concrete runs

    Two peers sync the mutable object ["M"], which accepts ops of class
    ["hhs-test/SomeMutation"].  Peer A holds the op ["op1"], its
    predecessor ["op0"], the identity ["id1"] that ["op1"] refers to, and an
    unrelated document ["doc9"].  Peer B holds ["id1"] only. *)

Record DemoObject := {
  demoHash    : Hash;
  demoClass   : string;
  demoTarget  : option Hash;
  demoLiteral : Literal
}.

Definition demoHashWithSeed (o : DemoObject) (seed : string) : Hash :=
  String.append (demoHash o) (String.append "#" seed).

Definition demoToContext (o : DemoObject) (c : Context.Context DemoObject)
  : Context.Context DemoObject :=
  {| Context.rootHashes := Context.rootHashes _ c ++ [demoHash o];
     Context.objects := Context.objects _ c;
     Context.literals := <[demoHash o := demoLiteral o]> (Context.literals _ c) |}.

Definition demoStateHash (s : TerminalOpsState) : Hash :=
  foldr String.append (mutableObj s) (terminalOps s).

(** The demo hash of a literal value is kept in its field ["id"]. *)
Definition demoForValue (v : LiteralValue) : Hash :=
  match v_fields v !! "id" with
  | Some (FieldData h) => h
  | _ => ""
  end.

Definition demoAccepted : list string := ["hhs-test/SomeMutation"].

Definition demoObject (hash class : string) (target : option Hash)
    (deps : list Dependency) : DemoObject :=
  {| demoHash := hash; demoClass := class; demoTarget := target;
     demoLiteral :=
       {| lit_hash := hash;
          lit_value :=
            {| v_class := class;
               v_fields :=
                 <["id" := FieldData hash]>
                   match target with
                   | Some t => {["targetObject" := FieldReference t]}
                   | None => ∅
                   end |};
          dependencies := deps;
          signatures := [] |} |}.

Definition refTo (hash path : string) : Dependency :=
  {| dep_hash := hash; dep_path := path; dep_type := reference |}.

Definition op0 : DemoObject :=
  demoObject "op0" "hhs-test/SomeMutation" (Some "M") [].
Definition id1 : DemoObject := demoObject "id1" "hhs/Identity" None [].
Definition op1 : DemoObject :=
  demoObject "op1" "hhs-test/SomeMutation" (Some "M")
             [refTo "id1" "author"; refTo "op0" "prevOps"].
Definition doc9 : DemoObject := demoObject "doc9" "acme/Document" None [].

Definition storeOf (objs : list DemoObject) : Store DemoObject :=
  {| storedObjects := list_to_map ((fun o => (demoHash o, o)) <$> objs);
     storedLiterals :=
       list_to_map ((fun o => (demoHash o, demoLiteral o)) <$> objs) |}.

Definition storeA : Store DemoObject := storeOf [op0; id1; op1; doc9].
Definition storeB : Store DemoObject := storeOf [id1].

Definition request (hash : Hash) (chain : list Hash) : ObjectRequest :=
  {| req_hash := hash; req_dependencyChain := chain |}.

(** B asks A for the op, for the identity below it, and for the document,
    once bare and once under a chain through ["op1"]. *)
Definition requestsOfB : list ObjectRequest :=
  [request "op1" []; request "doc9" []; request "id1" ["op1"];
   request "doc9" ["op1"]].

Definition replyOfA
  : Completion (list (Action DemoObject) * list ObjectRequest) :=
  tryToSendObjects DemoObject demoHashWithSeed demoClass demoTarget
                   demoToContext "M" demoAccepted storeA "peerB"
                   requestsOfB "s3cr3t".

Definition sentRoots (actions : list (Action DemoObject)) : list Hash :=
  flat_map (fun a => match a with
                     | ActSend _ _ (SendObjs _ sent _ _) => lc_rootHashes sent
                     | _ => []
                     end) actions.

Example reply_of_A_has_the_rooted_objects_only :
  match replyOfA with
  | Normal (actions, later) => (sentRoots actions, later)
  | Thrown _ => ([], [])
  end = (["op1"; "id1"], []).
Proof. vm_compute. reflexivity. Qed.

Definition replyOfA_value : list (Action DemoObject) * list ObjectRequest :=
  match replyOfA with
  | Normal r => r
  | Thrown _ => ([], [])
  end.

Lemma only_rooted_requests_are_served_witness :
  replyOfA = Normal (replyOfA_value.1, replyOfA_value.2) /\
  exists servedRequests,
    servedRequests `sublist_of` requestsOfB /\
    (forall req, req ∈ servedRequests <->
       req ∈ requestsOfB /\
       RootedInAcceptedOp DemoObject demoClass demoTarget "M" demoAccepted
                          storeA req /\
       is_Some (load DemoObject storeA (req_hash req))) /\
    tryToSendObjects DemoObject demoHashWithSeed demoClass demoTarget
                     demoToContext "M" demoAccepted storeA "peerB"
                     servedRequests "s3cr3t"
    = Normal (replyOfA_value.1, []) /\
    (forall target sent proofs s,
        ActSend DemoObject "peerB" (SendObjs target sent proofs s)
          ∈ replyOfA_value.1 ->
        sent = Context.toLiteralContext _
                 (foldl (fun c obj => demoToContext obj c)
                        (Context.new DemoObject)
                        (omap (fun r => load DemoObject storeA (req_hash r))
                              servedRequests))).
Proof.
  assert (H : replyOfA = Normal (replyOfA_value.1, replyOfA_value.2))
    by (vm_compute; reflexivity).
  split; [exact H|].
  exact (only_rooted_requests_are_served DemoObject demoHashWithSeed demoClass
           demoTarget demoToContext "M" demoAccepted storeA "peerB"
           requestsOfB "s3cr3t" replyOfA_value.1 replyOfA_value.2 H).
Defined.

(** A send-objs message from A with ["op1"] as root and proofs for the
    two omitted references, as B gets it while it expects ["op1"] from A
    under the secret ["s3cr3t"]. *)
Definition contextFromA : Context.Context DemoObject :=
  {| Context.rootHashes := ["op1"]; Context.objects := ∅;
     Context.literals := {["op1" := demoLiteral op1]} |}.

Definition proofsFromA : list OwnershipProof :=
  [{| proof_hash := "id1"; ownershipProofHash := demoHashWithSeed id1 "s3cr3t" |};
   {| proof_hash := "op0"; ownershipProofHash := demoHashWithSeed op0 "s3cr3t" |}].

Definition expectingOp1 : Tables DemoObject :=
  withIncoming _ (emptyTables DemoObject)
    (sendRequestObjsMessage DemoObject defaultParams "M" ∅ "peerA"
                            [request "op1" []] "s3cr3t" 0).1.




Example proven_dependency_is_folded_in_and_the_other_requested :
  (fun r => (r.1, Context.objects _ r.2 !! "id1", Context.objects _ r.2 !! "op0"))
    <$> resolveMissingDeps DemoObject demoHashWithSeed 2 storeB "s3cr3t"
          (ownershipProofForHash proofsFromA) contextFromA "op1"
  = Some ([request "op0" ["op1"]], Some id1, None).
Proof. vm_compute. reflexivity. Qed.

(** With a proof made under another secret, the identity is asked for as
    well, although B holds it. *)
Example unproven_dependency_is_requested :
  (fun r => (r.1, Context.objects _ r.2 !! "id1"))
    <$> resolveMissingDeps DemoObject demoHashWithSeed 2 storeB "s3cr3t"
          (ownershipProofForHash
             [{| proof_hash := "id1";
                 ownershipProofHash := demoHashWithSeed id1 "guess" |}])
          contextFromA "op1"
  = Some ([request "id1" ["op1"]; request "op0" ["op1"]], None).
Proof. vm_compute. reflexivity. Qed.

(** B receives the message at time 1000 (ms). *)
Definition afterPartialArrival : Tables DemoObject :=
  match receiveObjects DemoObject demoHashWithSeed demoForValue defaultParams
          "M" demoAccepted 2 storeB expectingOp1 "peerA"
          (Context.toLiteralContext _ contextFromA) proofsFromA
          (Some "s3cr3t") (fun _ => "fr3sh") 1000 with
  | Some (t, _) => t
  | None => emptyTables DemoObject
  end.

Example partial_arrival_is_recorded_and_followed_up :
  snd <$> receiveObjects DemoObject demoHashWithSeed demoForValue
            defaultParams
            "M" demoAccepted 2 storeB expectingOp1 "peerA"
            (Context.toLiteralContext _ contextFromA) proofsFromA
            (Some "s3cr3t") (fun _ => "fr3sh") 1000
  = Some [ActSend DemoObject "peerA"
            (RequestObjs "M" [request "op0" ["op1"]] "fr3sh")].
Proof. vm_compute. reflexivity. Qed.

(** C3.  The incomplete op recorded at time 1000 has its deadline at
    3601000 ([incompleteOpTimeout] is 3600 s).  The sweep at time 6000
    removes it, with its reverse-index entry, although the deadline lies an
    hour ahead; the sweep at time 3700000, after the deadline, leaves it in
    place.  The test [incompleteOp.timeout > now] selects the entries that
    have not expired. *)
Theorem sweep_evicts_fresh_incomplete_ops_and_keeps_expired_ones :
  io_timeout _ <$> (incompleteOps _ afterPartialArrival !! "op1")
  = Some 3601000 /\
  opsForMissingObj _ afterPartialArrival !! "op0" = Some {["op1"]} /\
  incompleteOps _ (opShippingInterval _ 6000 afterPartialArrival) !! "op1" = None /\
  opsForMissingObj _ (opShippingInterval _ 6000 afterPartialArrival) !! "op0" = None /\
  io_timeout _ <$>
    (incompleteOps _ (opShippingInterval _ 3700000 afterPartialArrival)
       !! "op1")
  = Some 3601000.
Proof.
  split; [vm_compute; reflexivity|].
  split; [vm_compute; reflexivity|].
  split; [rewrite opShippingInterval_incompleteOps; vm_compute; reflexivity|].
  split; [vm_compute; reflexivity|].
  rewrite opShippingInterval_incompleteOps. vm_compute. reflexivity.
Qed.

(** The movement tables are swept with the comparison the other way
    round: a pending request is dropped once its deadline has passed. *)
Example sweep_drops_expired_movements :
  (opShippingInterval _ 6000 expectingOp1).(incomingObjects _) !! "op1"
  = expectingOp1.(incomingObjects _) !! "op1" /\
  (opShippingInterval _ 90001 expectingOp1).(incomingObjects _) !! "op1" = None.
Proof. split; vm_compute; reflexivity. Qed.

(** Two peers have been asked for ["op1"]; a third is not asked. *)
Definition twoPending : ObjectMovements :=
  (sendRequestObjsMessage DemoObject defaultParams "M"
     (sendRequestObjsMessage DemoObject defaultParams "M" ∅ "peerA"
        [request "op1" []] "s1" 0).1
     "peerC" [request "op1" []] "s2" 10).1.

Example third_request_is_not_registered :
  sendRequestObjsMessage DemoObject defaultParams "M" twoPending "peerD"
                         [request "op1" []; request "op0" []] "s3" 20
  = (<["op0" := {["peerD" := {| mv_timeout := 90020; mv_secret := "s3";
                                mv_dependencyChain := [] |}]}]> twoPending,
     [ActSend DemoObject "peerD" (RequestObjs "M" [request "op0" []] "s3")]).
Proof. vm_compute. reflexivity. Qed.


Example incoming_requests_after_partial_arrival :
  incomingObjects _ afterPartialArrival
  = {["op0" := {["peerA" := {| mv_timeout := 91000; mv_secret := "fr3sh";
                               mv_dependencyChain := ["op1"] |}]}]}.
Proof. vm_compute. reflexivity. Qed.


(** A state of A's, as B hears of it while ["op1"] is still incomplete:
    ["op0"] is to be fetched. *)
Definition stateOfA : TerminalOpsState :=
  {| mutableObj := "M"; terminalOps := ["op1"; "op0"] |}.

Lemma incompleteOps_afterPartialArrival :
  exists io, incompleteOps _ afterPartialArrival = {["op1" := io]}.
Proof. eexists. vm_compute. reflexivity. Qed.

Lemma incomplete_ops_of_B_are_not_stored h op :
  is_Some (incompleteOps _ afterPartialArrival !! h) ->
  load DemoObject storeB h = Some op ->
  shouldAcceptMutationOp DemoObject demoClass demoTarget "M" demoAccepted op
  = true.
Proof.
  intros [io Hio] Hop. exfalso.
  destruct incompleteOps_afterPartialArrival as [io' Heq].
  rewrite Heq in Hio. apply lookup_singleton_Some in Hio as [Hh _].
  subst h.
  assert (Hnone : load DemoObject storeB "op1" = None)
    by (vm_compute; reflexivity).
  congruence.
Qed.

Lemma remote_state_is_new_only_if_ops_are_missing_witness :
  (forall h op,
      is_Some (incompleteOps _ afterPartialArrival !! h) ->
      load DemoObject storeB h = Some op ->
      shouldAcceptMutationOp DemoObject demoClass demoTarget "M"
                             demoAccepted op = true) /\
  let result :=
    receiveRemoteState DemoObject demoClass demoTarget demoStateHash
      defaultParams "M" demoAccepted storeB None afterPartialArrival "peerA"
      (demoStateHash stateOfA) (Some stateOfA) "s4" 2000 in
  (forall s, Some stateOfA = Some s ->
     demoStateHash s = demoStateHash stateOfA ->
     (result.1.1 = true ->
      (exists h, h ∈ terminalOps s /\ load DemoObject storeB h = None /\
                 incompleteOps _ afterPartialArrival !! h = None) /\
      (forall h op, h ∈ terminalOps s -> load DemoObject storeB h = Some op ->
                    shouldAcceptMutationOp DemoObject demoClass demoTarget
                                           "M" demoAccepted op = true)) /\
     ((forall h, h ∈ terminalOps s -> is_Some (load DemoObject storeB h)) ->
      result.1.1 = false)) /\
  (Some stateOfA = None ->
   result.1.1 = false /\
   result.2 = if bool_decide (Some (demoStateHash stateOfA) = None) then []
              else [ActSend DemoObject "peerA" (RequestState "M")]).
Proof.
  split; [exact incomplete_ops_of_B_are_not_stored|].
  exact (remote_state_is_new_only_if_ops_are_missing DemoObject demoClass
           demoTarget demoStateHash defaultParams "M" demoAccepted storeB
           None afterPartialArrival "peerA" (demoStateHash stateOfA)
           (Some stateOfA) "s4" 2000 incomplete_ops_of_B_are_not_stored).
Defined.

Example remote_state_with_a_missing_op_is_new :
  (receiveRemoteState DemoObject demoClass demoTarget demoStateHash
     defaultParams "M" demoAccepted storeB None afterPartialArrival "peerA"
     (demoStateHash stateOfA) (Some stateOfA) "s4" 2000).1.1 = true.
Proof. vm_compute. reflexivity. Qed.

Example remote_state_held_locally_is_not_new :
  (receiveRemoteState DemoObject demoClass demoTarget demoStateHash
     defaultParams "M" demoAccepted storeA None (emptyTables _) "peerB"
     (demoStateHash stateOfA) (Some stateOfA) "s4" 2000).1.1 = false.
Proof. vm_compute. reflexivity. Qed.

(** *** More concrete runs *)

Lemma ownership_proofs_are_keyed_hashes_of_stored_objects_witness :
  replyOfA = Normal (replyOfA_value.1, replyOfA_value.2) /\
  (length replyOfA_value.1 <= 1)%nat /\
  forall d msg,
    ActSend DemoObject d msg ∈ replyOfA_value.1 ->
    d = "peerB" /\
    exists sent proofs,
      msg = SendObjs "M" sent proofs (Some "s3cr3t") /\
      lc_rootHashes sent <> [] /\
      NoDup (proof_hash <$> proofs) /\
      (forall p, p ∈ proofs ->
         exists ref, load DemoObject storeA (proof_hash p) = Some ref /\
                     ownershipProofHash p = demoHashWithSeed ref "s3cr3t") /\
      (forall receiverStore p,
          p ∈ proofs ->
          load DemoObject receiverStore (proof_hash p)
          = load DemoObject storeA (proof_hash p) ->
          provenLocally DemoObject demoHashWithSeed receiverStore "s3cr3t"
                        (ownershipProofForHash proofs) (proof_hash p)
          = load DemoObject storeA (proof_hash p)).
Proof.
  assert (H : replyOfA = Normal (replyOfA_value.1, replyOfA_value.2))
    by (vm_compute; reflexivity).
  split; [exact H|].
  exact (ownership_proofs_are_keyed_hashes_of_stored_objects DemoObject
           demoHashWithSeed demoClass demoTarget demoToContext "M"
           demoAccepted storeA "peerB" requestsOfB "s3cr3t"
           replyOfA_value.1 replyOfA_value.2 H).
Defined.

Example proofs_in_the_reply_of_A :
  flat_map (fun a => match a with
                     | ActSend _ _ (SendObjs _ _ proofs _) => proofs
                     | _ => []
                     end) replyOfA_value.1
  = [{| proof_hash := "id1"; ownershipProofHash := "id1#s3cr3t" |};
     {| proof_hash := "op0"; ownershipProofHash := "op0#s3cr3t" |}].
Proof. vm_compute. reflexivity. Qed.

(** A peer that holds ["op1"] and ["id1"] but not yet ["op0"] is asked
    for both objects below the op. *)
Definition storeWithoutOp0 : Store DemoObject := storeOf [id1; op1].

Definition scheduledRun : ObjectMovements * list (Action DemoObject) :=
  match sendOrScheduleObjects DemoObject demoHashWithSeed demoClass demoTarget
          demoToContext defaultParams "M" demoAccepted storeWithoutOp0 ∅
          "peerB" [request "op0" ["op1"]; request "id1" ["op1"]] "s3cr3t" 500
  with
  | Normal r => r
  | Thrown _ => (∅, [])
  end.


Example missing_object_is_scheduled_and_the_other_sent :
  (sentRoots scheduledRun.2, movementAt scheduledRun.1 "op0" "peerB",
   movementAt scheduledRun.1 "id1" "peerB")
  = (["id1"],
     Some {| mv_timeout := 60500; mv_secret := "s3cr3t";
             mv_dependencyChain := ["op1"] |},
     None).
Proof. vm_compute. reflexivity. Qed.

(** A context in which the missing ["x"] hangs off the root ["op1"]
    twice: below ["mid"], and directly. *)
Definition twoWays : Context.Context DemoObject :=
  {| Context.rootHashes := ["op1"]; Context.objects := ∅;
     Context.literals :=
       <["op1" := demoLiteral
                    (demoObject "op1" "hhs-test/SomeMutation" (Some "M")
                                [refTo "mid" "a"; refTo "x" "b"])]>
         {["mid" := demoLiteral
                      (demoObject "mid" "acme/Document" None
                                  [refTo "x" "c"])]} |}.

Definition rankInTwoWays (h : Hash) : nat :=
  if decide (h = "op1") then 2%nat
  else if decide (h = "mid") then 1%nat else 0%nat.

Lemma findMissingDeps_picks_a_shortest_chain_witness :
  (forall h literal x,
      literalIn DemoObject twoWays h = Some literal ->
      x ∈ dep_hash <$> dependencies literal ->
      (rankInTwoWays x < rankInTwoWays h)%nat) /\
  (rankInTwoWays "op1" < 3)%nat /\
  exists missing,
    Context.findMissingDeps DemoObject 3 twoWays "op1" [] [] = Some missing /\
    NoDup missing.*1 /\
    (forall d, d ∈ missing.*1 <-> MissingFrom DemoObject twoWays "op1" d) /\
    (forall d ch, (d, ch) ∈ missing ->
       ChainWalk (literalIn DemoObject twoWays) d ch "op1" /\
       forall ch', ChainWalk (literalIn DemoObject twoWays) d ch' "op1" ->
                   (length ch <= length ch')%nat).
Proof.
  assert (Hrank : forall h literal x,
             literalIn DemoObject twoWays h = Some literal ->
             x ∈ dep_hash <$> dependencies literal ->
             (rankInTwoWays x < rankInTwoWays h)%nat).
  { intros h literal x Hl Hx. unfold literalIn, twoWays in Hl.
    cbn [Context.literals] in Hl.
    apply lookup_insert_Some in Hl as [[<- <-]|[_ Hl]].
    - cbn in Hx. apply elem_of_cons in Hx as [->|Hx]; [vm_compute; lia|].
      apply list_elem_of_singleton in Hx as ->. vm_compute; lia.
    - apply lookup_singleton_Some in Hl as [<- <-].
      cbn in Hx. apply list_elem_of_singleton in Hx as ->. vm_compute; lia. }
  assert (Hfuel : (rankInTwoWays "op1" < 3)%nat) by (vm_compute; lia).
  split; [exact Hrank|]. split; [exact Hfuel|].
  exact (findMissingDeps_picks_a_shortest_chain DemoObject twoWays "op1"
           rankInTwoWays 3 Hrank Hfuel).
Defined.

Example the_direct_chain_is_picked :
  Context.findMissingDeps DemoObject 3 twoWays "op1" [] []
  = Some [("x", ["op1"])].
Proof. vm_compute. reflexivity. Qed.

(** What B makes of the message from A: the request it builds, and the
    context with the proven identity. *)
Definition resolvedAtB : list ObjectRequest * Context.Context DemoObject :=
  match resolveMissingDeps DemoObject demoHashWithSeed 2 storeB "s3cr3t"
          (ownershipProofForHash proofsFromA) contextFromA "op1" with
  | Some r => r
  | None => ([], contextFromA)
  end.

Lemma follow_up_requests_pass_the_check_of_the_sender_witness :
  resolveMissingDeps DemoObject demoHashWithSeed 2 storeB "s3cr3t"
    (ownershipProofForHash proofsFromA) contextFromA "op1"
  = Some (resolvedAtB.1, resolvedAtB.2) /\
  (forall x literal, literalIn DemoObject contextFromA x = Some literal ->
                     loadLiteral DemoObject storeA x = Some literal) /\
  load DemoObject storeA "op1" = Some op1 /\
  shouldAcceptMutationOp DemoObject demoClass demoTarget "M" demoAccepted op1
  = true /\
  request "op0" ["op1"] ∈ resolvedAtB.1 /\
  served DemoObject demoClass demoTarget "M" demoAccepted storeA
         (request "op0" ["op1"]) = true.
Proof.
  assert (Hres : resolveMissingDeps DemoObject demoHashWithSeed 2 storeB
                   "s3cr3t" (ownershipProofForHash proofsFromA) contextFromA
                   "op1" = Some (resolvedAtB.1, resolvedAtB.2))
    by (vm_compute; reflexivity).
  assert (Hsub : forall x literal,
             literalIn DemoObject contextFromA x = Some literal ->
             loadLiteral DemoObject storeA x = Some literal).
  { intros x literal Hl. unfold literalIn, contextFromA in Hl.
    cbn [Context.literals] in Hl.
    apply lookup_singleton_Some in Hl as [<- <-]. vm_compute. reflexivity. }
  assert (Hop : load DemoObject storeA "op1" = Some op1)
    by (vm_compute; reflexivity).
  assert (Hacc : shouldAcceptMutationOp DemoObject demoClass demoTarget "M"
                   demoAccepted op1 = true) by (vm_compute; reflexivity).
  assert (Hin : request "op0" ["op1"] ∈ resolvedAtB.1).
  { replace resolvedAtB.1 with [request "op0" ["op1"]]
      by (vm_compute; reflexivity).
    left. }
  split; [exact Hres|]. split; [exact Hsub|]. split; [exact Hop|].
  split; [exact Hacc|]. split; [exact Hin|].
  refine (proj1 (proj2 (proj2
            (follow_up_requests_pass_the_check_of_the_sender DemoObject
               demoHashWithSeed demoClass demoTarget "M" demoAccepted 2
               storeB storeA "s3cr3t" (ownershipProofForHash proofsFromA)
               contextFromA resolvedAtB.2 "op1" resolvedAtB.1 op1
               Hres Hsub Hop Hacc (request "op0" ["op1"]) Hin))) _).
  vm_compute. eauto.
Defined.

Lemma receiveObjects_ignores_what_was_not_asked_for_witness :
  ((let context :=
      Context.fromLiteralContext DemoObject
        (Context.toLiteralContext _ contextFromA) in
    Context.checkRootHashes _ context
    && Context.checkLiteralHashes _ demoForValue context = false) \/
   (forall h, h ∈ lc_rootHashes (Context.toLiteralContext _ contextFromA) ->
              ~ expectedFrom DemoObject (emptyTables DemoObject) "peerA"
                  (Some "s3cr3t") h)) /\
  exists warnings,
    receiveObjects DemoObject demoHashWithSeed demoForValue defaultParams
      "M" demoAccepted 2 storeB (emptyTables DemoObject) "peerA"
      (Context.toLiteralContext _ contextFromA) proofsFromA (Some "s3cr3t")
      (fun _ => "fr3sh") 1000
    = Some (emptyTables DemoObject, warnings) /\
    onlyWarnings DemoObject warnings.
Proof.
  assert (H : (let context :=
                 Context.fromLiteralContext DemoObject
                   (Context.toLiteralContext _ contextFromA) in
               Context.checkRootHashes _ context
               && Context.checkLiteralHashes _ demoForValue context = false) \/
              (forall h,
                  h ∈ lc_rootHashes (Context.toLiteralContext _ contextFromA) ->
                  ~ expectedFrom DemoObject (emptyTables DemoObject) "peerA"
                      (Some "s3cr3t") h)).
  { right. intros h _ (mv & Hmv & _). unfold movementAt in Hmv.
    cbn [emptyTables incomingObjects] in Hmv.
    rewrite lookup_empty in Hmv. done. }
  split; [exact H|].
  exact (receiveObjects_ignores_what_was_not_asked_for DemoObject
           demoHashWithSeed demoForValue defaultParams "M" demoAccepted 2
           storeB (emptyTables DemoObject) "peerA"
           (Context.toLiteralContext _ contextFromA) proofsFromA
           (Some "s3cr3t") (fun _ => "fr3sh") 1000 H).
Defined.

Lemma a_send_objs_message_is_consumed_once_witness :
  receiveObjects DemoObject demoHashWithSeed demoForValue defaultParams
    "M" demoAccepted 2 storeB expectingOp1 "peerA"
    (Context.toLiteralContext _ contextFromA) proofsFromA (Some "s3cr3t")
    (fun _ => "fr3sh") 1000
  = Some (afterPartialArrival,
          [ActSend DemoObject "peerA"
             (RequestObjs "M" [request "op0" ["op1"]] "fr3sh")]) /\
  forall fuel' store' omittedDeps' rng' now',
  exists warnings,
    receiveObjects DemoObject demoHashWithSeed demoForValue defaultParams
      "M" demoAccepted fuel' store' afterPartialArrival "peerA"
      (Context.toLiteralContext _ contextFromA) omittedDeps' (Some "s3cr3t")
      rng' now'
    = Some (afterPartialArrival, warnings) /\
    onlyWarnings DemoObject warnings.
Proof.
  assert (H : receiveObjects DemoObject demoHashWithSeed demoForValue
                defaultParams "M" demoAccepted 2 storeB expectingOp1 "peerA"
                (Context.toLiteralContext _ contextFromA) proofsFromA
                (Some "s3cr3t") (fun _ => "fr3sh") 1000
              = Some (afterPartialArrival,
                      [ActSend DemoObject "peerA"
                         (RequestObjs "M" [request "op0" ["op1"]] "fr3sh")]))
    by (vm_compute; reflexivity).
  split; [exact H|].
  exact (proj2 (a_send_objs_message_is_consumed_once DemoObject
                  demoHashWithSeed demoForValue defaultParams "M" demoAccepted
                  2 storeB expectingOp1 "peerA"
                  (Context.toLiteralContext _ contextFromA) proofsFromA
                  (Some "s3cr3t") (fun _ => "fr3sh") 1000 afterPartialArrival
                  _ H)).
Defined.

Example the_same_message_again_is_ignored :
  receiveObjects DemoObject demoHashWithSeed demoForValue defaultParams
    "M" demoAccepted 2 storeB afterPartialArrival "peerA"
    (Context.toLiteralContext _ contextFromA) proofsFromA (Some "s3cr3t")
    (fun _ => "fr3sh") 2000
  = Some (afterPartialArrival,
          [ActWarning DemoObject "missing incoming object entry"]).
Proof. vm_compute. reflexivity. Qed.



Example message_for_another_object_is_dropped :
  receivePeerMessage DemoObject demoHashWithSeed demoClass demoTarget
    demoToContext demoStateHash demoForValue defaultParams "M"
    demoAccepted 2 storeA None (emptyTables DemoObject) "peerB"
    (RequestObjs "N" requestsOfB "s3cr3t") (fun _ => "fr3sh") 700
  = Some (Normal (emptyTables DemoObject,
                  [ActWarning DemoObject "Received wrong targetObjHash"])).
Proof. vm_compute. reflexivity. Qed.

(** The context of a later message that brings ["op0"]. *)
Definition contextWithOp0 : Context.Context DemoObject :=
  {| Context.rootHashes := ["op0"]; Context.objects := ∅;
     Context.literals := {["op0" := demoLiteral op0]} |}.

Lemma incomplete_op_waits_for_its_dependencies_witness :
  incompleteOps DemoObject expectingOp1 !! "op1" = None /\
  ((forall d, d ∈ req_hash <$> [request "op0" ["op1"]] ->
              Context.has _ (Context.merge _ contextFromA contextWithOp0) d
              = true) ->
   (processIncompleteOp DemoObject defaultParams
      (processIncompleteOp DemoObject defaultParams expectingOp1 "peerA"
         "op1" contextFromA [request "op0" ["op1"]] 1000).1
      "peerC" "op1" contextWithOp0 [] 2000).2
   = [ActProcessReceivedObject DemoObject "op1" contextWithOp0] /\
   incompleteOps DemoObject
     (processIncompleteOp DemoObject defaultParams
        (processIncompleteOp DemoObject defaultParams expectingOp1 "peerA"
           "op1" contextFromA [request "op0" ["op1"]] 1000).1
        "peerC" "op1" contextWithOp0 [] 2000).1 !! "op1" = None).
Proof.
  assert (H : incompleteOps DemoObject expectingOp1 !! "op1" = None)
    by (vm_compute; reflexivity).
  split; [exact H|].
  pose proof (incomplete_op_waits_for_its_dependencies DemoObject
                defaultParams expectingOp1 "peerA" "peerC" "op1"
                contextFromA contextWithOp0 [request "op0" ["op1"]] []
                1000 2000 H) as Hw.
  cbv zeta in Hw. exact (proj1 (proj2 (proj2 Hw))).
Defined.

Example the_op_is_handed_on_with_the_last_context :
  (processIncompleteOp DemoObject defaultParams
     (processIncompleteOp DemoObject defaultParams expectingOp1 "peerA"
        "op1" contextFromA [request "op0" ["op1"]] 1000).1
     "peerC" "op1" contextWithOp0 [] 2000).2
  = [ActProcessReceivedObject DemoObject "op1" contextWithOp0].
Proof. vm_compute. reflexivity. Qed.

(** Peer B, with nothing on record, asks peer A for [op1] at time 0; the
    reply of A is awaited for [receiveTimeout = 90] seconds. *)
Definition askedForOp1 : ObjectMovements * list (Action DemoObject) :=
  sendRequestObjsMessage DemoObject defaultParams "M"
    (incomingObjects _ (emptyTables DemoObject)) "peerA" [request "op1" []]
    "s3cr3t" 0.

Lemma replies_are_honoured_until_the_deadline_witness :
  expectedFrom DemoObject
    (opShippingInterval DemoObject 90000
       (withIncoming _ (emptyTables DemoObject) askedForOp1.1))
    "peerA" (Some "s3cr3t") "op1" /\
  forall fuel store literalContext omittedDeps rng now',
  exists warnings,
    receiveObjects DemoObject demoHashWithSeed demoForValue defaultParams
      "M" demoAccepted fuel store
      (opShippingInterval DemoObject 90001
         (withIncoming _ (emptyTables DemoObject) askedForOp1.1))
      "peerA" literalContext omittedDeps (Some "s3cr3t") rng now'
    = Some (opShippingInterval DemoObject 90001
              (withIncoming _ (emptyTables DemoObject) askedForOp1.1),
            warnings) /\
    onlyWarnings DemoObject warnings.
Proof.
  assert (Hfresh : forall h mv,
             movementAt (incomingObjects _ (emptyTables DemoObject)) h "peerA"
             = Some mv -> mv_secret mv <> "s3cr3t").
  { intros h mv. unfold movementAt. cbn. by rewrite lookup_empty. }
  assert (Hsent : ActSend DemoObject "peerA"
                    (RequestObjs "M" [request "op1" []] "s3cr3t")
                  ∈ askedForOp1.2)
    by (vm_compute; left).
  assert (Hreq : request "op1" [] ∈ [request "op1" []]) by left.
  split.
  - exact (proj1 (replies_are_honoured_until_the_deadline DemoObject
                    demoHashWithSeed demoForValue defaultParams "M"
                    demoAccepted (emptyTables DemoObject) "peerA"
                    [request "op1" []] "s3cr3t" 0 90000 Hfresh)
                 ltac:(cbn; lia) "peerA" [request "op1" []] "s3cr3t"
                 (request "op1" []) Hsent Hreq).
  - exact (proj2 (replies_are_honoured_until_the_deadline DemoObject
                    demoHashWithSeed demoForValue defaultParams "M"
                    demoAccepted (emptyTables DemoObject) "peerA"
                    [request "op1" []] "s3cr3t" 0 90001 Hfresh)
                 ltac:(cbn; lia)).
Defined.

Example the_request_is_on_record_until_the_deadline :
  movementAt (incomingObjects _
                (opShippingInterval DemoObject 90000
                   (withIncoming _ (emptyTables DemoObject) askedForOp1.1)))
             "op1" "peerA"
  = Some {| mv_secret := "s3cr3t"; mv_timeout := 90000; mv_dependencyChain := [] |} /\
  movementAt (incomingObjects _
                (opShippingInterval DemoObject 90001
                   (withIncoming _ (emptyTables DemoObject) askedForOp1.1)))
             "op1" "peerA"
  = None.
Proof. split; vm_compute; reflexivity. Qed.

End TerminalOpsSyncAgent.

(** ** WebRTCConnection: messages that arrive before a callback is set *)

Module WebRTCConnection.

Section Connection.

(** The [data] of a message event, and the callbacks a user may set.  A
    callback is taken not to call back into the connection while it
    runs. *)
Variable Data : Type.
Variable Callback : Type.

(** The two fields the buffering is about. *)
Record State := {
  messageCallback  : option Callback;
  incomingMessages : list Data
}.

(** As the constructor leaves them. *)
Definition initialState : State :=
  {| messageCallback := None; incomingMessages := [] |}.

(** A call [messageCallback(ev.data, this)]. *)
Abbreviation Delivery := (Callback * Data)%type.

(** [this.onmessage]. *)
Definition onmessage (st : State) (data : Data) : State * list Delivery :=
  match messageCallback st with
  | Some callback => (st, [(callback, data)])
  | None =>
      ({| messageCallback := None;
          incomingMessages := incomingMessages st ++ [data] |}, [])
  end.

(** The [while] loop of [setMessageCallback]: [shift] takes the oldest
    message. *)
Fixpoint drain (callback : Callback) (queue : list Data) : list Delivery :=
  match queue with
  | [] => []
  | data :: rest => (callback, data) :: drain callback rest
  end.

(** [setMessageCallback]; [None] is an undefined callback. *)
Definition setMessageCallback (st : State) (cb : option Callback)
  : State * list Delivery :=
  match cb with
  | Some callback =>
      ({| messageCallback := Some callback; incomingMessages := [] |},
       drain callback (incomingMessages st))
  | None =>
      ({| messageCallback := None;
          incomingMessages := incomingMessages st |}, [])
  end.

(** What happens to a connection: messages arrive, and callbacks are
    set. *)
Inductive Call :=
| OnMessage (data : Data)
| SetMessageCallback (cb : option Callback).

Definition step (acc : State * list Delivery) (call : Call)
  : State * list Delivery :=
  let '(st, delivered) := acc in
  let '(st', now) :=
    match call with
    | OnMessage data => onmessage st data
    | SetMessageCallback cb => setMessageCallback st cb
    end in
  (st', delivered ++ now).

Definition run (calls : list Call) : State * list Delivery :=
  foldl step (initialState, []) calls.

(** The messages that arrived, in order. *)
Definition arrived (calls : list Call) : list Data :=
  omap (fun call => match call with
                    | OnMessage data => Some data
                    | SetMessageCallback _ => None
                    end) calls.









End Connection.

Example messages_before_the_callback_are_kept :
  run nat string [OnMessage _ _ 1%nat; OnMessage _ _ 2%nat;
                  SetMessageCallback _ _ (Some "f"); OnMessage _ _ 3%nat]
  = ({| messageCallback := Some "f"; incomingMessages := [] |},
     [("f", 1%nat); ("f", 2%nat); ("f", 3%nat)]).
Proof. reflexivity. Qed.

End WebRTCConnection.

